(** * UV Cell Snap: island detection and grid snap / offset

    A shallow embedding of [UVCellSnapOperator.execute] and
    [UVCellSnapOffset.execute] (file [__init__.py]) together with the
    nested helpers [are_uvs_connected] and [get_uv_island].

    Numbers.  Python floats are rendered as rationals extended with the
    two infinities and NaN ([fnum]): the code initialises its bounding
    box with [math.inf] and [-math.inf], and an empty island yields
    [inf + -inf].  The code is rendered twice.  In [snap_island],
    [offset_island] and the operators built on them, finite values add,
    subtract and halve exactly; these carry the properties that rounding
    does not touch: the detection of islands, the bounds check, which
    coordinates an operator writes, the reports.  In [snap_island_fl],
    [offset_island_fl] and the operators built on them, the result of
    every operation is rounded to binary64 and every value stored into a
    UV coordinate to binary32, as Python and [mathutils.Vector] do
    ([round_to]: round to nearest, ties to even, with subnormals and
    overflow); these carry the properties of the geometry: where an
    island ends up and how far a move is from a translation.

    Mesh.  A BMesh is a list of faces (index = face handle) and a list of
    edges, each edge being the list of faces that use it
    ([edge.link_faces]).  [face.edges] is the list of edges whose
    [link_faces] contain the face, and the loops of a face are the pairs
    (face, corner number): both are invariants of BMesh that the
    representation builds in.  A UV layer maps every loop to its
    coordinate.  Python sets are finite sets; the element that
    [set.pop()] hands out is chosen by a scheduler, so that results hold
    for every order of popping.

    Host.  Every selected object owns its mesh data.  The calls that set
    the active object, switch the mode or flag the mesh as changed
    ([mode_set], [update_edit_mesh]) touch no coordinate and are left out;
    [self.report] is the list of reports an operator returns next to its
    status and the objects as it leaves them. *)

From Stdlib Require Import QArith Qcanon Lqa Qround Qpower Qabs.
From stdpp Require Import base decidable option list relations functions gmap sets strings pretty.

(** ** Extended rationals standing for floats *)

Inductive fnum : Type :=
  | NaN
  | NInf
  | Fin (q : Qc)
  | PInf.

Definition Qc_ltb (a b : Qc) : bool :=
  match (a ?= b)%Qc with Lt => true | _ => false end.

(** [a < b] on floats; every comparison with NaN is false. *)
Definition flt (a b : fnum) : bool :=
  match a, b with
  | NaN, _ | _, NaN => false
  | NInf, NInf => false
  | NInf, _ => true
  | Fin _, NInf => false
  | Fin p, Fin q => Qc_ltb p q
  | Fin _, PInf => true
  | PInf, _ => false
  end.

(** [a > b]. *)
Definition fgt (a b : fnum) : bool := flt b a.

Definition fadd (a b : fnum) : fnum :=
  match a, b with
  | NaN, _ | _, NaN => NaN
  | PInf, NInf | NInf, PInf => NaN
  | PInf, _ | _, PInf => PInf
  | NInf, _ | _, NInf => NInf
  | Fin p, Fin q => Fin (p + q)%Qc
  end.

Definition fneg (a : fnum) : fnum :=
  match a with
  | NaN => NaN
  | NInf => PInf
  | Fin p => Fin (- p)%Qc
  | PInf => NInf
  end.

Definition fsub (a b : fnum) : fnum := fadd a (fneg b).

(** [a * a]. *)
Definition fsq (a : fnum) : fnum :=
  match a with
  | NaN => NaN
  | NInf | PInf => PInf
  | Fin p => Fin (p * p)%Qc
  end.

Definition Qc_two : Qc := Q2Qc 2.

(** [a / 2]. *)
Definition fhalf (a : fnum) : fnum :=
  match a with
  | Fin p => Fin (p / Qc_two)%Qc
  | _ => a
  end.

(** Python's two-argument [min(a, b)] and [max(a, b)]: the first argument
    is kept unless the second is strictly smaller (larger). *)
Definition py_min (a b : fnum) : fnum := if flt b a then b else a.
Definition py_max (a b : fnum) : fnum := if fgt b a then b else a.

Definition is_fin (a : fnum) : bool :=
  match a with Fin _ => true | _ => false end.

(** ** Rounding to a binary format *)

(** A binary floating-point format: the number of bits of the
    significand, the exponent of the smallest subnormal, and the exponent
    from which on a number overflows. *)
Record Format : Type := mkFormat {
  prec : positive;
  emin : Z;
  emax : Z
}.

(** Python's [float]. *)
Definition binary64 : Format := mkFormat 53 (-1074) 1024.
(** The components of a [mathutils.Vector], among them the UV coordinates
    of a loop. *)
Definition binary32 : Format := mkFormat 24 (-149) 128.

Definition pow2 (e : Z) : Q := (2 ^ e)%Q.

(** The exponent [k] with [2 ^ k <= x < 2 ^ (k + 1)], for positive [x]. *)
Definition ilog2 (x : Q) : Z :=
  let k := (Z.log2 (Qnum x) - Z.log2 (Z.pos (Qden x)))%Z in
  if Qle_bool (pow2 k) x then k else (k - 1)%Z.

(** The nearest integer, ties to the even one. *)
Definition round_half_even (x : Q) : Z :=
  let f := Qfloor x in
  match (x - inject_Z f ?= 1 # 2)%Q with
  | Lt => f
  | Gt => (f + 1)%Z
  | Eq => if Z.even f then f else (f + 1)%Z
  end.

(** The nearest multiple of the unit in the last place of a positive [x];
    below the normal range the unit is that of the subnormals. *)
Definition round_pos (fmt : Format) (x : Q) : Q :=
  let e := Z.max (ilog2 x - Z.pos (prec fmt) + 1) (emin fmt) in
  (inject_Z (round_half_even (x / pow2 e)) * pow2 e)%Q.

(** Round to nearest, ties to even; what rounds to [2 ^ emax] or beyond
    becomes an infinity. *)
Definition round_to (fmt : Format) (a : fnum) : fnum :=
  match a with
  | Fin q =>
      match (q ?= 0)%Qc with
      | Eq => Fin 0
      | Gt => let y := round_pos fmt q in
              if Qle_bool (pow2 (emax fmt)) y then PInf else Fin (Q2Qc y)
      | Lt => let y := round_pos fmt (- q) in
              if Qle_bool (pow2 (emax fmt)) y then NInf else Fin (- Q2Qc y)
      end
  | _ => a
  end.

(** ** Mesh data *)

(** A 2D vector ([mathutils.Vector]) with components [x] and [y]. *)
Record Vector : Type := mkVector { vx : fnum; vy : fnum }.

Abbreviation face := nat (only parsing).

(** A loop is a face corner: the face and the position of the corner. *)
Abbreviation loop := (nat * nat)%type (only parsing).

(** A UV layer gives the coordinate of every loop. *)
Abbreviation UVLayer := (nat * nat → Vector) (only parsing).

Record BMFace : Type := mkFace {
  select : bool;       (* face.select *)
  n_loops : nat        (* number of corners, len(face.loops) *)
}.

Record BMesh : Type := mkMesh {
  bm_faces : list BMFace;
  bm_edges : list (list face);          (* edge.link_faces of every edge *)
  uv_layers : gmap string UVLayer       (* bm.loops.layers.uv *)
}.

(** An object of the selection ([obj.type == 'MESH'] or anything else). *)
Inductive Object : Type :=
  | MeshObject (data : BMesh)
  | OtherObject.

(** [face.loops] *)
Definition face_loops (m : BMesh) (f : face) : list loop :=
  match bm_faces m !! f with
  | Some r => (λ k, (f, k)) <$> seq 0 (n_loops r)
  | None => []
  end.

(** [face.select]; a handle that names no face of the mesh is not selected. *)
Definition face_select (m : BMesh) (f : face) : bool :=
  match bm_faces m !! f with
  | Some r => select r
  | None => false
  end.

(** [face.edges]: the edges that list the face among their [link_faces]. *)
Definition face_edges (m : BMesh) (f : face) : list (list face) :=
  filter (λ e, f ∈ e) (bm_edges m).

(** ** Island detection *)

(** The tolerance 0.001 of [are_uvs_connected]. *)
Definition epsilon : Qc := Q2Qc (1 # 1000).

(** [(a - b).length < 0.001], decided on the squared length. *)
Definition uv_close (a b : Vector) : bool :=
  flt (fadd (fsq (fsub (vx a) (vx b))) (fsq (fsub (vy a) (vy b))))
      (Fin (epsilon * epsilon)%Qc).

Definition are_uvs_connected (m : BMesh) (face1 face2 : face)
    (uv_layer : UVLayer) : bool :=
  existsb (λ loop1,
    existsb (λ loop2, uv_close (uv_layer loop1) (uv_layer loop2))
            (face_loops m face2))
    (face_loops m face1).

(** [set.pop()] removes an arbitrary element.  The element is chosen by a
    number [n]: the set's elements taken in some order, position
    [n mod size].  [None] exactly when the set is empty. *)
Definition set_pop (n : nat) (s : gset face) : option (face * gset face) :=
  let l := elements s in
  match l !! (n `mod` length l) with
  | Some f => Some (f, s ∖ {[f]})
  | None => None
  end.

(** A scheduler decides every [pop] from the state of the traversal. *)
Definition Picker : Type := gset face → gset face → nat.

Section Detection.
Context (pick : Picker) (m : BMesh) (uv_layer : UVLayer).

(** Body of [for linked_face in edge.link_faces]. *)
Definition visit_linked (processed_faces : gset face) (f : face)
    (st : gset face * gset face) (linked_face : face)
    : gset face * gset face :=
  let '(island_faces, to_process) := st in
  if face_select m linked_face
     && bool_decide (linked_face ∉ island_faces)
     && bool_decide (linked_face ∉ processed_faces)
     && are_uvs_connected m f linked_face uv_layer
  then (island_faces ∪ {[linked_face]}, to_process ∪ {[linked_face]})
  else st.

(** [for edge in face.edges: for linked_face in edge.link_faces: ...] *)
Definition expand (processed_faces : gset face) (f : face)
    (st : gset face * gset face) : gset face * gset face :=
  foldl (λ st edge, foldl (visit_linked processed_faces f) st edge)
        st (face_edges m f).

(** [while to_process: ...], at most [fuel] iterations.  The result is
    the state in which the loop stopped. *)
Fixpoint island_loop (fuel : nat) (processed_faces : gset face)
    (island_faces to_process : gset face) : gset face * gset face :=
  match fuel with
  | 0 => (island_faces, to_process)
  | S fuel' =>
      match set_pop (pick island_faces to_process) to_process with
      | None => (island_faces, to_process)
      | Some (f, rest) =>
          let '(island_faces', to_process') :=
            expand processed_faces f (island_faces, rest) in
          island_loop fuel' processed_faces island_faces' to_process'
      end
  end.

(** Enough iterations for any traversal of the mesh: every iteration
    pops a face, and a face enters [to_process] at most once (see
    [get_uv_island_terminates]). *)
Definition island_fuel : nat := length (bm_faces m) + 2.

Definition get_uv_island (processed_faces : gset face) (start_face : face)
    : gset face :=
  (island_loop island_fuel processed_faces {[start_face]} {[start_face]}).1.

(** [for face in bm.faces: if face.select and face not in processed_faces]:
    one step of the loop that finds all islands; the state is
    [processed_faces] and the face sets of the islands found so far. *)
Definition find_step (st : gset face * list (gset face)) (f : face)
    : gset face * list (gset face) :=
  let '(processed_faces, found) := st in
  if face_select m f && bool_decide (f ∉ processed_faces) then
    let island_faces := get_uv_island processed_faces f in
    (processed_faces ∪ island_faces, found ++ [island_faces])
  else st.

Definition find_islands_in (order : list face) : list (gset face) :=
  (foldl find_step (∅, []) order).2.

(** The faces of [bm.faces] are visited in index order. *)
Definition find_island_faces : list (gset face) :=
  find_islands_in (seq 0 (length (bm_faces m))).

(** [island_uvs]: the UV handles of every loop of every face of an island. *)
Definition island_uvs (island_faces : gset face) : list loop :=
  elements island_faces ≫= face_loops m.

(** [islands] *)
Definition find_islands : list (list loop) :=
  island_uvs <$> find_island_faces.
End Detection.

(** ** The grid transforms *)

(** [bbox_min] and [bbox_max], two numbers each. *)
Record BBox : Type := mkBBox {
  bbox_min0 : fnum; bbox_min1 : fnum;
  bbox_max0 : fnum; bbox_max1 : fnum
}.

(** [[math.inf, math.inf]] and [[-math.inf, -math.inf]] *)
Definition bbox_init : BBox := mkBBox PInf PInf NInf NInf.

(** Body of the first [for uv in island]. *)
Definition bbox_add (uv_layer : UVLayer) (bb : BBox) (uv : loop) : BBox :=
  mkBBox (py_min (bbox_min0 bb) (vx (uv_layer uv)))
         (py_min (bbox_min1 bb) (vy (uv_layer uv)))
         (py_max (bbox_max0 bb) (vx (uv_layer uv)))
         (py_max (bbox_max1 bb) (vy (uv_layer uv))).

Definition island_bbox (uv_layer : UVLayer) (island : list loop) : BBox :=
  foldl (bbox_add uv_layer) bbox_init island.

Definition center_x (bb : BBox) : fnum := fhalf (fadd (bbox_min0 bb) (bbox_max0 bb)).
Definition center_y (bb : BBox) : fnum := fhalf (fadd (bbox_min1 bb) (bbox_max1 bb)).

(** [uv.x += offset_x; uv.y += offset_y] on the coordinate behind a handle. *)
Definition translate_uv (offset_x offset_y : fnum) (uv_layer : UVLayer)
    (uv : loop) : UVLayer :=
  <[uv := mkVector (fadd (vx (uv_layer uv)) offset_x)
                   (fadd (vy (uv_layer uv)) offset_y)]> uv_layer.

(** Body of [for island in islands] of the snap operator. *)
Definition snap_island (target_x target_y : Qc) (uv_layer : UVLayer)
    (island : list loop) : UVLayer :=
  let bb := island_bbox uv_layer island in
  let offset_x := fsub (Fin target_x) (center_x bb) in
  let offset_y := fsub (Fin target_y) (center_y bb) in
  foldl (translate_uv offset_x offset_y) uv_layer island.

(** Body of the second [for uv in island] of the offset operator. *)
Definition offset_uv (direction : string) (cx cy : fnum)
    (clamped_offset_x clamped_offset_y : fnum) (uv_layer : UVLayer)
    (uv : loop) : UVLayer :=
  if String.eqb direction "up" && flt (fadd cy clamped_offset_y) (Fin 1) then
    <[uv := mkVector (vx (uv_layer uv)) (fadd (vy (uv_layer uv)) clamped_offset_y)]> uv_layer
  else if String.eqb direction "down" && fgt (fsub cy clamped_offset_y) (Fin 0) then
    <[uv := mkVector (vx (uv_layer uv)) (fsub (vy (uv_layer uv)) clamped_offset_y)]> uv_layer
  else if String.eqb direction "right" && flt (fadd cx clamped_offset_x) (Fin 1) then
    <[uv := mkVector (fadd (vx (uv_layer uv)) clamped_offset_x) (vy (uv_layer uv))]> uv_layer
  else if String.eqb direction "left" && fgt (fsub cx clamped_offset_x) (Fin 0) then
    <[uv := mkVector (fsub (vx (uv_layer uv)) clamped_offset_x) (vy (uv_layer uv))]> uv_layer
  else uv_layer.

(** [1 / n] for a positive integer [n]. *)
Definition inv_pos (n : positive) : Qc := (1 / Qc_of_Z (Z.pos n))%Qc.

(** [max(0, min(1, 1/n))] *)
Definition clamped_step (n : positive) : fnum :=
  py_max (Fin 0) (py_min (Fin 1) (Fin (inv_pos n))).

(** Body of [for island in islands] of the offset operator. *)
Definition offset_island (direction : string) (columns rows : positive)
    (uv_layer : UVLayer) (island : list loop) : UVLayer :=
  let bb := island_bbox uv_layer island in
  let clamped_offset_x := clamped_step columns in
  let clamped_offset_y := clamped_step rows in
  foldl (offset_uv direction (center_x bb) (center_y bb)
           clamped_offset_x clamped_offset_y) uv_layer island.

(** ** The operators *)

(** [UVCellSnapPreferences]; the two counts are declared with [min=1]. *)
Record Preferences : Type := mkPrefs {
  uv_channel : string;
  grid_columns : positive;
  grid_rows : positive
}.

Inductive Status : Type := FINISHED | CANCELLED.
Inductive Severity : Type := ERROR | WARNING.
Definition Report : Type := (Severity * string)%type.

(** How a call ends: it returns a status set or raises an exception. *)
Inductive Outcome : Type :=
  | Returned (s : Status)
  | Raised (exn : string).

(** [[i / columns for i in range(columns)]] *)
Definition grid_x (columns : positive) : list Qc :=
  (λ i, Qc_of_Z (Z.of_nat i) / Qc_of_Z (Z.pos columns))%Qc
    <$> seq 0 (Pos.to_nat columns).

(** [[1.0 - i / rows for i in range(rows)]] *)
Definition grid_y (rows : positive) : list Qc :=
  (λ i, 1 - Qc_of_Z (Z.of_nat i) / Qc_of_Z (Z.pos rows))%Qc
    <$> seq 0 (Pos.to_nat rows).

(** [target_x] and [target_y]; [None] when a list index is out of range.
    [cell_index] is declared with [min=0]. *)
Definition snap_target (columns rows : positive) (cell_index : N)
    : option (Qc * Qc) :=
  let row := (cell_index `div` N.pos columns)%N in
  let column := (cell_index `mod` N.pos columns)%N in
  gx ← grid_x columns !! N.to_nat column;
  gy ← grid_y rows !! N.to_nat row;
  Some ((gx + inv_pos (2 * columns))%Qc, (gy - inv_pos (2 * rows))%Qc).

Definition channel_not_found (name : string) : Report :=
  (ERROR, String.append "UV channel '" (String.append name "' not found")).

Definition no_selected_uvs : Report := (WARNING, "No selected UVs found"%string).
Definition cell_out_of_bounds : Report := (ERROR, "Cell index out of bounds"%string).

(** The handles of an island point into the layer of the mesh: what has
    been written through them is the channel of the mesh afterwards. *)
Definition store_layer (prefs : Preferences) (mesh : BMesh)
    (uv_layer : UVLayer) : BMesh :=
  mkMesh (bm_faces mesh) (bm_edges mesh)
         (<[uv_channel prefs := uv_layer]> (uv_layers mesh)).

Section Operators.
Context (pick : Picker) (prefs : Preferences).

(** The part of the loop over the selection that both operators share:
    fetch the layer, find the islands, move each island with [move],
    store the layer.  The [return] on a missing channel ends the whole
    loop: the objects not yet visited stay as they are. *)
Fixpoint for_selected_objects (move : UVLayer → list loop → UVLayer)
    (reports : list Report) (selected_objects : list Object)
    : Outcome * list Report * list Object :=
  match selected_objects with
  | [] => (Returned FINISHED, reports, [])
  | OtherObject :: rest =>
      let '(out, reports', rest') := for_selected_objects move reports rest in
      (out, reports', OtherObject :: rest')
  | MeshObject mesh :: rest =>
      match uv_layers mesh !! uv_channel prefs with
      | None =>
          (Returned CANCELLED,
           reports ++ [channel_not_found (uv_channel prefs)],
           selected_objects)
      | Some uv_layer =>
          let islands := find_islands pick mesh uv_layer in
          let reports1 :=
            match islands with
            | [] => reports ++ [no_selected_uvs]
            | _ => reports
            end in
          let uv_layer' := foldl move uv_layer islands in
          let mesh' := store_layer prefs mesh uv_layer' in
          let '(out, reports', rest') := for_selected_objects move reports1 rest in
          (out, reports', MeshObject mesh' :: rest')
      end
  end.

(** [UVCellSnapOperator.execute] *)
Definition snap_execute (cell_index : N) (selected_objects : list Object)
    : Outcome * list Report * list Object :=
  let columns := grid_columns prefs in
  let rows := grid_rows prefs in
  let max_cells := (N.pos columns * N.pos rows)%N in
  if (max_cells <=? cell_index)%N then
    (Returned CANCELLED, [cell_out_of_bounds], selected_objects)
  else
    match snap_target columns rows cell_index with
    | None => (Raised "IndexError", [], selected_objects)
    | Some (target_x, target_y) =>
        for_selected_objects (snap_island target_x target_y) [] selected_objects
    end.

(** [UVCellSnapOffset.execute] *)
Definition offset_execute (direction : string) (selected_objects : list Object)
    : Outcome * list Report * list Object :=
  for_selected_objects
    (offset_island direction (grid_columns prefs) (grid_rows prefs))
    [] selected_objects.
End Operators.

(** ** The transforms and operators with their rounding *)

(** The same code once more, now with the rounding of every operation:
    [fl] rounds the result of an operation on Python floats, [st] the
    value stored into a component of a UV coordinate.  In Blender [fl] is
    [round_to binary64] and [st] is [round_to binary32].  The bounding
    box is read from the stored coordinates and needs no rounding. *)
Section Floats.
Context (fl st : fnum → fnum).

(** [grid_x = [i / columns for i in range(columns)]] *)
Definition grid_x_fl (columns : positive) : list fnum :=
  (λ i, fl (Fin (Qc_of_Z (Z.of_nat i) / Qc_of_Z (Z.pos columns))%Qc))
    <$> seq 0 (Pos.to_nat columns).

(** [grid_y = [1.0 - i / rows for i in range(rows)]] *)
Definition grid_y_fl (rows : positive) : list fnum :=
  (λ i, fl (fsub (Fin 1)
                (fl (Fin (Qc_of_Z (Z.of_nat i) / Qc_of_Z (Z.pos rows))%Qc))))
    <$> seq 0 (Pos.to_nat rows).

(** [target_x = grid_x[column] + 1 / (2 * columns)] and
    [target_y = grid_y[row] - 1 / (2 * rows)]; [None] when a list index
    is out of range. *)
Definition snap_target_fl (columns rows : positive) (cell_index : N)
    : option (fnum * fnum) :=
  let row := (cell_index `div` N.pos columns)%N in
  let column := (cell_index `mod` N.pos columns)%N in
  gx ← grid_x_fl columns !! N.to_nat column;
  gy ← grid_y_fl rows !! N.to_nat row;
  Some (fl (fadd gx (fl (Fin (inv_pos (2 * columns))))),
        fl (fsub gy (fl (Fin (inv_pos (2 * rows)))))).

(** [(min_uv[0] + max_uv[0]) / 2] and [(min_uv[1] + max_uv[1]) / 2] *)
Definition center_x_fl (bb : BBox) : fnum :=
  fl (fhalf (fl (fadd (bbox_min0 bb) (bbox_max0 bb)))).
Definition center_y_fl (bb : BBox) : fnum :=
  fl (fhalf (fl (fadd (bbox_min1 bb) (bbox_max1 bb)))).

(** [uv.x += offset_x; uv.y += offset_y] *)
Definition translate_uv_fl (offset_x offset_y : fnum) (uv_layer : UVLayer)
    (uv : loop) : UVLayer :=
  <[uv := mkVector (st (fl (fadd (vx (uv_layer uv)) offset_x)))
                   (st (fl (fadd (vy (uv_layer uv)) offset_y)))]> uv_layer.

(** The body of the loop over the islands in [UVCellSnapOperator]. *)
Definition snap_island_fl (target_x target_y : fnum) (uv_layer : UVLayer)
    (island : list loop) : UVLayer :=
  let bb := island_bbox uv_layer island in
  let offset_x := fl (fsub target_x (center_x_fl bb)) in
  let offset_y := fl (fsub target_y (center_y_fl bb)) in
  foldl (translate_uv_fl offset_x offset_y) uv_layer island.

(** The [if] / [elif] chain of [UVCellSnapOffset] for one coordinate. *)
Definition offset_uv_fl (direction : string) (cx cy : fnum)
    (clamped_offset_x clamped_offset_y : fnum) (uv_layer : UVLayer)
    (uv : loop) : UVLayer :=
  if String.eqb direction "up"
     && flt (fl (fadd cy clamped_offset_y)) (Fin 1) then
    <[uv := mkVector (vx (uv_layer uv))
                     (st (fl (fadd (vy (uv_layer uv)) clamped_offset_y)))]> uv_layer
  else if String.eqb direction "down"
          && fgt (fl (fsub cy clamped_offset_y)) (Fin 0) then
    <[uv := mkVector (vx (uv_layer uv))
                     (st (fl (fsub (vy (uv_layer uv)) clamped_offset_y)))]> uv_layer
  else if String.eqb direction "right"
          && flt (fl (fadd cx clamped_offset_x)) (Fin 1) then
    <[uv := mkVector (st (fl (fadd (vx (uv_layer uv)) clamped_offset_x)))
                     (vy (uv_layer uv))]> uv_layer
  else if String.eqb direction "left"
          && fgt (fl (fsub cx clamped_offset_x)) (Fin 0) then
    <[uv := mkVector (st (fl (fsub (vx (uv_layer uv)) clamped_offset_x)))
                     (vy (uv_layer uv))]> uv_layer
  else uv_layer.

(** [max(0, min(1, 1 / columns))] *)
Definition clamped_step_fl (n : positive) : fnum :=
  py_max (Fin 0) (py_min (Fin 1) (fl (Fin (inv_pos n)))).

(** The body of the loop over the islands in [UVCellSnapOffset]. *)
Definition offset_island_fl (direction : string) (columns rows : positive)
    (uv_layer : UVLayer) (island : list loop) : UVLayer :=
  let bb := island_bbox uv_layer island in
  let clamped_offset_x := clamped_step_fl columns in
  let clamped_offset_y := clamped_step_fl rows in
  foldl (offset_uv_fl direction (center_x_fl bb) (center_y_fl bb)
           clamped_offset_x clamped_offset_y) uv_layer island.
End Floats.

Section FloatOperators.
Context (fl st : fnum → fnum) (pick : Picker) (prefs : Preferences).

(** [UVCellSnapOperator.execute] *)
Definition snap_execute_fl (cell_index : N) (selected_objects : list Object)
    : Outcome * list Report * list Object :=
  let columns := grid_columns prefs in
  let rows := grid_rows prefs in
  let max_cells := (N.pos columns * N.pos rows)%N in
  if (max_cells <=? cell_index)%N then
    (Returned CANCELLED, [cell_out_of_bounds], selected_objects)
  else
    match snap_target_fl fl columns rows cell_index with
    | None => (Raised "IndexError", [], selected_objects)
    | Some (target_x, target_y) =>
        for_selected_objects pick prefs (snap_island_fl fl st target_x target_y)
          [] selected_objects
    end.

(** [UVCellSnapOffset.execute] *)
Definition offset_execute_fl (direction : string)
    (selected_objects : list Object) : Outcome * list Report * list Object :=
  for_selected_objects pick prefs
    (offset_island_fl fl st direction (grid_columns prefs) (grid_rows prefs))
    [] selected_objects.
End FloatOperators.

(** ** The panels and the menu *)

(** The property a button sets on the operator it invokes:
    [.cell_index = index] or [.direction = direction]. *)
Inductive OperatorArg : Type :=
  | CellIndex (cell_index : N)
  | Direction (direction : string).

(** [layout.operator(idname, text=..., icon=...)] with its property, or
    [layout.prop(prefs, name)]. *)
Inductive UIItem : Type :=
  | OperatorButton (idname text : string) (icon : option string)
                   (arg : OperatorArg)
  | PropField (name : string).

(** [range(n)] *)
Definition py_range (n : positive) : list N :=
  N.of_nat <$> seq 0 (Pos.to_nat n).

(** [for row in range(grid_rows): row_layout = layout.row();
     for col in range(grid_columns): ...]: one list of buttons per row.
    [label] is [str(index+1)] in the panels and [str(index)] in the menu. *)
Definition cell_rows (label : N → string) (prefs : Preferences)
    : list (list UIItem) :=
  (λ row,
     (λ col,
        let index := (row * N.pos (grid_columns prefs) + col)%N in
        OperatorButton "uv.cell_snap" (label index) None (CellIndex index))
     <$> py_range (grid_columns prefs))
  <$> py_range (grid_rows prefs).

Definition directions : list string := ["up"; "down"; "left"; "right"]%string.
Definition arrows : list string :=
  ["TRIA_UP"; "TRIA_DOWN"; "TRIA_LEFT"; "TRIA_RIGHT"]%string.

(** [for direction, arrow in zip(directions, arrows): grid.operator(...)] *)
Definition direction_buttons : list UIItem :=
  (λ da : string * string,
     OperatorButton "uv.cell_snap_offset" "" (Some da.2) (Direction da.1))
  <$> zip directions arrows.

(** [UVCellSnapPanel.draw] and [VIEW3D_PT_UVCellSnap.draw] (the two bodies
    are the same): the rows of cell buttons, the grid of direction
    buttons, the row with the channel name. *)
Definition panel_draw (prefs : Preferences) : list (list UIItem) :=
  cell_rows (λ index, pretty (index + 1)%N) prefs
  ++ [direction_buttons] ++ [[PropField "uv_channel"]].

(** [UVCellSnapMenu.draw] *)
Definition menu_draw (prefs : Preferences) : list (list UIItem) :=
  cell_rows (λ index, pretty index) prefs.

(** Pressing a button runs the operator of that [bl_idname] with the
    property the button has set; [None] when the operator has no such
    property. *)
Definition press (pick : Picker) (prefs : Preferences) (item : UIItem)
    (selected_objects : list Object)
    : option (Outcome * list Report * list Object) :=
  match item with
  | OperatorButton idname _ _ (CellIndex cell_index) =>
      if String.eqb idname "uv.cell_snap"
      then Some (snap_execute pick prefs cell_index selected_objects)
      else None
  | OperatorButton idname _ _ (Direction direction) =>
      if String.eqb idname "uv.cell_snap_offset"
      then Some (offset_execute pick prefs direction selected_objects)
      else None
  | PropField _ => None
  end.

(** ** Notions used to state the properties *)

Global Instance fnum_eq_dec : EqDecision fnum.
Proof. solve_decision. Defined.

Global Instance Vector_eq_dec : EqDecision Vector.
Proof. solve_decision. Defined.

(** [v + (dx, dy)] *)
Definition vadd (v : Vector) (dx dy : fnum) : Vector :=
  mkVector (fadd (vx v) dx) (fadd (vy v) dy).

Definition vfinite (v : Vector) : bool := is_fin (vx v) && is_fin (vy v).

(** Every coordinate of the island is a finite number. *)
Definition finite_uvs (uv_layer : UVLayer) (island : list loop) : Prop :=
  ∀ l, l ∈ island → vfinite (uv_layer l) = true.

(** Updating the coordinate behind every handle of a list with [g]. *)
Definition update_at (g : Vector → Vector) (uv_layer : UVLayer) (l : loop)
    : UVLayer :=
  <[l := g (uv_layer l)]> uv_layer.

(** Two faces share an edge of the mesh. *)
Definition mesh_adjacent (m : BMesh) (f g : face) : Prop :=
  ∃ e, e ∈ bm_edges m ∧ f ∈ e ∧ g ∈ e.

(** Some corner of [f] and some corner of [g] lie closer than [epsilon]. *)
Definition uv_touch (m : BMesh) (uv_layer : UVLayer) (f g : face) : Prop :=
  ∃ l1 l2, l1 ∈ face_loops m f ∧ l2 ∈ face_loops m g ∧
           uv_close (uv_layer l1) (uv_layer l2) = true.

(** The UV-connected relation, restricted to selected faces. *)
Definition uv_connected (m : BMesh) (uv_layer : UVLayer) (f g : face) : Prop :=
  face_select m f = true ∧ face_select m g = true ∧
  mesh_adjacent m f g ∧ uv_touch m uv_layer f g.

(** Linked by a chain of UV-connected selected faces. *)
Definition same_component (m : BMesh) (uv_layer : UVLayer) : relation face :=
  rtc (uv_connected m uv_layer).

(** One step of the traversal: from [f] to a linked face it accepts. *)
Definition island_step (m : BMesh) (uv_layer : UVLayer)
    (processed_faces : gset face) (f g : face) : Prop :=
  mesh_adjacent m f g ∧ face_select m g = true ∧
  are_uvs_connected m f g uv_layer = true ∧ g ∉ processed_faces.

(** The faces of the mesh, as a set of handles. *)
Definition mesh_faces (m : BMesh) : gset face :=
  list_to_set (seq 0 (length (bm_faces m))).

(** What bounds the remaining iterations of the traversal. *)
Definition loop_measure (m : BMesh) (st : gset face * gset face) : nat :=
  size (mesh_faces m ∖ st.1) + size st.2.

(** The face sets of a list do not overlap. *)
Inductive disjoint_sets : list (gset face) → Prop :=
  | disjoint_nil : disjoint_sets []
  | disjoint_snoc found I :
      disjoint_sets found → (∀ J, J ∈ found → I ## J) →
      disjoint_sets (found ++ [I]).

(** What the traversal from [s] maintains on [island_faces], [to_process]. *)
Definition traversal_inv (m : BMesh) (uv_layer : UVLayer)
    (processed_faces : gset face) (s : face)
    (st : gset face * gset face) : Prop :=
  s ∈ st.1 ∧ st.2 ⊆ st.1 ∧
  (∀ g, g ∈ st.1 → rtc (island_step m uv_layer processed_faces) s g) ∧
  (∀ f g, f ∈ st.1 → f ∉ st.2 →
          island_step m uv_layer processed_faces f g → g ∈ st.1).

(** What the search for islands maintains on [processed_faces] and the
    islands found so far, [visited] being the faces already looked at. *)
Definition find_inv (m : BMesh) (uv_layer : UVLayer) (visited : list face)
    (st : gset face * list (gset face)) : Prop :=
  (∀ g, g ∈ st.1 ↔ ∃ I, I ∈ st.2 ∧ g ∈ I) ∧
  (∀ I f, I ∈ st.2 → f ∈ I →
     face_select m f = true ∧ ∀ g, g ∈ I ↔ same_component m uv_layer f g) ∧
  disjoint_sets st.2 ∧
  (∀ I, I ∈ st.2 → ∃ s, s ∈ visited ∧ s ∈ I) ∧
  (∀ f, f ∈ visited → face_select m f = true → f ∈ st.1).

(** Squared distance between two coordinates. *)
Definition dist_sq (a b : Vector) : fnum :=
  fadd (fsq (fsub (vx a) (vx b))) (fsq (fsub (vy a) (vy b))).

(** The islands of a list have no handle in common. *)
Definition disjoint_islands (islands : list (list loop)) : Prop :=
  ∀ i j I J, i ≠ j → islands !! i = Some I → islands !! j = Some J →
             ∀ l, l ∈ I → l ∉ J.

(** A move of one island that writes only through the handles of the
    island and reads the layer only there. *)
Definition local_move (move : UVLayer → list loop → UVLayer) : Prop :=
  (∀ uv_layer island l, l ∉ island → move uv_layer island l = uv_layer l) ∧
  (∀ uv1 uv2 island, (∀ l, l ∈ island → uv1 l = uv2 l) →
                     ∀ l, l ∈ island → move uv1 island l = move uv2 island l).

(** Whether the offset operator moves an island: the direction is one of
    the four and its guard holds for the center of the island's box. *)
Definition offset_guard (direction : string) (cx cy ox oy : fnum) : bool :=
  (String.eqb direction "up" && flt (fadd cy oy) (Fin 1))
  || (String.eqb direction "down" && fgt (fsub cy oy) (Fin 0))
  || (String.eqb direction "right" && flt (fadd cx ox) (Fin 1))
  || (String.eqb direction "left" && fgt (fsub cx ox) (Fin 0)).

(** What the offset operator makes of one coordinate of an island. *)
Definition offset_apply (direction : string) (cx cy ox oy : fnum)
    (v : Vector) : Vector :=
  if String.eqb direction "up" && flt (fadd cy oy) (Fin 1) then
    mkVector (vx v) (fadd (vy v) oy)
  else if String.eqb direction "down" && fgt (fsub cy oy) (Fin 0) then
    mkVector (vx v) (fsub (vy v) oy)
  else if String.eqb direction "right" && flt (fadd cx ox) (Fin 1) then
    mkVector (fadd (vx v) ox) (vy v)
  else if String.eqb direction "left" && fgt (fsub cx ox) (Fin 0) then
    mkVector (fsub (vx v) ox) (vy v)
  else v.

(** What an operator makes of one object that it gets to: the islands of
    a mesh with the configured channel are moved, anything else is kept. *)
Definition process_object (pick : Picker) (prefs : Preferences)
    (move : UVLayer → list loop → UVLayer) (obj : Object) : Object :=
  match obj with
  | MeshObject mesh =>
      match uv_layers mesh !! uv_channel prefs with
      | Some uv_layer =>
          MeshObject (store_layer prefs mesh
                        (foldl move uv_layer (find_islands pick mesh uv_layer)))
      | None => obj
      end
  | OtherObject => obj
  end.

(** The warning an object gives rise to when the operator gets to it. *)
Definition object_reports (pick : Picker) (prefs : Preferences)
    (obj : Object) : list Report :=
  match obj with
  | MeshObject mesh =>
      match uv_layers mesh !! uv_channel prefs with
      | Some uv_layer =>
          match find_islands pick mesh uv_layer with
          | [] => [no_selected_uvs]
          | _ => []
          end
      | None => []
      end
  | OtherObject => []
  end.

(** The object is no mesh, or a mesh with the configured channel. *)
Definition has_channel (prefs : Preferences) (obj : Object) : Prop :=
  match obj with
  | MeshObject mesh => is_Some (uv_layers mesh !! uv_channel prefs)
  | OtherObject => True
  end.

(** The coordinate of a loop in a named channel of an object. *)
Definition object_uv (obj : Object) (name : string) (l : loop)
    : option Vector :=
  match obj with
  | MeshObject mesh => (λ uv_layer : UVLayer, uv_layer l) <$> uv_layers mesh !! name
  | OtherObject => None
  end.

(** [face.select] on an object; nothing is selected on a non-mesh. *)
Definition object_face_select (obj : Object) (f : face) : bool :=
  match obj with
  | MeshObject mesh => face_select mesh f
  | OtherObject => false
  end.

(** Same kind of object, same faces, same edges, same channel names. *)
Definition same_topology (obj obj' : Object) : Prop :=
  match obj, obj' with
  | MeshObject mesh, MeshObject mesh' =>
      bm_faces mesh' = bm_faces mesh ∧ bm_edges mesh' = bm_edges mesh ∧
      dom (uv_layers mesh') = dom (uv_layers mesh)
  | OtherObject, OtherObject => True
  | _, _ => False
  end.

(** A report of severity [ERROR]. *)
Definition is_error (r : Report) : bool :=
  match r.1 with ERROR => true | WARNING => false end.

(** [obj'] is [obj] up to the coordinates, in the configured channel, of
    the loops of selected faces. *)
Definition object_frame (prefs : Preferences) (obj obj' : Object) : Prop :=
  same_topology obj obj' ∧
  ∀ name f k,
    name ≠ uv_channel prefs ∨ object_face_select obj f = false →
    object_uv obj' name (f, k) = object_uv obj name (f, k).


(** A mesh none of whose faces is selected. *)
Definition nothing_selected (obj : Object) : bool :=
  match obj with
  | MeshObject mesh => forallb (λ r, negb (select r)) (bm_faces mesh)
  | OtherObject => false
  end.


(** *** Closeness up to rounding *)

(** [a] lies within [τ] of [b]. *)
Definition near (τ a b : Q) : Prop := (b - τ <= a)%Q ∧ (a <= b + τ)%Q.

(** On the range [[-B, B]] the rounding [r] yields a finite number within
    [ε] of its argument. *)
Definition rounds (r : fnum → fnum) (B ε : Q) : Prop :=
  ∀ x : Qc, (- B <= x)%Q → (x <= B)%Q →
    ∃ y : Qc, r (Fin x) = Fin y ∧ near ε y x.

(** Every coordinate of the island is finite and at most [M] in absolute
    value. *)
Definition uvs_within (M : Q) (uv_layer : UVLayer) (island : list loop) : Prop :=
  ∀ l, l ∈ island →
    ∃ x y : Qc, uv_layer l = mkVector (Fin x) (Fin y) ∧ near M x 0 ∧ near M y 0.

(** Every coordinate of the island has moved by [(dx, dy)], up to [η] on
    each axis. *)
Definition moved_by (η : Q) (uv_layer uv_layer' : UVLayer)
    (island : list loop) (dx dy : Q) : Prop :=
  ∀ l, l ∈ island →
    ∃ x y x' y' : Qc,
      uv_layer l = mkVector (Fin x) (Fin y) ∧
      uv_layer' l = mkVector (Fin x') (Fin y') ∧
      near η x' (x + dx) ∧ near η y' (y + dy).

(** For coordinates of absolute value at most [M] on a grid, every number
    the operators compute stays within [range_bound M]; there binary64
    rounds within [eps64 M] and binary32 within [eps32 M].  [tolerance M]
    bounds what the roundings of one snap or offset add up to: a few units
    in the last place of binary32 at the magnitude [M + 6]. *)
Definition range_bound (M : Q) : Q := (2 * M + 12)%Q.

Definition eps64 (M : Q) : Q := (range_bound M * (1 # 9007199254740992))%Q.
Definition eps32 (M : Q) : Q := (range_bound M * (1 # 16777216))%Q.

Definition tolerance (M : Q) : Q := ((M + 6) * (1 # 2097152))%Q.

(** Whether the offset moves an island, and what it makes of one
    coordinate. *)
Definition offset_guard_fl (fl : fnum → fnum) (direction : string)
    (cx cy ox oy : fnum) : bool :=
  (String.eqb direction "up" && flt (fl (fadd cy oy)) (Fin 1))
  || (String.eqb direction "down" && fgt (fl (fsub cy oy)) (Fin 0))
  || (String.eqb direction "right" && flt (fl (fadd cx ox)) (Fin 1))
  || (String.eqb direction "left" && fgt (fl (fsub cx ox)) (Fin 0)).

Definition offset_apply_fl (fl st : fnum → fnum) (direction : string)
    (cx cy ox oy : fnum) (v : Vector) : Vector :=
  if String.eqb direction "up" && flt (fl (fadd cy oy)) (Fin 1) then
    mkVector (vx v) (st (fl (fadd (vy v) oy)))
  else if String.eqb direction "down" && fgt (fl (fsub cy oy)) (Fin 0) then
    mkVector (vx v) (st (fl (fsub (vy v) oy)))
  else if String.eqb direction "right" && flt (fl (fadd cx ox)) (Fin 1) then
    mkVector (st (fl (fadd (vx v) ox))) (vy v)
  else if String.eqb direction "left" && fgt (fl (fsub cx ox)) (Fin 0) then
    mkVector (st (fl (fsub (vx v) ox))) (vy v)
  else v.

(** The distance between two coordinates is at most [r]. *)
Definition dist_le (a b : Vector) (r : Q) : Prop :=
  ∃ d : Qc, dist_sq a b = Fin d ∧ (d <= r * r)%Q.

(** Between any two loops of the island, the distances before and after
    differ by at most [κ]. *)
Definition rigid_within (κ : Q) (uv_layer uv_layer' : UVLayer)
    (island : list loop) : Prop :=
  ∀ l1 l2 r, l1 ∈ island → l2 ∈ island → (0 <= r)%Q →
    (dist_le (uv_layer l1) (uv_layer l2) r →
     dist_le (uv_layer' l1) (uv_layer' l2) (r + κ)) ∧
    (dist_le (uv_layer' l1) (uv_layer' l2) r →
     dist_le (uv_layer l1) (uv_layer l2) (r + κ)).

(** ** Example data *)

(** The coordinate [(xn/xd, yn/yd)]. *)
Definition uv_at (xn : Z) (xd : positive) (yn : Z) (yd : positive) : Vector :=
  mkVector (Fin (Q2Qc (xn # xd))) (Fin (Q2Qc (yn # yd))).

(** The scheduler that always pops the first element. *)
Definition pick_first : Picker := λ _ _, 0.

(** Three selected triangles around a vertex: every two share an edge.
    In UV space face 0 touches face 1 at (0.1, 0) and face 1 touches face 2
    at (0.2, 0.1); faces 0 and 2 have no corner in common: the edge
    between them is a seam. *)
Definition seam_uv : UVLayer := λ l,
  match l with
  | (0, 0) => uv_at 0 1 0 1 | (0, 1) => uv_at 1 10 0 1 | (0, 2) => uv_at 0 1 1 10
  | (1, 0) => uv_at 1 10 0 1 | (1, 1) => uv_at 2 10 0 1 | (1, 2) => uv_at 2 10 1 10
  | (2, 0) => uv_at 2 10 1 10 | (2, 1) => uv_at 3 10 1 10 | (2, 2) => uv_at 3 10 2 10
  | _ => uv_at 0 1 0 1
  end.

Definition seam_mesh : BMesh :=
  mkMesh [mkFace true 3; mkFace true 3; mkFace true 3]
         [[0; 1]; [1; 2]; [0; 2]]
         {["ch3"%string := seam_uv]}.

(** The UV layer of a quad whose corners span [x0, x1] × [y0, y1]. *)
Definition quad_uv (x0 x1 y0 y1 : Qc) : UVLayer := λ l,
  match l with
  | (_, 0) => mkVector (Fin x0) (Fin y0)
  | (_, 1) => mkVector (Fin x1) (Fin y0)
  | (_, 2) => mkVector (Fin x1) (Fin y1)
  | _ => mkVector (Fin x0) (Fin y1)
  end.

(** A mesh of one selected quad carrying [uv_layer] as channel "ch3". *)
Definition quad_mesh (uv_layer : UVLayer) : BMesh :=
  mkMesh [mkFace true 4] [[0]; [0]; [0]; [0]] {["ch3"%string := uv_layer]}.

(** The handles of the only island of [quad_mesh]. *)
Definition quad_island : list loop := [(0, 0); (0, 1); (0, 2); (0, 3)].

(** Box [0, 0.2] × [0, 0.2]. *)
Definition corner_uv : UVLayer := quad_uv 0 (Q2Qc (1 # 5)) 0 (Q2Qc (1 # 5)).

(** Box [0.4, 0.6] × [0.8, 1], center (0.5, 0.9). *)
Definition top_uv : UVLayer :=
  quad_uv (Q2Qc (2 # 5)) (Q2Qc (3 # 5)) (Q2Qc (4 # 5)) 1.


(** A mesh of one selected quad that has channels, but not "ch3". *)
Definition other_channel_mesh : BMesh :=
  mkMesh [mkFace true 4] [[0]; [0]; [0]; [0]] {["UVMap"%string := corner_uv]}.

(** The default preferences: channel "ch3", 4 columns, 2 rows. *)
Definition default_prefs : Preferences := mkPrefs "ch3" 4 2.

(** The binary32 number nearest to 0.2, and a quad with corners at 0 and
    at that number. *)
Definition f32_fifth : Qc := Q2Qc (13421773 # 67108864).

Definition float_corner_uv : UVLayer := quad_uv 0 f32_fifth 0 f32_fifth.

(** * Properties *)

(** Closed goals that a decision procedure settles by evaluation. *)
Ltac vm_decide := apply (bool_decide_unpack _); vm_compute; exact I.

(** A property of every handle of an explicit list, one handle at a time. *)
Ltac each_handle Hl :=
  repeat (apply elem_of_cons in Hl as [->|Hl]; [vm_decide|]);
  by apply elem_of_nil in Hl.

(** ** Arithmetic of [fnum] *)

Lemma Qc_ltb_lt (a b : Qc) : Qc_ltb a b = true ↔ (a < b)%Qc.
Proof.
  unfold Qc_ltb. rewrite Qclt_alt. destruct (a ?= b)%Qc; split; done.
Qed.

Lemma Qc_two_plus : Qc_two = (1 + 1)%Qc.
Proof. apply Qc_is_canon. reflexivity. Qed.


(** ** Moving the coordinates of an island *)

Lemma foldl_update_at_notin g (island : list loop) (uv_layer : UVLayer) l :
  l ∉ island → foldl (update_at g) uv_layer island l = uv_layer l.
Proof.
  revert uv_layer. induction island as [|a island IH]; intros uv_layer Hl; [done|].
  apply not_elem_of_cons in Hl as [Hne Hl]. simpl. rewrite IH by done.
  unfold update_at. by rewrite fn_lookup_insert_ne.
Qed.

Lemma foldl_update_at_in g (island : list loop) (uv_layer : UVLayer) l :
  NoDup island → l ∈ island →
  foldl (update_at g) uv_layer island l = g (uv_layer l).
Proof.
  revert uv_layer. induction island as [|a island IH]; intros uv_layer Hnd Hl.
  { by apply elem_of_nil in Hl. }
  apply NoDup_cons in Hnd as [Ha Hnd]. simpl.
  destruct (decide (l = a)) as [->|Hne].
  - rewrite foldl_update_at_notin by done. unfold update_at.
    by rewrite fn_lookup_insert.
  - apply elem_of_cons in Hl as [?|Hl]; [done|]. rewrite IH by done.
    unfold update_at. by rewrite fn_lookup_insert_ne.
Qed.

Lemma translate_uv_update ox oy :
  translate_uv ox oy = update_at (λ v, vadd v ox oy).
Proof. done. Qed.

(** The bounding box reads the layer only at the handles of the island. *)
Lemma island_bbox_ext (uv1 uv2 : UVLayer) (island : list loop) :
  (∀ l, l ∈ island → uv1 l = uv2 l) →
  island_bbox uv1 island = island_bbox uv2 island.
Proof.
  unfold island_bbox. generalize bbox_init.
  induction island as [|a island IH]; intros bb H; [done|]. simpl.
  unfold bbox_add at 2 4. rewrite (H a) by left.
  apply IH. intros l Hl. apply H. by right.
Qed.

(** ** The UV-connected relation *)

Lemma fsq_fsub_sym (a b : fnum) : fsq (fsub a b) = fsq (fsub b a).
Proof. destruct a, b; simpl; try done. f_equal. ring. Qed.

Lemma uv_close_sym (a b : Vector) : uv_close a b = uv_close b a.
Proof.
  unfold uv_close. by rewrite (fsq_fsub_sym (vx a)), (fsq_fsub_sym (vy a)).
Qed.

Lemma are_uvs_connected_touch m uv_layer f g :
  are_uvs_connected m f g uv_layer = true ↔ uv_touch m uv_layer f g.
Proof.
  unfold are_uvs_connected, uv_touch. rewrite existsb_exists. split.
  - intros (l1 & H1 & H). apply existsb_exists in H as (l2 & H2 & H).
    exists l1, l2. by rewrite <- !list_elem_of_In in *.
  - intros (l1 & l2 & H1 & H2 & H). exists l1. rewrite <- list_elem_of_In.
    split; [done|]. apply existsb_exists. exists l2.
    by rewrite <- list_elem_of_In.
Qed.

Lemma uv_touch_sym m uv_layer f g :
  uv_touch m uv_layer f g → uv_touch m uv_layer g f.
Proof.
  intros (l1 & l2 & H1 & H2 & H). exists l2, l1. by rewrite uv_close_sym.
Qed.

Lemma mesh_adjacent_sym m f g : mesh_adjacent m f g → mesh_adjacent m g f.
Proof. intros (e & ? & ? & ?). by exists e. Qed.

Lemma uv_connected_sym m uv_layer f g :
  uv_connected m uv_layer f g → uv_connected m uv_layer g f.
Proof.
  intros (? & ? & ? & ?). repeat split; auto using mesh_adjacent_sym, uv_touch_sym.
Qed.

Lemma same_component_sym m uv_layer f g :
  same_component m uv_layer f g → same_component m uv_layer g f.
Proof.
  induction 1 as [|f g h Hfg _ IH]; [apply rtc_refl|].
  eapply rtc_r; [exact IH|]. by apply uv_connected_sym.
Qed.

Lemma face_select_valid m f : face_select m f = true → f ∈ mesh_faces m.
Proof.
  unfold face_select, mesh_faces. intros H. apply elem_of_list_to_set, elem_of_seq.
  destruct (bm_faces m !! f) eqn:E; [|done]. apply lookup_lt_Some in E. lia.
Qed.

Lemma elem_of_face_edges m f g :
  g ∈ mjoin (face_edges m f) ↔ mesh_adjacent m f g.
Proof.
  unfold mesh_adjacent, face_edges. rewrite list_elem_of_join. split.
  - intros (e & Hg & He). apply list_elem_of_filter in He as [Hf He]. eauto.
  - intros (e & He & Hf & Hg). exists e. split; [done|].
    by apply list_elem_of_filter.
Qed.

(** ** One expansion of the traversal *)

Section Expand.
Context (m : BMesh) (uv_layer : UVLayer) (processed_faces : gset face).

Lemma expand_concat f st :
  expand m uv_layer processed_faces f st
  = foldl (visit_linked m uv_layer processed_faces f) st
          (mjoin (face_edges m f)).
Proof.
  unfold expand. generalize (face_edges m f). intros es. revert st.
  induction es as [|e es IH]; intros st; [done|]. simpl.
  by rewrite foldl_app, IH.
Qed.

Lemma visit_linked_cases f I T a :
  let accept := face_select m a = true ∧ (a ∉ I) ∧ (a ∉ processed_faces) ∧
                are_uvs_connected m f a uv_layer = true in
  (accept ∧ visit_linked m uv_layer processed_faces f (I, T) a
            = (I ∪ {[a]}, T ∪ {[a]})) ∨
  (¬ accept ∧ visit_linked m uv_layer processed_faces f (I, T) a = (I, T)).
Proof.
  unfold visit_linked.
  destruct (face_select m a); simpl; [|right; split; [intros (?&?&?&?)|]; done].
  case_bool_decide; simpl; [|right; split; [intros (?&?&?&?)|]; done].
  case_bool_decide; simpl; [|right; split; [intros (?&?&?&?)|]; done].
  destruct (are_uvs_connected m f a uv_layer);
    [left|right; split; [intros (?&?&?&?)|]]; done.
Qed.

Lemma foldl_visit_linked f (linked : list face) I T I' T' :
  foldl (visit_linked m uv_layer processed_faces f) (I, T) linked = (I', T') →
  ∀ g, (g ∈ I' ↔ g ∈ I ∨ (g ∈ linked ∧ face_select m g = true ∧
                           are_uvs_connected m f g uv_layer = true ∧
                           g ∉ processed_faces)) ∧
       (g ∈ T' ↔ g ∈ T ∨ (g ∈ linked ∧ face_select m g = true ∧
                           are_uvs_connected m f g uv_layer = true ∧
                           (g ∉ processed_faces) ∧ g ∉ I)).
Proof.
  revert I T. induction linked as [|a linked IH]; intros I T Hf g.
  { simpl in Hf. injection Hf as <- <-. rewrite !elem_of_nil. tauto. }
  cbn [foldl] in Hf.
  destruct (visit_linked_cases f I T a) as [[Hacc Heq]|[Hacc Heq]];
    rewrite Heq in Hf; destruct (IH _ _ Hf g) as [IH1 IH2];
    rewrite IH1, IH2; clear IH IH1 IH2 Hf Heq; cbv zeta in Hacc;
    rewrite ?elem_of_union, ?elem_of_singleton, !elem_of_cons;
    rewrite ?not_elem_of_union, ?elem_of_singleton;
    destruct (decide (g = a)) as [->|Hne]; destruct (decide (a ∈ I)); tauto.
Qed.

Lemma expand_spec f I T I' T' :
  expand m uv_layer processed_faces f (I, T) = (I', T') →
  ∀ g, (g ∈ I' ↔ g ∈ I ∨ island_step m uv_layer processed_faces f g) ∧
       (g ∈ T' ↔ g ∈ T ∨ (island_step m uv_layer processed_faces f g ∧ g ∉ I)).
Proof.
  rewrite expand_concat. intros H g.
  destruct (foldl_visit_linked _ _ _ _ _ _ H g) as [H1 H2].
  rewrite H1, H2, elem_of_face_edges. unfold island_step. tauto.
Qed.
End Expand.

(** ** The traversal loop *)

Lemma set_pop_Some n (s : gset face) f rest :
  set_pop n s = Some (f, rest) → f ∈ s ∧ rest = s ∖ {[f]}.
Proof.
  unfold set_pop. destruct (elements s !! _) as [x|] eqn:E; [|done].
  intros [= <- <-]. split; [|done].
  apply elem_of_elements. by eapply list_elem_of_lookup_2.
Qed.

Lemma set_pop_None n (s : gset face) : set_pop n s = None → s = ∅.
Proof.
  unfold set_pop. destruct (elements s !! _) as [x|] eqn:E; [done|]. intros _.
  apply lookup_ge_None in E. destruct (elements s) as [|a l] eqn:El.
  - apply leibniz_equiv. by apply elements_empty_iff.
  - pose proof (Nat.mod_upper_bound n (length (a :: l))) as Hb.
    simpl in *. lia.
Qed.

Section Traversal.
Context (pick : Picker) (m : BMesh) (uv_layer : UVLayer).
Context (processed_faces : gset face).

Lemma visit_linked_measure f st a :
  loop_measure m (visit_linked m uv_layer processed_faces f st a)
  ≤ loop_measure m st.
Proof.
  destruct st as [I T].
  destruct (visit_linked_cases m uv_layer processed_faces f I T a)
    as [[(Hsel & HaI & _ & _) ->]|[_ ->]]; [|done].
  unfold loop_measure. simpl. apply face_select_valid in Hsel.
  assert (size (mesh_faces m ∖ (I ∪ {[a]})) < size (mesh_faces m ∖ I)).
  { apply subset_size. split.
    - intros x. rewrite !elem_of_difference, not_elem_of_union. tauto.
    - intros H. specialize (H a).
      rewrite !elem_of_difference, not_elem_of_union, elem_of_singleton in H.
      tauto. }
  assert (size (T ∪ {[a]}) ≤ size T + 1).
  { rewrite size_union_alt.
    assert (size ({[a]} ∖ T : gset nat) ≤ size ({[a]} : gset nat)) as Hle.
    { apply subseteq_size. intros x. rewrite elem_of_difference. tauto. }
    rewrite size_singleton in Hle. lia. }
  lia.
Qed.

Lemma expand_measure f st :
  loop_measure m (expand m uv_layer processed_faces f st) ≤ loop_measure m st.
Proof.
  rewrite expand_concat. generalize (mjoin (face_edges m f)). intros l.
  revert st. induction l as [|a l IH]; intros st; [done|]. simpl.
  etrans; [apply IH|]. apply visit_linked_measure.
Qed.

(** The loop leaves through its condition: with more fuel than the
    measure of the state, it stops with [to_process] empty. *)
Lemma island_loop_done fuel I T :
  loop_measure m (I, T) < fuel →
  (island_loop pick m uv_layer fuel processed_faces I T).2 = ∅.
Proof.
  revert I T. induction fuel as [|fuel IH]; intros I T Hlt; [lia|]. simpl.
  destruct (set_pop (pick I T) T) as [[f rest]|] eqn:Hpop.
  - apply set_pop_Some in Hpop as [HfT ->].
    pose proof (expand_measure f (I, T ∖ {[f]})) as Hm.
    destruct (expand m uv_layer processed_faces f (I, T ∖ {[f]})) as [I' T'].
    apply IH. unfold loop_measure in *. simpl in *.
    assert (size (T ∖ {[f]}) < size T).
    { apply subset_size. split.
      - intros x. rewrite elem_of_difference. tauto.
      - intros H. specialize (H f). rewrite elem_of_difference, elem_of_singleton in H.
        tauto. }
    lia.
  - simpl. by apply set_pop_None in Hpop.
Qed.

Lemma island_loop_inv s fuel I T :
  traversal_inv m uv_layer processed_faces s (I, T) →
  traversal_inv m uv_layer processed_faces s
    (island_loop pick m uv_layer fuel processed_faces I T).
Proof.
  revert I T. induction fuel as [|fuel IH]; intros I T Hinv; [done|]. simpl.
  destruct (set_pop (pick I T) T) as [[f rest]|] eqn:Hpop; [|done].
  apply set_pop_Some in Hpop as [HfT ->].
  destruct (expand m uv_layer processed_faces f (I, T ∖ {[f]}))
    as [I' T'] eqn:Hexp.
  apply IH. pose proof (expand_spec _ _ _ _ _ _ _ _ Hexp) as Hspec.
  destruct Hinv as (Hs & Hsub & Hreach & Hclosed). simpl in *.
  repeat split; simpl.
  - apply Hspec. by left.
  - intros g Hg. apply Hspec in Hg. apply Hspec.
    rewrite elem_of_difference in Hg.
    destruct Hg as [[Hg _]|[Hg _]]; [left; by apply Hsub|by right].
  - intros g Hg. apply Hspec in Hg as [Hg|Hg]; [by apply Hreach|].
    eapply rtc_r; [|exact Hg]. apply Hreach. by apply Hsub.
  - intros h g Hh HhT Hstep. apply Hspec.
    destruct (decide (h = f)) as [->|Hne]; [by right|].
    apply Hspec in Hh. destruct (decide (h ∈ I)) as [HhI|HhI].
    + left. apply (Hclosed h); [done| |done]. intros HT. apply HhT.
      apply Hspec. left. rewrite elem_of_difference, elem_of_singleton. tauto.
    + exfalso. apply HhT. apply Hspec. right. tauto.
Qed.

Lemma mesh_faces_size : size (mesh_faces m) = length (bm_faces m).
Proof.
  unfold mesh_faces. rewrite size_list_to_set by apply NoDup_seq.
  apply length_seq.
Qed.

(** The traversal always ends by exhausting [to_process]. *)
Lemma get_uv_island_terminates s :
  (island_loop pick m uv_layer (island_fuel m) processed_faces {[s]} {[s]}).2
  = ∅.
Proof.
  apply island_loop_done. unfold loop_measure, island_fuel. cbn [fst snd].
  rewrite size_singleton, <- mesh_faces_size.
  assert (size (mesh_faces m ∖ {[s]}) ≤ size (mesh_faces m)).
  { apply subseteq_size. intros x. rewrite elem_of_difference. tauto. }
  lia.
Qed.
(** The island grown from [s] is what the steps of the traversal reach. *)
Lemma get_uv_island_reach s g :
  g ∈ get_uv_island pick m uv_layer processed_faces s
  ↔ rtc (island_step m uv_layer processed_faces) s g.
Proof.
  unfold get_uv_island.
  pose proof (get_uv_island_terminates s) as Hdone.
  pose proof (island_loop_inv s (island_fuel m) {[s]} {[s]}) as Hinv.
  destruct (island_loop pick m uv_layer (island_fuel m) processed_faces
              {[s]} {[s]}) as [I T]. simpl in *.
  subst T.
  destruct Hinv as (Hs & _ & Hreach & Hclosed).
  { repeat split; simpl.
    - by apply elem_of_singleton.
    - done.
    - intros h ->%elem_of_singleton. apply rtc_refl.
    - intros ??. tauto. }
  simpl in *. split; [apply Hreach|].
  revert g. apply rtc_ind_r; [done|]. intros h g _ Hstep IH.
  apply (Hclosed h g); [done|apply not_elem_of_empty|done].
Qed.

End Traversal.

(** ** Finding all islands *)

Section Islands.
Context (pick : Picker) (m : BMesh) (uv_layer : UVLayer).

Lemma island_step_selected P s g :
  face_select m s = true →
  rtc (island_step m uv_layer P) s g →
  face_select m g = true ∧ same_component m uv_layer s g ∧ (g = s ∨ (g ∉ P)).
Proof.
  intros Hs. revert g. apply rtc_ind_r.
  { split; [done|]. split; [apply rtc_refl|by left]. }
  intros h g _ (Hadj & Hsel & Hc & HP) (Hh & Hsh & _).
  split; [done|]. split; [|by right].
  eapply rtc_r; [exact Hsh|]. repeat split; try done.
  by apply are_uvs_connected_touch.
Qed.

(** Started from a selected face outside [processed_faces], which is a
    union of whole components, the traversal yields the component of
    the start face. *)
Lemma get_uv_island_component visited st s :
  find_inv m uv_layer visited st →
  face_select m s = true → s ∉ st.1 →
  ∀ g, g ∈ get_uv_island pick m uv_layer st.1 s
       ↔ same_component m uv_layer s g.
Proof.
  intros (Hunion & Hcomp & _ & _ & _) Hs HsP g.
  rewrite get_uv_island_reach. split.
  { intros H. by apply island_step_selected in H as (_ & H & _). }
  intros H.
  cut ((g ∉ st.1) ∧ rtc (island_step m uv_layer st.1) s g); [tauto|].
  revert g H. apply rtc_ind_r; [split; [done|apply rtc_refl]|].
  intros h g _ Hhg [HhP Hsh].
  assert (g ∉ st.1) as HgP.
  { intros HgP. apply Hunion in HgP as (I & HI & HgI). apply HhP.
    apply Hunion. exists I. split; [done|].
    apply (Hcomp I g HI HgI). apply rtc_once. by apply uv_connected_sym. }
  split; [done|]. eapply rtc_r; [exact Hsh|].
  destruct Hhg as (_ & Hsel & Hadj & Ht). repeat split; try done.
  by apply are_uvs_connected_touch.
Qed.

Lemma find_inv_skip visited st f :
  find_inv m uv_layer visited st →
  (face_select m f = true → f ∈ st.1) →
  find_inv m uv_layer (visited ++ [f]) st.
Proof.
  intros (Hunion & Hcomp & Hdisj & Hseed & Hall) Hf.
  split; [done|]. split; [done|]. split; [done|]. split.
  - intros I HI. destruct (Hseed I HI) as (s & ? & ?). exists s.
    rewrite elem_of_app. tauto.
  - intros g [Hg| ->%list_elem_of_singleton]%elem_of_app Hgs; auto.
Qed.

Lemma find_step_inv visited st f :
  find_inv m uv_layer visited st →
  find_inv m uv_layer (visited ++ [f]) (find_step pick m uv_layer st f).
Proof.
  intros Hinv. unfold find_step. destruct st as [P found].
  destruct (face_select m f) eqn:Hsel; simpl;
    [|apply find_inv_skip; [done|congruence]].
  case_bool_decide as HfP; simpl;
    [|apply find_inv_skip; [done|]; intros _; simpl;
      by destruct (decide (f ∈ P))].
  pose proof (get_uv_island_component visited (P, found) f Hinv Hsel HfP)
    as Hisl.
  destruct Hinv as (Hunion & Hcomp & Hdisj & Hseed & Hall). simpl in *.
  set (island := get_uv_island pick m uv_layer P f) in *.
  assert (∀ g, g ∈ island → face_select m g = true ∧ g ∉ P) as Hnew.
  { intros g Hg. apply get_uv_island_reach in Hg.
    apply island_step_selected in Hg as (? & _ & [->|?]); done. }
  split; [|split; [|split; [|split]]]; simpl.
  - intros g. rewrite elem_of_union. split.
    + intros [Hg|Hg].
      * apply Hunion in Hg as (I & ? & ?). exists I.
        rewrite elem_of_app. tauto.
      * exists island. rewrite elem_of_app, list_elem_of_singleton. tauto.
    + intros (I & HI & Hg).
      apply elem_of_app in HI as [HI| ->%list_elem_of_singleton]; [|tauto].
      left. apply Hunion. eauto.
  - intros I h [HI| ->%list_elem_of_singleton]%elem_of_app Hh;
      [by apply (Hcomp I h)|].
    split; [by apply Hnew|]. intros g. rewrite (Hisl g).
    apply Hisl in Hh. split; intros Hg.
    + etrans; [|exact Hg]. by apply same_component_sym.
    + etrans; [exact Hh|exact Hg].
  - constructor; [done|]. intros J HJ. apply elem_of_disjoint.
    intros g Hg HgJ. apply Hnew in Hg as [_ Hg]. apply Hg.
    apply Hunion. eauto.
  - intros I [HI| ->%list_elem_of_singleton]%elem_of_app.
    + destruct (Hseed I HI) as (s & ? & ?). exists s.
      rewrite elem_of_app. tauto.
    + exists f. rewrite elem_of_app, list_elem_of_singleton.
      split; [tauto|]. apply Hisl, rtc_refl.
  - intros g [Hg| ->%list_elem_of_singleton]%elem_of_app Hgs;
      rewrite elem_of_union; [left; by apply Hall|].
    right. apply Hisl, rtc_refl.
Qed.

Lemma foldl_find_inv order visited st :
  find_inv m uv_layer visited st →
  find_inv m uv_layer (visited ++ order)
    (foldl (find_step pick m uv_layer) st order).
Proof.
  revert visited st. induction order as [|f order IH]; intros visited st H.
  { by rewrite app_nil_r. }
  simpl. rewrite (assoc_L (++) visited [f] order : visited ++ f :: order = _).
  apply IH. by apply find_step_inv.
Qed.

Lemma find_inv_init : find_inv m uv_layer [] (∅, []).
Proof.
  split; [|split; [|split; [|split]]]; simpl.
  - intros g. split; [by intros ?%not_elem_of_empty|].
    by intros (I & ?%elem_of_nil & _).
  - by intros I f ?%elem_of_nil.
  - constructor.
  - by intros I ?%elem_of_nil.
  - by intros f ?%elem_of_nil.
Qed.

Lemma find_islands_in_inv order :
  find_inv m uv_layer order (foldl (find_step pick m uv_layer) (∅, []) order).
Proof. apply (foldl_find_inv order [] _ find_inv_init). Qed.
End Islands.

(** ** The islands of a mesh *)

Lemma disjoint_sets_lookup (found : list (gset face)) i j I J :
  disjoint_sets found → i ≠ j →
  found !! i = Some I → found !! j = Some J → I ## J.
Proof.
  intros Hd. revert i j I J.
  induction Hd as [|found X Hd IH HX]; intros i j I J Hne Hi Hj.
  { by rewrite lookup_nil in Hi. }
  apply lookup_snoc_Some in Hi as [[Hil Hi]|[Hil ->]];
    apply lookup_snoc_Some in Hj as [[Hjl Hj]|[Hjl ->]].
  - by apply (IH i j).
  - symmetry. apply HX. by eapply list_elem_of_lookup_2.
  - apply HX. by eapply list_elem_of_lookup_2.
  - lia.
Qed.

Lemma get_uv_island_pick pick1 pick2 m uv_layer P s :
  get_uv_island pick1 m uv_layer P s = get_uv_island pick2 m uv_layer P s.
Proof. apply set_eq. intros g. by rewrite !get_uv_island_reach. Qed.

Lemma find_islands_in_pick pick1 pick2 m uv_layer order :
  find_islands_in pick1 m uv_layer order = find_islands_in pick2 m uv_layer order.
Proof.
  unfold find_islands_in. f_equal. generalize (∅ : gset face, [] : list (gset face)).
  induction order as [|f order IH]; intros st; [done|]. simpl. rewrite IH.
  f_equal. unfold find_step. destruct st as [P found].
  by rewrite (get_uv_island_pick pick1 pick2).
Qed.

(** The islands found are the components of the selected faces, whatever
    the order of the faces looked at, as long as it has every selected face. *)
Lemma find_islands_in_char pick m uv_layer order I :
  (∀ f, face_select m f = true → f ∈ order) →
  I ∈ find_islands_in pick m uv_layer order ↔
  ∃ s, face_select m s = true ∧ ∀ g, g ∈ I ↔ same_component m uv_layer s g.
Proof.
  intros Hall. unfold find_islands_in.
  pose proof (find_islands_in_inv pick m uv_layer order)
    as (Hunion & Hcomp & _ & Hseed & Hsel).
  split.
  - intros HI. destruct (Hseed I HI) as (s & _ & Hs). exists s.
    by apply Hcomp.
  - intros (s & Hs & HI).
    destruct (proj1 (Hunion s)) as (J & HJ & HsJ). { apply Hsel; auto. }
    assert (I = J) as ->; [|done]. apply set_eq. intros g.
    rewrite HI. symmetry. by apply (Hcomp J s).
Qed.

Lemma face_select_lt m f : face_select m f = true → f < length (bm_faces m).
Proof.
  unfold face_select. destruct (bm_faces m !! f) eqn:E; [|done]. intros _.
  by apply lookup_lt_Some in E.
Qed.

(** Union and component properties of the islands, shared by the results
    below. *)
Lemma islands_are_components_aux (pick : Picker) (m : BMesh) (uv_layer : UVLayer) :
  let islands := find_island_faces pick m uv_layer in
  (∀ f, (∃ I, I ∈ islands ∧ f ∈ I) ↔ face_select m f = true) ∧
  (∀ I f, I ∈ islands → f ∈ I →
          ∀ g, g ∈ I ↔ same_component m uv_layer f g).
Proof.
  intros islands. unfold islands, find_island_faces, find_islands_in.
  pose proof (find_islands_in_inv pick m uv_layer (seq 0 (length (bm_faces m))))
    as (Hunion & Hcomp & Hdisj & Hseed & Hsel).
  split.
  - intros f. rewrite <- Hunion. split.
    + intros Hf. apply Hunion in Hf as (I & HI & Hf). by apply (Hcomp I f).
    + intros Hf. apply Hsel; [|done]. apply elem_of_seq.
      apply face_select_lt in Hf. lia.
  - intros I f HI Hf. by apply (Hcomp I f).
Qed.

Lemma find_island_faces_disjoint (pick : Picker) (m : BMesh) (uv_layer : UVLayer) :
  disjoint_sets (find_island_faces pick m uv_layer).
Proof.
  unfold find_island_faces, find_islands_in.
  by pose proof (find_islands_in_inv pick m uv_layer (seq 0 (length (bm_faces m))))
    as (_ & _ & Hdisj & _).
Qed.

(** C2. The islands found on a mesh are the connected components of the
    UV-connected relation on its selected faces: they are pairwise
    disjoint, their union is the set of selected faces, each island is
    the set of faces linked to any of its members by a chain of
    UV-connected selected faces, and neither the choices of [pop] nor the
    order in which the faces are looked at changes the grouping. *)
Theorem islands_are_components (pick : Picker) (m : BMesh) (uv_layer : UVLayer) :
  let islands := find_island_faces pick m uv_layer in
  (∀ i j I J, i ≠ j → islands !! i = Some I → islands !! j = Some J → I ## J) ∧
  (∀ f, (∃ I, I ∈ islands ∧ f ∈ I) ↔ face_select m f = true) ∧
  (∀ I f, I ∈ islands → f ∈ I →
          ∀ g, g ∈ I ↔ same_component m uv_layer f g) ∧
  (∀ pick', find_island_faces pick' m uv_layer = islands) ∧
  (∀ pick' order, (∀ f, f ∈ order ↔ f < length (bm_faces m)) →
          ∀ I, I ∈ find_islands_in pick' m uv_layer order ↔ I ∈ islands).
Proof.
  intros islands.
  destruct (islands_are_components_aux pick m uv_layer) as (Hunion & Hcomp).
  split; [|split; [|split; [|split]]]; try done.
  - intros i j I J. apply disjoint_sets_lookup, find_island_faces_disjoint.
  - intros pick'. apply (find_islands_in_pick pick' pick).
  - intros pick' order Horder I. unfold islands, find_island_faces.
    rewrite (find_islands_in_char pick' m uv_layer order).
    + symmetry. apply (find_islands_in_char pick m uv_layer).
      intros f Hf. apply elem_of_seq. apply face_select_lt in Hf. lia.
    + intros f Hf. apply Horder. by apply face_select_lt.
Qed.

(** ** Seams *)






(** ** Islands as lists of handles *)

Lemma face_loops_NoDup m f : NoDup (face_loops m f).
Proof.
  unfold face_loops. destruct (bm_faces m !! f); [|constructor].
  apply NoDup_fmap_2; [|apply NoDup_seq]. by intros ?? [= ->].
Qed.

Lemma elem_of_face_loops m f l : l ∈ face_loops m f → l.1 = f.
Proof.
  unfold face_loops. destruct (bm_faces m !! f); [|by intros ?%elem_of_nil].
  by intros (k & -> & _)%list_elem_of_fmap.
Qed.

Lemma elem_of_island_uvs m (I : gset face) l :
  l ∈ island_uvs m I ↔ l.1 ∈ I ∧ l ∈ face_loops m l.1.
Proof.
  unfold island_uvs. rewrite list_elem_of_bind. split.
  - intros (f & Hl & Hf). apply elem_of_elements in Hf.
    pose proof (elem_of_face_loops _ _ _ Hl) as <-. done.
  - intros [HI Hl]. exists l.1. by rewrite elem_of_elements.
Qed.

Lemma island_uvs_NoDup m (I : gset face) : NoDup (island_uvs m I).
Proof.
  unfold island_uvs. apply NoDup_bind.
  - intros f1 f2 l _ _ H1 H2.
    apply elem_of_face_loops in H1, H2. congruence.
  - intros f _. apply face_loops_NoDup.
  - apply NoDup_elements.
Qed.

Lemma find_islands_NoDup pick m uv_layer island :
  island ∈ find_islands pick m uv_layer → NoDup island.
Proof.
  unfold find_islands. intros (I & -> & _)%list_elem_of_fmap.
  apply island_uvs_NoDup.
Qed.

Lemma find_islands_disjoint pick m uv_layer :
  disjoint_islands (find_islands pick m uv_layer).
Proof.
  unfold find_islands. intros i j X Y Hne Hi Hj l HX HY.
  rewrite list_lookup_fmap in Hi, Hj.
  destruct (find_island_faces pick m uv_layer !! i) as [I|] eqn:EI; [|done].
  destruct (find_island_faces pick m uv_layer !! j) as [J|] eqn:EJ; [|done].
  simpl in *. injection Hi as <-. injection Hj as <-.
  apply elem_of_island_uvs in HX as [HX _], HY as [HY _].
  pose proof (disjoint_sets_lookup _ i j I J
                (find_island_faces_disjoint pick m uv_layer) Hne EI EJ) as Hd.
  by apply (proj1 (elem_of_disjoint I J) Hd l.1).
Qed.

(** The handles of an island belong to selected faces. *)
Lemma find_islands_selected pick m uv_layer island l :
  island ∈ find_islands pick m uv_layer → l ∈ island →
  face_select m l.1 = true.
Proof.
  unfold find_islands. intros (I & -> & HI)%list_elem_of_fmap Hl.
  apply elem_of_island_uvs in Hl as [Hl _].
  apply (islands_are_components_aux pick m uv_layer). eauto.
Qed.

(** ** Moving all islands of a mesh *)

Section Moves.
Context (move : UVLayer → list loop → UVLayer) (Hlocal : local_move move).

Lemma foldl_move_other (islands : list (list loop)) (uv_layer : UVLayer) l :
  (∀ I, I ∈ islands → l ∉ I) → foldl move uv_layer islands l = uv_layer l.
Proof.
  revert uv_layer. induction islands as [|a islands IH]; intros uv_layer H; [done|].
  simpl. rewrite IH by (intros I HI; apply H; by right).
  apply Hlocal, H. by left.
Qed.

Lemma disjoint_islands_cons a (islands : list (list loop)) :
  disjoint_islands (a :: islands) →
  disjoint_islands islands ∧
  (∀ J l, J ∈ islands → l ∈ a → l ∉ J) ∧
  (∀ J l, J ∈ islands → l ∈ J → l ∉ a).
Proof.
  intros H. split; [|split].
  - intros i j I J Hne Hi Hj. apply (H (S i) (S j)); auto.
  - intros J l [j Hj]%list_elem_of_lookup_1. by apply (H 0 (S j)).
  - intros J l [j Hj]%list_elem_of_lookup_1. by apply (H (S j) 0).
Qed.

(** After all islands have been moved, the coordinates of one island
    are what its own move made of the layer the operator started from. *)
Lemma foldl_move_island (islands : list (list loop)) (uv_layer : UVLayer) I l :
  disjoint_islands islands → I ∈ islands → l ∈ I →
  foldl move uv_layer islands l = move uv_layer I l.
Proof.
  revert uv_layer. induction islands as [|a islands IH];
    intros uv_layer Hd HI Hl; [by apply elem_of_nil in HI|].
  apply disjoint_islands_cons in Hd as (Hd & Ha & Hrest). simpl.
  apply elem_of_cons in HI as [->|HI].
  - apply foldl_move_other. intros J HJ. by apply (Ha J).
  - rewrite IH by done. apply Hlocal; [|done].
    intros l' Hl'. apply Hlocal. by apply (Hrest I).
Qed.
End Moves.

Lemma foldl_update_at_ext g (island : list loop) (uv1 uv2 : UVLayer) l :
  (∀ l', l' ∈ island → uv1 l' = uv2 l') → uv1 l = uv2 l →
  foldl (update_at g) uv1 island l = foldl (update_at g) uv2 island l.
Proof.
  revert uv1 uv2. induction island as [|a island IH]; intros uv1 uv2 H Hl; [done|].
  simpl. assert (uv1 a = uv2 a) as Ha by (apply H; by left).
  apply IH.
  - intros l' Hl'. unfold update_at. destruct (decide (a = l')) as [->|Hne].
    + by rewrite !fn_lookup_insert, Ha.
    + rewrite !fn_lookup_insert_ne by done. apply H. by right.
  - unfold update_at. destruct (decide (a = l)) as [->|Hne].
    + by rewrite !fn_lookup_insert, Ha.
    + by rewrite !fn_lookup_insert_ne.
Qed.

Lemma snap_island_local tx ty : local_move (snap_island tx ty).
Proof.
  split.
  - intros uv_layer island l Hl. unfold snap_island.
    rewrite translate_uv_update. by apply foldl_update_at_notin.
  - intros uv1 uv2 island H l Hl. unfold snap_island.
    rewrite (island_bbox_ext uv1 uv2 island H), !translate_uv_update.
    apply foldl_update_at_ext; auto.
Qed.

(** ** Snap of one island *)



(** ** The target of the snap *)

Lemma snap_target_cell (columns rows : positive) (cell_index : N) :
  (cell_index < N.pos columns * N.pos rows)%N →
  let row := (cell_index `div` N.pos columns)%N in
  let column := (cell_index `mod` N.pos columns)%N in
  snap_target columns rows cell_index
  = Some ((Qc_of_Z (Z.of_N column) / Qc_of_Z (Z.pos columns)
           + 1 / Qc_of_Z (Z.pos (2 * columns)))%Qc,
          (1 - Qc_of_Z (Z.of_N row) / Qc_of_Z (Z.pos rows)
           - 1 / Qc_of_Z (Z.pos (2 * rows)))%Qc).
Proof.
  intros Hlt row column. unfold snap_target, grid_x, grid_y.
  fold row. fold column.
  assert (N.to_nat column < Pos.to_nat columns) as Hc.
  { pose proof (N.mod_upper_bound cell_index (N.pos columns)) as H.
    unfold column. lia. }
  assert (N.to_nat row < Pos.to_nat rows) as Hr.
  { assert (row < N.pos rows)%N; [|lia]. unfold row.
    apply N.Div0.div_lt_upper_bound. lia. }
  rewrite !list_lookup_fmap, !lookup_seq_lt by done. simpl.
  by rewrite !N_nat_Z.
Qed.

(** ** The step of the offset *)

Lemma inv_pos_Q (n : positive) : inv_pos n = Q2Qc (1 # n).
Proof.
  unfold inv_pos. apply Qc_is_canon. unfold Qcdiv, Qcmult, Qcinv, Qc_of_Z.
  simpl. rewrite !Qred_correct. unfold Qeq. simpl. lia.
Qed.

Lemma inv_pos_gt_0 (n : positive) : Qc_ltb 0 (inv_pos n) = true.
Proof.
  rewrite inv_pos_Q. apply Qc_ltb_lt. unfold Qclt. simpl.
  rewrite Qred_correct. unfold Qlt. simpl. lia.
Qed.

Lemma inv_pos_le_1 (n : positive) :
  Qc_ltb (inv_pos n) 1 = true ∨ inv_pos n = 1%Qc.
Proof.
  destruct (decide (n = 1%positive)) as [->|Hn].
  - right. apply Qc_is_canon. reflexivity.
  - left. rewrite inv_pos_Q. apply Qc_ltb_lt. unfold Qclt. simpl.
    rewrite Qred_correct. unfold Qlt. simpl. lia.
Qed.


(** ** Offset of one island *)

Lemma offset_uv_moved direction cx cy ox oy :
  offset_guard direction cx cy ox oy = true →
  offset_uv direction cx cy ox oy
  = update_at (offset_apply direction cx cy ox oy).
Proof.
  unfold offset_guard, offset_uv, update_at, offset_apply.
  destruct (String.eqb direction "up" && flt (fadd cy oy) (Fin 1)); [done|].
  destruct (String.eqb direction "down" && fgt (fsub cy oy) (Fin 0)); [done|].
  destruct (String.eqb direction "right" && flt (fadd cx ox) (Fin 1)); [done|].
  by destruct (String.eqb direction "left" && fgt (fsub cx ox) (Fin 0)).
Qed.

Lemma offset_uv_unmoved direction cx cy ox oy :
  offset_guard direction cx cy ox oy = false →
  offset_uv direction cx cy ox oy = (λ uv_layer _, uv_layer) ∧
  ∀ v, offset_apply direction cx cy ox oy v = v.
Proof.
  unfold offset_guard, offset_uv, offset_apply.
  destruct (String.eqb direction "up" && flt (fadd cy oy) (Fin 1)); [done|].
  destruct (String.eqb direction "down" && fgt (fsub cy oy) (Fin 0)); [done|].
  destruct (String.eqb direction "right" && flt (fadd cx ox) (Fin 1)); [done|].
  by destruct (String.eqb direction "left" && fgt (fsub cx ox) (Fin 0)).
Qed.

Lemma foldl_const {A B} (a : A) (l : list B) : foldl (λ a _, a) a l = a.
Proof. by induction l. Qed.

(** An island whose guard fails is handed back as it was. *)
Lemma offset_island_unmoved direction columns rows (uv_layer : UVLayer) island :
  let bb := island_bbox uv_layer island in
  offset_guard direction (center_x bb) (center_y bb)
    (clamped_step columns) (clamped_step rows) = false →
  offset_island direction columns rows uv_layer island = uv_layer.
Proof.
  intros bb Hg. unfold offset_island. fold bb.
  rewrite (proj1 (offset_uv_unmoved _ _ _ _ _ Hg)). apply foldl_const.
Qed.


Lemma offset_island_local direction columns rows :
  local_move (offset_island direction columns rows).
Proof.
  split.
  - intros uv_layer island l Hl.
    destruct (offset_guard direction
                (center_x (island_bbox uv_layer island))
                (center_y (island_bbox uv_layer island))
                (clamped_step columns) (clamped_step rows)) eqn:Hg.
    + unfold offset_island. rewrite (offset_uv_moved _ _ _ _ _ Hg).
      by apply foldl_update_at_notin.
    + by rewrite offset_island_unmoved.
  - intros uv1 uv2 island H l Hl.
    destruct (offset_guard direction
                (center_x (island_bbox uv1 island))
                (center_y (island_bbox uv1 island))
                (clamped_step columns) (clamped_step rows)) eqn:Hg.
    + unfold offset_island. rewrite <- (island_bbox_ext uv1 uv2 island H).
      rewrite (offset_uv_moved _ _ _ _ _ Hg).
      apply foldl_update_at_ext; auto.
    + rewrite offset_island_unmoved by done.
      rewrite offset_island_unmoved; [by apply H|].
      by rewrite <- (island_bbox_ext uv1 uv2 island H).
Qed.

(** ** The operators on the islands of a mesh *)


(** ** The operators on the example quads *)

Lemma quad_island_found (uv_layer : UVLayer) :
  find_islands pick_first (quad_mesh uv_layer) uv_layer = [quad_island] →
  quad_island ∈ find_islands pick_first (quad_mesh uv_layer) uv_layer.
Proof. intros ->. by apply list_elem_of_singleton. Qed.

Lemma quad_uv_finite x0 x1 y0 y1 island : finite_uvs (quad_uv x0 x1 y0 y1) island.
Proof. intros [f [|[|[|k]]]] _; reflexivity. Qed.



(** ** The loop over the selected objects *)

Section Selection.
Context (pick : Picker) (prefs : Preferences).
Context (move : UVLayer → list loop → UVLayer).

(** When no selected mesh lacks the channel, every object is processed
    and the call returns FINISHED. *)
Lemma for_selected_objects_all reports (objs : list Object) :
  Forall (has_channel prefs) objs →
  for_selected_objects pick prefs move reports objs
  = (Returned FINISHED, reports ++ (objs ≫= object_reports pick prefs),
     process_object pick prefs move <$> objs).
Proof.
  intros H. revert reports. induction H as [|obj objs Hobj _ IH]; intros reports.
  { simpl. by rewrite app_nil_r. }
  destruct obj as [mesh|]; simpl.
  - destruct Hobj as [uv_layer Huv]. simpl. rewrite Huv, IH.
    destruct (find_islands pick mesh uv_layer); simpl;
      by rewrite <- ?(assoc_L (++)).
  - by rewrite IH.
Qed.

(** At the first selected mesh without the channel the call reports the
    error and returns CANCELLED: the objects before it have been
    processed, this mesh and the objects after it are as they were. *)
Lemma for_selected_objects_missing reports (before after : list Object) mesh :
  Forall (has_channel prefs) before →
  uv_layers mesh !! uv_channel prefs = None →
  for_selected_objects pick prefs move reports
    (before ++ MeshObject mesh :: after)
  = (Returned CANCELLED,
     reports ++ (before ≫= object_reports pick prefs)
             ++ [channel_not_found (uv_channel prefs)],
     (process_object pick prefs move <$> before) ++ MeshObject mesh :: after).
Proof.
  intros H Hnone. revert reports.
  induction H as [|obj objs Hobj _ IH]; intros reports.
  { simpl. by rewrite Hnone. }
  destruct obj as [m|]; simpl.
  - destruct Hobj as [uv_layer Huv]. simpl. rewrite Huv, IH.
    destruct (find_islands pick m uv_layer); simpl;
      by rewrite <- ?(assoc_L (++)).
  - by rewrite IH.
Qed.

(** A selection splits at its first mesh without the channel, if any. *)
Lemma selection_split (objs : list Object) :
  Forall (has_channel prefs) objs ∨
  ∃ before mesh after,
    objs = before ++ MeshObject mesh :: after ∧
    Forall (has_channel prefs) before ∧
    uv_layers mesh !! uv_channel prefs = None.
Proof.
  induction objs as [|obj objs IH]; [by left|].
  assert (has_channel prefs obj ∨
          ∃ mesh, obj = MeshObject mesh ∧
                  uv_layers mesh !! uv_channel prefs = None) as [Hobj|Hobj].
  { destruct obj as [mesh|]; [|by left]. simpl.
    destruct (uv_layers mesh !! uv_channel prefs) eqn:E; [left|right]; eauto. }
  - destruct IH as [IH|(before & mesh & after & -> & Hb & Hn)].
    + left. by constructor.
    + right. exists (obj :: before), mesh, after. split; [done|].
      split; [by constructor|done].
  - destruct Hobj as (mesh & -> & Hn). right. exists [], mesh, objs.
    split; [done|]. split; [constructor|done].
Qed.
End Selection.

(** The snap operator raises no exception. *)
Lemma snap_execute_returns pick prefs cell_index objs :
  ∃ status, (snap_execute pick prefs cell_index objs).1.1 = Returned status.
Proof.
  unfold snap_execute. case_match eqn:Hcell; [by eexists|].
  rewrite snap_target_cell by (by apply N.leb_gt).
  destruct (selection_split prefs objs)
    as [Hall|(before & mesh & after & -> & Hb & Hn)].
  - rewrite for_selected_objects_all by done. by eexists.
  - rewrite for_selected_objects_missing by done. by eexists.
Qed.

(** What the operators return when no selected mesh lacks the channel:
    every mesh comes back with the layer that moving its islands one
    after the other gives. *)
Lemma snap_execute_finished pick prefs cell_index (objs : list Object) :
  (cell_index < N.pos (grid_columns prefs) * N.pos (grid_rows prefs))%N →
  Forall (has_channel prefs) objs →
  ∃ target_x target_y,
    snap_target (grid_columns prefs) (grid_rows prefs) cell_index
    = Some (target_x, target_y) ∧
    snap_execute pick prefs cell_index objs
    = (Returned FINISHED, objs ≫= object_reports pick prefs,
       process_object pick prefs (snap_island target_x target_y) <$> objs).
Proof.
  intros Hcell Hall. eexists _, _. split; [by apply snap_target_cell|].
  unfold snap_execute. apply N.leb_gt in Hcell as Hleb. rewrite Hleb.
  rewrite snap_target_cell by done. by rewrite for_selected_objects_all.
Qed.

Lemma offset_execute_finished pick prefs direction (objs : list Object) :
  Forall (has_channel prefs) objs →
  offset_execute pick prefs direction objs
  = (Returned FINISHED, objs ≫= object_reports pick prefs,
     process_object pick prefs
       (offset_island direction (grid_columns prefs) (grid_rows prefs))
     <$> objs).
Proof.
  intros Hall. unfold offset_execute. by rewrite for_selected_objects_all.
Qed.

(** ** The operators on a selection *)

(** C3 (amended).  When the configured UV channel is absent on a selected
    mesh, either operator reports the channel-not-found error and returns
    CANCELLED at once: the objects before that mesh in the selection have
    been processed and keep their new coordinates, the mesh itself and
    every object after it are not touched. *)
Theorem missing_channel_cancels_call (pick : Picker) (prefs : Preferences)
    (before after : list Object) (mesh : BMesh) (cell_index : N)
    (direction : string) :
  Forall (has_channel prefs) before →
  uv_layers mesh !! uv_channel prefs = None →
  (cell_index < N.pos (grid_columns prefs) * N.pos (grid_rows prefs))%N →
  let objs := before ++ MeshObject mesh :: after in
  let reports := (before ≫= object_reports pick prefs)
                 ++ [channel_not_found (uv_channel prefs)] in
  (∃ target_x target_y,
     snap_target (grid_columns prefs) (grid_rows prefs) cell_index
     = Some (target_x, target_y) ∧
     snap_execute pick prefs cell_index objs
     = (Returned CANCELLED, reports,
        (process_object pick prefs (snap_island target_x target_y) <$> before)
        ++ MeshObject mesh :: after)) ∧
  offset_execute pick prefs direction objs
  = (Returned CANCELLED, reports,
     (process_object pick prefs
        (offset_island direction (grid_columns prefs) (grid_rows prefs))
      <$> before)
     ++ MeshObject mesh :: after).
Proof.
  intros Hb Hn Hcell objs reports. unfold objs, reports. split.
  - eexists _, _. split; [by apply snap_target_cell|].
    unfold snap_execute. apply N.leb_gt in Hcell as Hleb. rewrite Hleb.
    rewrite snap_target_cell by done.
    by rewrite for_selected_objects_missing.
  - unfold offset_execute. by rewrite for_selected_objects_missing.
Qed.

Lemma missing_channel_cancels_call_witness :
  Forall (has_channel default_prefs) [MeshObject (quad_mesh corner_uv)] ∧
  uv_layers other_channel_mesh !! uv_channel default_prefs = None ∧
  (5 < N.pos (grid_columns default_prefs) * N.pos (grid_rows default_prefs))%N ∧
  offset_execute pick_first default_prefs "right"
    ([MeshObject (quad_mesh corner_uv)]
     ++ MeshObject other_channel_mesh :: [MeshObject (quad_mesh top_uv)])
  = (Returned CANCELLED,
     ([MeshObject (quad_mesh corner_uv)] ≫= object_reports pick_first default_prefs)
     ++ [channel_not_found (uv_channel default_prefs)],
     (process_object pick_first default_prefs
        (offset_island "right" (grid_columns default_prefs)
           (grid_rows default_prefs))
      <$> [MeshObject (quad_mesh corner_uv)])
     ++ MeshObject other_channel_mesh :: [MeshObject (quad_mesh top_uv)]).
Proof.
  assert (Forall (has_channel default_prefs) [MeshObject (quad_mesh corner_uv)])
    as Hb by (repeat constructor; by eexists).
  split; [exact Hb|]. split; [reflexivity|]. split; [reflexivity|].
  exact (proj2 (missing_channel_cancels_call pick_first default_prefs
                  [MeshObject (quad_mesh corner_uv)]
                  [MeshObject (quad_mesh top_uv)] other_channel_mesh 5 "right"
                  Hb eq_refl eq_refl)).
Defined.

(** A mesh with channel "ch3" that comes after a mesh without it is not
    processed: its coordinates stay, although the same call on this mesh
    alone moves them. *)
Lemma missing_channel_leaves_later_mesh :
  let objs := [MeshObject other_channel_mesh; MeshObject (quad_mesh corner_uv)] in
  let res := snap_execute pick_first default_prefs 5 objs in
  res.1.1 = Returned CANCELLED ∧
  res.2 !! 1 = Some (MeshObject (quad_mesh corner_uv)) ∧
  ∃ obj',
    (snap_execute pick_first default_prefs 5
       [MeshObject (quad_mesh corner_uv)]).2 = [obj'] ∧
    object_uv obj' "ch3" (0, 0)
    ≠ object_uv (MeshObject (quad_mesh corner_uv)) "ch3" (0, 0).
Proof.
  intros objs res. split; [vm_compute; reflexivity|].
  split; [vm_compute; reflexivity|].
  eexists. split; [vm_compute; reflexivity|]. vm_decide.
Qed.

(** C5. With a cell index of at least [columns * rows] the snap operator
    reports the out-of-bounds error, returns CANCELLED and hands back
    every object of the selection as it was: nothing has been written. *)
Theorem cell_index_out_of_bounds_cancels (pick : Picker) (prefs : Preferences)
    (cell_index : N) (objs : list Object) :
  (N.pos (grid_columns prefs) * N.pos (grid_rows prefs) ≤ cell_index)%N →
  snap_execute pick prefs cell_index objs
  = (Returned CANCELLED, [cell_out_of_bounds], objs).
Proof.
  intros Hle. unfold snap_execute. apply N.leb_le in Hle. by rewrite Hle.
Qed.

Lemma cell_index_out_of_bounds_cancels_witness :
  (N.pos (grid_columns default_prefs) * N.pos (grid_rows default_prefs) ≤ 8)%N ∧
  snap_execute pick_first default_prefs 8 [MeshObject (quad_mesh corner_uv)]
  = (Returned CANCELLED, [cell_out_of_bounds], [MeshObject (quad_mesh corner_uv)]).
Proof.
  split; [vm_decide|].
  apply (cell_index_out_of_bounds_cancels pick_first default_prefs 8).
  vm_decide.
Defined.

(** ** What the operators leave alone *)

Lemma object_frame_refl prefs obj : object_frame prefs obj obj.
Proof. split; [by destruct obj|done]. Qed.

Lemma process_mesh_frame pick prefs move mesh (uv_layer : UVLayer) :
  local_move move →
  uv_layers mesh !! uv_channel prefs = Some uv_layer →
  object_frame prefs (MeshObject mesh)
    (MeshObject
       (mkMesh (bm_faces mesh) (bm_edges mesh)
          (<[uv_channel prefs :=
               foldl move uv_layer (find_islands pick mesh uv_layer)]>
             (uv_layers mesh)))).
Proof.
  intros Hlocal Huv. split; simpl.
  - split; [done|]. split; [done|]. rewrite dom_insert_L.
    assert (uv_channel prefs ∈ dom (uv_layers mesh))
      by (apply elem_of_dom; eauto).
    apply set_eq. intros x. rewrite elem_of_union, elem_of_singleton.
    split; [by intros [->|?]|tauto].
  - intros name f k [Hname|Hsel].
    + by rewrite lookup_insert_ne.
    + destruct (decide (name = uv_channel prefs)) as [->|Hname];
        [|by rewrite lookup_insert_ne].
      rewrite lookup_insert_eq, Huv. simpl. f_equal.
      apply foldl_move_other; [done|]. intros I HI Hl.
      pose proof (find_islands_selected _ _ _ _ _ HI Hl) as Hs. simpl in Hs.
      congruence.
Qed.

Lemma for_selected_objects_frame pick prefs move reports (objs : list Object) :
  local_move move →
  Forall2 (object_frame prefs) objs
    (for_selected_objects pick prefs move reports objs).2.
Proof.
  intros Hlocal. revert reports.
  induction objs as [|obj objs IH]; intros reports; [constructor|].
  destruct obj as [mesh|]; simpl.
  - destruct (uv_layers mesh !! uv_channel prefs) as [uv_layer|] eqn:Huv.
    + match goal with
      | |- context [for_selected_objects pick prefs move ?r objs] =>
          specialize (IH r);
          destruct (for_selected_objects pick prefs move r objs) as [[? ?] ?]
      end.
      simpl in *. constructor; [|done]. by apply process_mesh_frame.
    + simpl. apply Forall2_same_length_lookup_2; [done|].
      intros i x y Hx Hy. assert (x = y) as -> by congruence.
      apply object_frame_refl.
  - specialize (IH reports).
    destruct (for_selected_objects pick prefs move reports objs) as [[? ?] ?].
    simpl in *. constructor; [apply object_frame_refl|done].
Qed.

Lemma Forall2_object_frame_refl prefs (objs : list Object) :
  Forall2 (object_frame prefs) objs objs.
Proof. induction objs; constructor; auto using object_frame_refl. Qed.

(** From the first selected mesh without the channel on, the objects are
    handed back as they are. *)
Lemma for_selected_objects_unprocessed pick prefs move reports
    (objs : list Object) i j obj objj :
  j ≤ i → objs !! j = Some objj → ¬ has_channel prefs objj →
  objs !! i = Some obj →
  (for_selected_objects pick prefs move reports objs).2 !! i = Some obj.
Proof.
  intros Hji Hj Hno Hi.
  destruct (selection_split prefs objs)
    as [Hall|(before & mesh & after & -> & Hb & Hn)].
  { exfalso. apply Hno. by eapply Forall_lookup_1. }
  rewrite for_selected_objects_missing by done. simpl.
  assert (length before ≤ j) as Hlen.
  { destruct (decide (length before ≤ j)) as [|Hlt]; [done|]. exfalso.
    apply Hno. eapply Forall_lookup_1; [exact Hb|].
    rewrite lookup_app_l in Hj by lia. exact Hj. }
  rewrite lookup_app_r in Hi by lia.
  rewrite lookup_app_r by (rewrite length_fmap; lia).
  by rewrite length_fmap.
Qed.

(** C9. Either operator hands back the selection object by object, with
    the faces, edges and channels of every mesh as they were; the
    coordinate of a loop differs from before only in the configured
    channel and only for loops of selected faces.  Objects that are no
    mesh carry no coordinates and are handed back as they are, and so is
    every object that the operator does not get to: a mesh without the
    configured channel and whatever comes after it in the selection.
    (The detection of islands is a function of the mesh and the layer
    that returns handles: it has no way to write.) *)
Theorem operators_write_selected_uvs_only (pick : Picker) (prefs : Preferences)
    (cell_index : N) (direction : string) (objs objs' : list Object) :
  objs' = (snap_execute pick prefs cell_index objs).2 ∨
  objs' = (offset_execute pick prefs direction objs).2 →
  length objs' = length objs ∧
  (∀ i obj, objs !! i = Some obj →
     ∃ obj', objs' !! i = Some obj' ∧ same_topology obj obj' ∧
       ∀ name f k,
         name ≠ uv_channel prefs ∨ object_face_select obj f = false →
         object_uv obj' name (f, k) = object_uv obj name (f, k)) ∧
  (∀ i, objs !! i = Some OtherObject → objs' !! i = Some OtherObject) ∧
  (∀ i j obj objj,
     j ≤ i → objs !! j = Some objj → ¬ has_channel prefs objj →
     objs !! i = Some obj → objs' !! i = Some obj).
Proof.
  intros Hobjs'. assert (Forall2 (object_frame prefs) objs objs') as HF.
  { destruct Hobjs' as [->| ->].
    - unfold snap_execute.
      destruct (_ <=? _)%N; [apply Forall2_object_frame_refl|].
      destruct (snap_target _ _ _) as [[tx ty]|];
        [|apply Forall2_object_frame_refl].
      apply for_selected_objects_frame, snap_island_local.
    - apply for_selected_objects_frame, offset_island_local. }
  split; [symmetry; by eapply Forall2_length|]. split; [|split].
  - intros i obj Hi.
    destruct (Forall2_lookup_l _ _ _ _ _ HF Hi) as (obj' & Hi' & Hsame & Huv).
    eauto.
  - intros i Hi.
    destruct (Forall2_lookup_l _ _ _ _ _ HF Hi) as (obj' & Hi' & Hsame & _).
    by destruct obj'.
  - intros i j obj objj Hji Hj Hno Hi. destruct Hobjs' as [->| ->].
    + unfold snap_execute. destruct (_ <=? _)%N; [done|].
      destruct (snap_target _ _ _) as [[tx ty]|]; [|done].
      by eapply for_selected_objects_unprocessed.
    + by eapply for_selected_objects_unprocessed.
Qed.

Lemma operators_write_selected_uvs_only_witness :
  let objs := [OtherObject; MeshObject (quad_mesh corner_uv)] in
  let objs' := (snap_execute pick_first default_prefs 5 objs).2 in
  length objs' = length objs ∧
  ∀ i obj, objs !! i = Some obj →
    ∃ obj', objs' !! i = Some obj' ∧ same_topology obj obj' ∧
      ∀ name f k,
        name ≠ uv_channel default_prefs ∨ object_face_select obj f = false →
        object_uv obj' name (f, k) = object_uv obj name (f, k).
Proof.
  intros objs objs'.
  destruct (operators_write_selected_uvs_only pick_first default_prefs 5 "up"
              objs objs') as (Hlen & Hframe & _).
  { left. reflexivity. }
  split; [exact Hlen|exact Hframe].
Defined.

(** ** A direction that is none of the four *)

Lemma offset_island_other_direction direction columns rows
    (uv_layer : UVLayer) island :
  direction ≠ "up"%string → direction ≠ "down"%string →
  direction ≠ "left"%string → direction ≠ "right"%string →
  offset_island direction columns rows uv_layer island = uv_layer.
Proof.
  intros Hu Hd Hl Hr. apply offset_island_unmoved. unfold offset_guard.
  apply String.eqb_neq in Hu, Hd, Hl, Hr. by rewrite Hu, Hd, Hl, Hr.
Qed.

Lemma process_object_id pick prefs move obj :
  (∀ uv_layer island, move uv_layer island = uv_layer) →
  process_object pick prefs move obj = obj.
Proof.
  intros Hmove. destruct obj as [mesh|]; [|done]. simpl.
  destruct (uv_layers mesh !! uv_channel prefs) as [uv_layer|] eqn:Huv; [|done].
  assert (foldl move uv_layer (find_islands pick mesh uv_layer) = uv_layer) as ->.
  { induction (find_islands pick mesh uv_layer) as [|a l IH]; [done|].
    simpl. by rewrite Hmove. }
  unfold store_layer. rewrite insert_id by done. by destruct mesh.
Qed.

Lemma object_reports_no_error pick prefs (objs : list Object) :
  Forall (λ r, is_error r = false) (objs ≫= object_reports pick prefs).
Proof.
  apply Forall_forall. intros r (obj & Hr & _)%list_elem_of_bind.
  destruct obj as [mesh|]; simpl in Hr; [|by apply elem_of_nil in Hr].
  destruct (uv_layers mesh !! _); [|by apply elem_of_nil in Hr].
  destruct (find_islands _ _ _); [|by apply elem_of_nil in Hr].
  by apply list_elem_of_singleton in Hr as ->.
Qed.

(** C10 (amended).  With a direction that is none of "up", "down", "left"
    and "right" the offset operator hands back every object as it was: no
    coordinate changes.  When every selected mesh has the configured UV
    channel it returns FINISHED and reports no error; a mesh without the
    channel still gets the channel-not-found error and CANCELLED. *)
Theorem unknown_direction_moves_nothing (pick : Picker) (prefs : Preferences)
    (direction : string) (objs : list Object) :
  direction ≠ "up"%string → direction ≠ "down"%string →
  direction ≠ "left"%string → direction ≠ "right"%string →
  let res := offset_execute pick prefs direction objs in
  res.2 = objs ∧
  (Forall (has_channel prefs) objs →
   res.1.1 = Returned FINISHED ∧ Forall (λ r, is_error r = false) res.1.2) ∧
  (¬ Forall (has_channel prefs) objs →
   res.1.1 = Returned CANCELLED ∧
   channel_not_found (uv_channel prefs) ∈ res.1.2).
Proof.
  intros Hu Hd Hl Hr res. unfold res, offset_execute.
  set (move := offset_island direction (grid_columns prefs) (grid_rows prefs)).
  assert (∀ uv_layer island, move uv_layer island = uv_layer) as Hmove
    by (intros; by apply offset_island_other_direction).
  assert (∀ l : list Object, process_object pick prefs move <$> l = l) as Hid.
  { intros l. induction l as [|a l IH]; [done|].
    by rewrite fmap_cons, IH, process_object_id. }
  destruct (selection_split prefs objs)
    as [Hall|(before & mesh & after & -> & Hb & Hn)].
  - rewrite for_selected_objects_all by done. simpl. rewrite Hid.
    split; [done|]. split; [|done]. intros _. split; [done|].
    apply object_reports_no_error.
  - rewrite for_selected_objects_missing by done. simpl. rewrite Hid.
    split; [done|]. split.
    + intros Hall. apply Forall_app in Hall as [_ Hall].
      apply Forall_cons in Hall as [[? Hsome] _]. simpl in Hsome. congruence.
    + intros _. split; [done|]. rewrite elem_of_app, list_elem_of_singleton.
      tauto.
Qed.

Lemma unknown_direction_moves_nothing_witness :
  let objs := [MeshObject (quad_mesh corner_uv); OtherObject] in
  let res := offset_execute pick_first default_prefs "diagonal" objs in
  res.2 = objs ∧ res.1.1 = Returned FINISHED ∧
  Forall (λ r, is_error r = false) res.1.2.
Proof.
  intros objs res.
  destruct (unknown_direction_moves_nothing pick_first default_prefs
              "diagonal" objs) as (Hobjs & Hall & _); try discriminate.
  split; [exact Hobjs|]. apply Hall.
  repeat constructor. by eexists.
Defined.

(** With the direction "diagonal" and a selected mesh that has no channel
    "ch3" the offset operator reports an error and returns CANCELLED. *)
Lemma unknown_direction_missing_channel_error :
  let res := offset_execute pick_first default_prefs "diagonal"
               [MeshObject other_channel_mesh] in
  res.1.1 = Returned CANCELLED ∧
  res.1.2 = [(ERROR, "UV channel 'ch3' not found"%string)].
Proof. split; vm_compute; reflexivity. Qed.

(** ** Extremes of a bounding box *)

Section Extremes.
Context {A : Type} (g : A → fnum).

Lemma foldl_py_min_fin (L : list A) (a : Qc) :
  (∀ l, l ∈ L → is_fin (g l) = true) →
  ∃ mn, foldl (λ acc l, py_min acc (g l)) (Fin a) L = Fin mn ∧
        (mn = a ∨ ∃ l, l ∈ L ∧ g l = Fin mn) ∧ (mn ≤ a)%Qc ∧
        ∀ l x, l ∈ L → g l = Fin x → (mn ≤ x)%Qc.
Proof.
  revert a. induction L as [|l0 L IH]; intros a Hfin.
  { exists a. split; [done|]. split; [by left|]. split; [apply Qcle_refl|].
    by intros l x ?%elem_of_nil. }
  destruct (g l0) as [| |x0|] eqn:Hg0;
    try (specialize (Hfin l0 ltac:(left)); by rewrite Hg0 in Hfin).
  assert (∃ a', py_min (Fin a) (Fin x0) = Fin a' ∧ (a' = a ∨ a' = x0) ∧
                (a' ≤ a)%Qc ∧ (a' ≤ x0)%Qc) as (a' & Ha' & Hor & Hle1 & Hle2).
  { unfold py_min. cbn [flt]. destruct (Qc_ltb x0 a) eqn:Hlt.
    - apply Qc_ltb_lt in Hlt. exists x0. split; [done|]. split; [by right|].
      split; [by apply Qclt_le_weak|apply Qcle_refl].
    - exists a. split; [done|]. split; [by left|]. split; [apply Qcle_refl|].
      apply Qcnot_lt_le. intros Hlt'. apply Qc_ltb_lt in Hlt'. congruence. }
  destruct (IH a') as (mn & Hmn & Hatt & Hle & Hlow).
  { intros l Hl. apply Hfin. by right. }
  exists mn. simpl. rewrite Hg0, Ha'. split; [done|]. split; [|split].
  - destruct Hatt as [->|(l & Hl & Hgl)].
    + destruct Hor as [->| ->]; [by left|]. right. exists l0. split; [by left|done].
    + right. exists l. split; [by right|done].
  - by eapply Qcle_trans.
  - intros l x [->|Hl]%elem_of_cons Hgl.
    + rewrite Hg0 in Hgl. injection Hgl as <-. by eapply Qcle_trans.
    + by eapply Hlow.
Qed.

Lemma foldl_py_max_fin (L : list A) (a : Qc) :
  (∀ l, l ∈ L → is_fin (g l) = true) →
  ∃ mx, foldl (λ acc l, py_max acc (g l)) (Fin a) L = Fin mx ∧
        (mx = a ∨ ∃ l, l ∈ L ∧ g l = Fin mx) ∧ (a ≤ mx)%Qc ∧
        ∀ l x, l ∈ L → g l = Fin x → (x ≤ mx)%Qc.
Proof.
  revert a. induction L as [|l0 L IH]; intros a Hfin.
  { exists a. split; [done|]. split; [by left|]. split; [apply Qcle_refl|].
    by intros l x ?%elem_of_nil. }
  destruct (g l0) as [| |x0|] eqn:Hg0;
    try (specialize (Hfin l0 ltac:(left)); by rewrite Hg0 in Hfin).
  assert (∃ a', py_max (Fin a) (Fin x0) = Fin a' ∧ (a' = a ∨ a' = x0) ∧
                (a ≤ a')%Qc ∧ (x0 ≤ a')%Qc) as (a' & Ha' & Hor & Hle1 & Hle2).
  { unfold py_max, fgt. cbn [flt]. destruct (Qc_ltb a x0) eqn:Hlt.
    - apply Qc_ltb_lt in Hlt. exists x0. split; [done|]. split; [by right|].
      split; [by apply Qclt_le_weak|apply Qcle_refl].
    - exists a. split; [done|]. split; [by left|]. split; [apply Qcle_refl|].
      apply Qcnot_lt_le. intros Hlt'. apply Qc_ltb_lt in Hlt'. congruence. }
  destruct (IH a') as (mx & Hmx & Hatt & Hle & Hup).
  { intros l Hl. apply Hfin. by right. }
  exists mx. simpl. rewrite Hg0, Ha'. split; [done|]. split; [|split].
  - destruct Hatt as [->|(l & Hl & Hgl)].
    + destruct Hor as [->| ->]; [by left|]. right. exists l0. split; [by left|done].
    + right. exists l. split; [by right|done].
  - by eapply Qcle_trans.
  - intros l x [->|Hl]%elem_of_cons Hgl.
    + rewrite Hg0 in Hgl. injection Hgl as <-. by eapply Qcle_trans.
    + by eapply Hup.
Qed.

(** The smallest value of a list with at least one element, all finite. *)
Lemma foldl_py_min_spec (L : list A) :
  L ≠ [] → (∀ l, l ∈ L → is_fin (g l) = true) →
  ∃ mn, foldl (λ acc l, py_min acc (g l)) PInf L = Fin mn ∧
        (∃ l, l ∈ L ∧ g l = Fin mn) ∧
        ∀ l x, l ∈ L → g l = Fin x → (mn ≤ x)%Qc.
Proof.
  destruct L as [|l0 L]; [done|]. intros _ Hfin.
  destruct (g l0) as [| |x0|] eqn:Hg0;
    try (specialize (Hfin l0 ltac:(left)); by rewrite Hg0 in Hfin).
  destruct (foldl_py_min_fin L x0) as (mn & Hmn & Hatt & Hle & Hlow).
  { intros l Hl. apply Hfin. by right. }
  exists mn. simpl. rewrite Hg0. split; [done|]. split.
  - destruct Hatt as [->|(l & Hl & Hgl)].
    + exists l0. split; [by left|done].
    + exists l. split; [by right|done].
  - intros l x [->|Hl]%elem_of_cons Hgl.
    + rewrite Hg0 in Hgl. by injection Hgl as <-.
    + by eapply Hlow.
Qed.

Lemma foldl_py_max_spec (L : list A) :
  L ≠ [] → (∀ l, l ∈ L → is_fin (g l) = true) →
  ∃ mx, foldl (λ acc l, py_max acc (g l)) NInf L = Fin mx ∧
        (∃ l, l ∈ L ∧ g l = Fin mx) ∧
        ∀ l x, l ∈ L → g l = Fin x → (x ≤ mx)%Qc.
Proof.
  destruct L as [|l0 L]; [done|]. intros _ Hfin.
  destruct (g l0) as [| |x0|] eqn:Hg0;
    try (specialize (Hfin l0 ltac:(left)); by rewrite Hg0 in Hfin).
  destruct (foldl_py_max_fin L x0) as (mx & Hmx & Hatt & Hle & Hup).
  { intros l Hl. apply Hfin. by right. }
  exists mx. simpl. rewrite Hg0. split; [done|]. split.
  - destruct Hatt as [->|(l & Hl & Hgl)].
    + exists l0. split; [by left|done].
    + exists l. split; [by right|done].
  - intros l x [->|Hl]%elem_of_cons Hgl.
    + rewrite Hg0 in Hgl. by injection Hgl as <-.
    + by eapply Hup.
Qed.

End Extremes.

Lemma bbox_min0_foldl (uv_layer : UVLayer) (L : list loop) bb :
  bbox_min0 (foldl (bbox_add uv_layer) bb L)
  = foldl (λ acc l, py_min acc (vx (uv_layer l))) (bbox_min0 bb) L.
Proof. revert bb. induction L as [|l L IH]; intros bb; [done|]. simpl. by rewrite IH. Qed.

Lemma bbox_min1_foldl (uv_layer : UVLayer) (L : list loop) bb :
  bbox_min1 (foldl (bbox_add uv_layer) bb L)
  = foldl (λ acc l, py_min acc (vy (uv_layer l))) (bbox_min1 bb) L.
Proof. revert bb. induction L as [|l L IH]; intros bb; [done|]. simpl. by rewrite IH. Qed.

Lemma bbox_max0_foldl (uv_layer : UVLayer) (L : list loop) bb :
  bbox_max0 (foldl (bbox_add uv_layer) bb L)
  = foldl (λ acc l, py_max acc (vx (uv_layer l))) (bbox_max0 bb) L.
Proof. revert bb. induction L as [|l L IH]; intros bb; [done|]. simpl. by rewrite IH. Qed.

Lemma bbox_max1_foldl (uv_layer : UVLayer) (L : list loop) bb :
  bbox_max1 (foldl (bbox_add uv_layer) bb L)
  = foldl (λ acc l, py_max acc (vy (uv_layer l))) (bbox_max1 bb) L.
Proof. revert bb. induction L as [|l L IH]; intros bb; [done|]. simpl. by rewrite IH. Qed.

(** * Further properties *)

(** Order and equality goals on [Qc], moved to [Q]. *)
Ltac qc_to_q :=
  unfold Qclt, Qcle, Qcminus, Qcplus, Qcopp, Q2Qc in *; cbn [this] in *;
  rewrite ?Qred_correct in *.

(** ** The targets of the grid *)

(** The target of a cell as one fraction per axis. *)
Lemma snap_target_frac (columns rows : positive) (cell_index : N) :
  (cell_index < N.pos columns * N.pos rows)%N →
  let row := Z.of_N (cell_index `div` N.pos columns) in
  let column := Z.of_N (cell_index `mod` N.pos columns) in
  snap_target columns rows cell_index
  = Some (Q2Qc ((2 * column + 1) # (2 * columns)),
          Q2Qc ((2 * (Z.pos rows - row) - 1) # (2 * rows))).
Proof.
  intros Hlt row column. rewrite snap_target_cell by done. fold row column.
  f_equal. f_equal; apply Qc_is_canon;
    unfold Qcdiv, Qcmult, Qcinv, Qc_of_Z; qc_to_q; simpl;
    rewrite ?Qred_correct; unfold Qeq; simpl; lia.
Qed.

Lemma cell_row_column (columns rows : positive) (cell_index : N) :
  (cell_index < N.pos columns * N.pos rows)%N →
  (0 ≤ Z.of_N (cell_index `mod` N.pos columns) < Z.pos columns)%Z ∧
  (0 ≤ Z.of_N (cell_index `div` N.pos columns) < Z.pos rows)%Z.
Proof.
  intros Hlt.
  pose proof (N.mod_upper_bound cell_index (N.pos columns) ltac:(done)).
  assert (cell_index `div` N.pos columns < N.pos rows)%N
    by (apply N.Div0.div_lt_upper_bound; lia).
  split; split; try apply N2Z.is_nonneg.
  - change (Z.pos columns) with (Z.of_N (N.pos columns)). by apply N2Z.inj_lt.
  - change (Z.pos rows) with (Z.of_N (N.pos rows)). by apply N2Z.inj_lt.
Qed.

(** X1. The target of a valid cell lies strictly inside the cell, whose
    sides are [column/columns], [(column+1)/columns] and [1 - row/rows],
    [1 - (row+1)/rows]; in particular it lies strictly inside the unit
    square. *)
Theorem snap_target_inside_cell (columns rows : positive) (cell_index : N) :
  (cell_index < N.pos columns * N.pos rows)%N →
  let row := Z.of_N (cell_index `div` N.pos columns) in
  let column := Z.of_N (cell_index `mod` N.pos columns) in
  ∃ target_x target_y,
    snap_target columns rows cell_index = Some (target_x, target_y) ∧
    (Qc_of_Z column / Qc_of_Z (Z.pos columns) < target_x)%Qc ∧
    (target_x < Qc_of_Z (column + 1) / Qc_of_Z (Z.pos columns))%Qc ∧
    (1 - Qc_of_Z (row + 1) / Qc_of_Z (Z.pos rows) < target_y)%Qc ∧
    (target_y < 1 - Qc_of_Z row / Qc_of_Z (Z.pos rows))%Qc ∧
    (0 < target_x)%Qc ∧ (target_x < 1)%Qc ∧
    (0 < target_y)%Qc ∧ (target_y < 1)%Qc.
Proof.
  intros Hlt row column. eexists _, _.
  split; [by apply snap_target_frac|]. fold row column.
  destruct (cell_row_column columns rows cell_index Hlt) as [Hc Hr].
  fold row in Hr. fold column in Hc.
  repeat split; unfold Qcdiv, Qcmult, Qcinv, Qc_of_Z; qc_to_q; simpl;
    rewrite ?Qred_correct; unfold Qlt; simpl; nia.
Qed.

Lemma snap_target_inside_cell_witness :
  (5 < N.pos 4 * N.pos 2)%N ∧
  ∃ target_x target_y,
    snap_target 4 2 5 = Some (target_x, target_y) ∧
    (0 < target_x)%Qc ∧ (target_x < 1)%Qc ∧
    (0 < target_y)%Qc ∧ (target_y < 1)%Qc.
Proof.
  split; [reflexivity|].
  destruct (snap_target_inside_cell 4 2 5 eq_refl)
    as (tx & ty & Ht & _ & _ & _ & _ & H).
  exists tx, ty. split; [exact Ht|exact H].
Defined.

(** X2. Different valid cells have different targets. *)
Theorem snap_target_injective (columns rows : positive) (i j : N) :
  (i < N.pos columns * N.pos rows)%N →
  (j < N.pos columns * N.pos rows)%N →
  snap_target columns rows i = snap_target columns rows j → i = j.
Proof.
  intros Hi Hj. rewrite !snap_target_frac by done. intros [= Hx Hy].
  apply Qred_eq_iff in Hx, Hy. unfold Qeq in Hx, Hy. simpl in Hx, Hy.
  assert (i `mod` N.pos columns = j `mod` N.pos columns)%N by nia.
  assert (i `div` N.pos columns = j `div` N.pos columns)%N by nia.
  rewrite (N.div_mod i (N.pos columns)), (N.div_mod j (N.pos columns)) by done.
  congruence.
Qed.

Lemma snap_target_injective_witness :
  (5 < N.pos 4 * N.pos 2)%N ∧ (6 < N.pos 4 * N.pos 2)%N ∧
  snap_target 4 2 5 ≠ snap_target 4 2 6.
Proof.
  split; [reflexivity|]. split; [reflexivity|]. intros H.
  by pose proof (snap_target_injective 4 2 5 6 eq_refl eq_refl H).
Defined.


Lemma inv_pos_positive (n : positive) : (0 < inv_pos n)%Qc.
Proof. apply Qc_ltb_lt, inv_pos_gt_0. Qed.

(** ** The bounding box *)

Lemma island_bbox_components (uv_layer : UVLayer) (island : list loop) :
  island_bbox uv_layer island
  = mkBBox (foldl (λ acc l, py_min acc (vx (uv_layer l))) PInf island)
           (foldl (λ acc l, py_min acc (vy (uv_layer l))) PInf island)
           (foldl (λ acc l, py_max acc (vx (uv_layer l))) NInf island)
           (foldl (λ acc l, py_max acc (vy (uv_layer l))) NInf island).
Proof.
  unfold island_bbox.
  pose proof (bbox_min0_foldl uv_layer island bbox_init) as H1.
  pose proof (bbox_min1_foldl uv_layer island bbox_init) as H2.
  pose proof (bbox_max0_foldl uv_layer island bbox_init) as H3.
  pose proof (bbox_max1_foldl uv_layer island bbox_init) as H4.
  destruct (foldl (bbox_add uv_layer) bbox_init island). simpl in *.
  by rewrite H1, H2, H3, H4.
Qed.

Lemma finite_uvs_x (uv_layer : UVLayer) island :
  finite_uvs uv_layer island →
  ∀ l, l ∈ island → is_fin (vx (uv_layer l)) = true.
Proof. intros Hfin l Hl. by apply Hfin, andb_true_iff in Hl as [? _]. Qed.

Lemma finite_uvs_y (uv_layer : UVLayer) island :
  finite_uvs uv_layer island →
  ∀ l, l ∈ island → is_fin (vy (uv_layer l)) = true.
Proof. intros Hfin l Hl. by apply Hfin, andb_true_iff in Hl as [_ ?]. Qed.

(** X8. The bounding box of an island with at least one coordinate, all
    finite, is the smallest box around the coordinates: every coordinate
    lies between [bbox_min] and [bbox_max] on both axes, and each of the
    four bounds is the value of some coordinate of the island. *)
Theorem island_bbox_is_tight (uv_layer : UVLayer) (island : list loop) :
  island ≠ [] → finite_uvs uv_layer island →
  ∃ x0 y0 x1 y1 : Qc,
    island_bbox uv_layer island = mkBBox (Fin x0) (Fin y0) (Fin x1) (Fin y1) ∧
    (∀ l x y, l ∈ island → uv_layer l = mkVector (Fin x) (Fin y) →
              (x0 ≤ x)%Qc ∧ (x ≤ x1)%Qc ∧ (y0 ≤ y)%Qc ∧ (y ≤ y1)%Qc) ∧
    (∃ l, l ∈ island ∧ vx (uv_layer l) = Fin x0) ∧
    (∃ l, l ∈ island ∧ vy (uv_layer l) = Fin y0) ∧
    (∃ l, l ∈ island ∧ vx (uv_layer l) = Fin x1) ∧
    (∃ l, l ∈ island ∧ vy (uv_layer l) = Fin y1).
Proof.
  intros Hne Hfin. rewrite island_bbox_components.
  destruct (foldl_py_min_spec (λ l, vx (uv_layer l)) island Hne
              (finite_uvs_x _ _ Hfin)) as (x0 & -> & Hx0 & Hlowx).
  destruct (foldl_py_min_spec (λ l, vy (uv_layer l)) island Hne
              (finite_uvs_y _ _ Hfin)) as (y0 & -> & Hy0 & Hlowy).
  destruct (foldl_py_max_spec (λ l, vx (uv_layer l)) island Hne
              (finite_uvs_x _ _ Hfin)) as (x1 & -> & Hx1 & Hupx).
  destruct (foldl_py_max_spec (λ l, vy (uv_layer l)) island Hne
              (finite_uvs_y _ _ Hfin)) as (y1 & -> & Hy1 & Hupy).
  exists x0, y0, x1, y1. split; [done|]. split; [|done].
  intros l x y Hl Huv.
  split; [apply (Hlowx l x Hl); by rewrite Huv|].
  split; [apply (Hupx l x Hl); by rewrite Huv|].
  split; [apply (Hlowy l y Hl); by rewrite Huv|].
  apply (Hupy l y Hl); by rewrite Huv.
Qed.

Lemma island_bbox_is_tight_witness :
  quad_island ≠ [] ∧ finite_uvs top_uv quad_island ∧
  ∃ x0 y0 x1 y1 : Qc,
    island_bbox top_uv quad_island = mkBBox (Fin x0) (Fin y0) (Fin x1) (Fin y1) ∧
    (∀ l x y, l ∈ quad_island → top_uv l = mkVector (Fin x) (Fin y) →
              (x0 ≤ x)%Qc ∧ (x ≤ x1)%Qc ∧ (y0 ≤ y)%Qc ∧ (y ≤ y1)%Qc).
Proof.
  assert (quad_island ≠ []) as Hne by discriminate.
  pose proof (quad_uv_finite (Q2Qc (2 # 5)) (Q2Qc (3 # 5)) (Q2Qc (4 # 5)) 1
                quad_island) as Hfin.
  split; [exact Hne|]. split; [exact Hfin|].
  destruct (island_bbox_is_tight top_uv quad_island Hne Hfin)
    as (x0 & y0 & x1 & y1 & Hbb & Hin & _).
  exists x0, y0, x1, y1. split; [exact Hbb|exact Hin].
Defined.




(** X10. The islands of a mesh do not interact: once an operator has moved
    all of them one after the other, every island is where the move of
    that island alone, on the coordinates the operator started from,
    puts it, and a loop that belongs to no island has kept its
    coordinate. *)
Theorem islands_move_independently (pick : Picker) (m : BMesh)
    (uv_layer : UVLayer) :
  let islands := find_islands pick m uv_layer in
  (∀ (x y : Qc) island l,
     island ∈ islands → l ∈ island →
     foldl (snap_island x y) uv_layer islands l
     = snap_island x y uv_layer island l) ∧
  (∀ direction columns rows island l,
     island ∈ islands → l ∈ island →
     foldl (offset_island direction columns rows) uv_layer islands l
     = offset_island direction columns rows uv_layer island l) ∧
  (∀ (x y : Qc) direction columns rows l,
     (∀ island, island ∈ islands → l ∉ island) →
     foldl (snap_island x y) uv_layer islands l = uv_layer l ∧
     foldl (offset_island direction columns rows) uv_layer islands l
     = uv_layer l).
Proof.
  intros islands. pose proof (find_islands_disjoint pick m uv_layer) as Hd.
  split; [|split].
  - intros x y island l HI Hl.
    by apply foldl_move_island; auto using snap_island_local.
  - intros direction columns rows island l HI Hl.
    by apply foldl_move_island; auto using offset_island_local.
  - intros x y direction columns rows l Hl. split.
    + by apply foldl_move_other; auto using snap_island_local.
    + by apply foldl_move_other; auto using offset_island_local.
Qed.

(** ** The operators as a whole *)

Lemma find_islands_pick pick1 pick2 m (uv_layer : UVLayer) :
  find_islands pick1 m uv_layer = find_islands pick2 m uv_layer.
Proof.
  unfold find_islands, find_island_faces.
  by rewrite (find_islands_in_pick pick1 pick2).
Qed.

Lemma for_selected_objects_pick pick1 pick2 prefs move reports
    (objs : list Object) :
  for_selected_objects pick1 prefs move reports objs
  = for_selected_objects pick2 prefs move reports objs.
Proof.
  revert reports. induction objs as [|[mesh|] objs IH]; intros reports; simpl.
  - done.
  - destruct (uv_layers mesh !! uv_channel prefs) as [uv_layer|]; [|done].
    by rewrite (find_islands_pick pick1 pick2), IH.
  - by rewrite IH.
Qed.

(** X11. What [set.pop()] hands out has no influence on what the
    operators do: status, reports and every coordinate are the same for
    any two ways of popping faces during the detection. *)
Theorem operators_ignore_pop_order (pick1 pick2 : Picker)
    (prefs : Preferences) (cell_index : N) (direction : string)
    (objs : list Object) :
  snap_execute pick1 prefs cell_index objs
  = snap_execute pick2 prefs cell_index objs ∧
  offset_execute pick1 prefs direction objs
  = offset_execute pick2 prefs direction objs.
Proof.
  split.
  - unfold snap_execute. destruct (_ <=? _)%N; [done|].
    destruct (snap_target _ _ _) as [[tx ty]|]; [|done].
    apply for_selected_objects_pick.
  - apply for_selected_objects_pick.
Qed.

Lemma channel_not_found_is_error name : is_error (channel_not_found name) = true.
Proof. done. Qed.

(** X12. The status of the operators.  The snap returns FINISHED with no
    error report exactly when the cell index is below [columns * rows]
    and every selected mesh has the configured channel; otherwise it
    returns CANCELLED and its last report, and only that one, is an
    error.  The offset does the same, without the condition on the cell
    index.  Neither raises an exception. *)
Theorem operator_status (pick : Picker) (prefs : Preferences)
    (cell_index : N) (direction : string) (objs : list Object) :
  let valid := (cell_index < N.pos (grid_columns prefs) * N.pos (grid_rows prefs))%N in
  let all_channels := Forall (has_channel prefs) objs in
  let finished (res : Outcome * list Report * list Object) :=
    res.1.1 = Returned FINISHED ∧ Forall (λ r, is_error r = false) res.1.2 in
  let cancelled (res : Outcome * list Report * list Object) :=
    res.1.1 = Returned CANCELLED ∧
    ∃ warnings error, res.1.2 = warnings ++ [error] ∧ is_error error = true ∧
                      Forall (λ r, is_error r = false) warnings in
  (valid ∧ all_channels → finished (snap_execute pick prefs cell_index objs)) ∧
  (¬ (valid ∧ all_channels) →
     cancelled (snap_execute pick prefs cell_index objs)) ∧
  (all_channels → finished (offset_execute pick prefs direction objs)) ∧
  (¬ all_channels → cancelled (offset_execute pick prefs direction objs)).
Proof.
  intros valid all_channels finished cancelled.
  assert (∀ move, all_channels →
            finished (for_selected_objects pick prefs move [] objs)) as Hfin.
  { intros move Hall. rewrite for_selected_objects_all by done. split; [done|].
    apply object_reports_no_error. }
  assert (∀ move, ¬ all_channels →
            cancelled (for_selected_objects pick prefs move [] objs)) as Hcan.
  { intros move Hnot.
    destruct (selection_split prefs objs)
      as [Hall|(before & mesh & after & Heq & Hb & Hn)]; [done|].
    rewrite Heq, for_selected_objects_missing by done. split; [done|].
    eexists _, _. split; [done|]. split; [done|].
    apply object_reports_no_error. }
  split; [|split; [|split]].
  - intros [Hvalid Hall]. unfold snap_execute.
    apply N.leb_gt in Hvalid as Hleb. rewrite Hleb.
    rewrite snap_target_cell by done. by apply Hfin.
  - intros Hnot. unfold snap_execute.
    destruct (_ <=? _)%N eqn:Hleb.
    + split; [done|]. exists [], cell_out_of_bounds. split; [done|].
      split; [done|constructor].
    + apply N.leb_gt in Hleb. rewrite snap_target_cell by done.
      apply Hcan. intros Hall. apply Hnot. by split.
  - apply Hfin.
  - apply Hcan.
Qed.

Lemma nothing_selected_islands pick mesh (uv_layer : UVLayer) :
  nothing_selected (MeshObject mesh) = true ↔
  find_islands pick mesh uv_layer = [].
Proof.
  destruct (islands_are_components_aux pick mesh uv_layer) as (Hunion & _).
  assert (find_islands pick mesh uv_layer = []
          ↔ find_island_faces pick mesh uv_layer = []) as ->.
  { unfold find_islands. split; [apply fmap_nil_inv|by intros ->]. }
  simpl. split.
  - intros Hnone.
    destruct (find_island_faces pick mesh uv_layer) as [|I found] eqn:E; [done|].
    exfalso. pose proof (find_islands_in_inv pick mesh uv_layer
                           (seq 0 (length (bm_faces mesh)))) as (_ & Hcomp & _ & Hseed & _).
    destruct (Hseed I) as (s & _ & Hs).
    { unfold find_island_faces, find_islands_in in E. rewrite E. by left. }
    assert (face_select mesh s = true) as Hsel.
    { apply Hunion. exists I. split; [by left|done]. }
    unfold face_select in Hsel.
    destruct (bm_faces mesh !! s) as [r|] eqn:Hr; [|done].
    rewrite forallb_forall in Hnone.
    specialize (Hnone r). rewrite <- list_elem_of_In in Hnone.
    rewrite Hsel in Hnone. discriminate Hnone.
    by eapply list_elem_of_lookup_2.
  - intros Hnil. apply forallb_forall. intros r Hr.
    rewrite <- list_elem_of_In in Hr.
    apply list_elem_of_lookup_1 in Hr as [f Hf].
    destruct (select r) eqn:Hsel; [|done]. exfalso.
    assert (face_select mesh f = true) as Hfs
      by (unfold face_select; by rewrite Hf).
    apply Hunion in Hfs as (I & HI & _). rewrite ?Hnil in HI.
    by apply elem_of_nil in HI.
Qed.

Lemma object_reports_nothing_selected pick prefs obj :
  has_channel prefs obj →
  object_reports pick prefs obj
  = if nothing_selected obj then [no_selected_uvs] else [].
Proof.
  destruct obj as [mesh|]; [|done]. intros [uv_layer Huv].
  unfold object_reports. rewrite Huv.
  destruct (nothing_selected (MeshObject mesh)) eqn:Hn.
  - by rewrite (proj1 (nothing_selected_islands pick mesh uv_layer) Hn).
  - destruct (find_islands pick mesh uv_layer) eqn:E; [|done].
    apply (nothing_selected_islands pick mesh uv_layer) in E. congruence.
Qed.

Lemma selection_reports pick prefs (objs : list Object) :
  Forall (has_channel prefs) objs →
  objs ≫= object_reports pick prefs
  = replicate (length (filter (λ obj, nothing_selected obj = true) objs))
              no_selected_uvs.
Proof.
  induction 1 as [|obj objs Hobj _ IH]; [done|].
  rewrite bind_cons, IH, object_reports_nothing_selected by done.
  rewrite filter_cons. destruct (nothing_selected obj) eqn:Hn.
  - by rewrite decide_True.
  - by rewrite decide_False.
Qed.

Lemma process_object_nothing_selected pick prefs move obj :
  nothing_selected obj = true → process_object pick prefs move obj = obj.
Proof.
  destruct obj as [mesh|]; [|done]. intros Hn. unfold process_object.
  destruct (uv_layers mesh !! uv_channel prefs) as [uv_layer|] eqn:Huv; [|done].
  rewrite (proj1 (nothing_selected_islands pick mesh uv_layer) Hn). simpl.
  unfold store_layer. rewrite insert_id by done. by destruct mesh.
Qed.

(** X13. A mesh without a selected face gets the warning "No selected UVs
    found" and is handed back as it is; the call goes on.  When the cell
    index is valid and no selected mesh lacks the channel, the reports of
    either operator are exactly one such warning per selected mesh
    without a selected face. *)
Theorem empty_selection_warns_and_continues (pick : Picker)
    (prefs : Preferences) (cell_index : N) (direction : string)
    (objs : list Object) (res : Outcome * list Report * list Object) :
  (cell_index < N.pos (grid_columns prefs) * N.pos (grid_rows prefs))%N →
  Forall (has_channel prefs) objs →
  res = snap_execute pick prefs cell_index objs ∨
  res = offset_execute pick prefs direction objs →
  res.1.1 = Returned FINISHED ∧
  res.1.2 = replicate
              (length (filter (λ obj, nothing_selected obj = true) objs))
              no_selected_uvs ∧
  ∀ i obj, objs !! i = Some obj → nothing_selected obj = true →
           res.2 !! i = Some obj.
Proof.
  intros Hvalid Hall Hres.
  assert (∃ move, res = (Returned FINISHED, objs ≫= object_reports pick prefs,
                         process_object pick prefs move <$> objs))
    as (move & ->).
  { destruct Hres as [->| ->].
    - destruct (snap_execute_finished pick prefs cell_index objs Hvalid Hall)
        as (tx & ty & _ & ->). eauto.
    - rewrite offset_execute_finished by done. eauto. }
  simpl. split; [done|]. split; [by apply selection_reports|].
  intros i obj Hi Hn. rewrite list_lookup_fmap, Hi. simpl.
  by rewrite process_object_nothing_selected.
Qed.

Lemma empty_selection_warns_and_continues_witness :
  let objs := [MeshObject (mkMesh [mkFace false 4] [[0]]
                             {["ch3"%string := corner_uv]});
               MeshObject (quad_mesh corner_uv)] in
  let res := snap_execute pick_first default_prefs 5 objs in
  res.1.1 = Returned FINISHED ∧
  res.1.2 = replicate
              (length (filter (λ obj, nothing_selected obj = true) objs))
              no_selected_uvs.
Proof.
  intros objs res.
  destruct (empty_selection_warns_and_continues pick_first default_prefs 5 "up"
              objs res) as (Hstatus & Hreports & _).
  - reflexivity.
  - repeat constructor; by eexists.
  - left. reflexivity.
  - split; [exact Hstatus|exact Hreports].
Defined.

(** ** Edge cases of the detection *)

Lemma island_of_face pick m (uv_layer : UVLayer) f :
  face_select m f = true →
  ∃ I, I ∈ find_island_faces pick m uv_layer ∧
       ∀ g, g ∈ I ↔ same_component m uv_layer f g.
Proof.
  intros Hf.
  destruct (islands_are_components_aux pick m uv_layer) as (Hunion & Hcomp).
  destruct (proj2 (Hunion f) Hf) as (I & HI & HfI).
  exists I. split; [done|]. by apply Hcomp.
Qed.

(** X14. A selected face that is UV-connected to no other face is an
    island by itself: the detection returns an island whose handles are
    exactly the loops of that face. *)
Theorem isolated_face_is_an_island (pick : Picker) (m : BMesh)
    (uv_layer : UVLayer) (f : face) :
  face_select m f = true →
  (∀ g, uv_connected m uv_layer f g → g = f) →
  {[f]} ∈ find_island_faces pick m uv_layer ∧
  face_loops m f ∈ find_islands pick m uv_layer.
Proof.
  intros Hf Hiso.
  destruct (island_of_face pick m uv_layer f Hf) as (I & HI & Hclass).
  assert (∀ g, same_component m uv_layer f g → g = f) as Hrtc.
  { intros g Hg. induction Hg as [|x y z Hxy _ IH]; [done|].
    pose proof (Hiso _ Hxy) as ->. by apply IH. }
  assert (I = {[f]}) as ->.
  { apply set_eq. intros g. rewrite Hclass, elem_of_singleton. split; [auto|].
    intros ->. apply rtc_refl. }
  split; [done|]. unfold find_islands.
  apply list_elem_of_fmap. exists {[f]}. split; [|done].
  unfold island_uvs. rewrite elements_singleton. simpl. by rewrite app_nil_r.
Qed.

Lemma isolated_face_is_an_island_witness :
  face_select (quad_mesh corner_uv) 0 = true ∧
  face_loops (quad_mesh corner_uv) 0
  ∈ find_islands pick_first (quad_mesh corner_uv) corner_uv.
Proof.
  split; [reflexivity|].
  apply (isolated_face_is_an_island pick_first (quad_mesh corner_uv) corner_uv 0);
    [reflexivity|].
  intros g (_ & Hg & _). unfold face_select in Hg. simpl in Hg.
  by destruct g as [|g].
Defined.

(** X15. When all selected faces hang together through UV-connected
    neighbours, and there is a selected face, the detection returns one
    island, made of all selected faces. *)
Theorem connected_selection_is_one_island (pick : Picker) (m : BMesh)
    (uv_layer : UVLayer) (f0 : face) :
  face_select m f0 = true →
  (∀ f g, face_select m f = true → face_select m g = true →
          same_component m uv_layer f g) →
  ∃ I, find_island_faces pick m uv_layer = [I] ∧
       ∀ g, g ∈ I ↔ face_select m g = true.
Proof.
  intros Hf0 Hconn.
  destruct (islands_are_components_aux pick m uv_layer) as (Hunion & Hcomp).
  pose proof (find_island_faces_disjoint pick m uv_layer) as Hdisj.
  destruct (proj2 (Hunion f0) Hf0) as (I & HI & Hf0I).
  assert (∀ J, J ∈ find_island_faces pick m uv_layer →
               ∀ g, g ∈ J ↔ face_select m g = true) as Hall.
  { intros J HJ g. split.
    - intros Hg. apply Hunion. eauto.
    - intros Hg. destruct (proj2 (Hunion g) Hg) as (J' & HJ' & HgJ').
      assert (f0 ∈ J') as Hf0J' by (apply (Hcomp J' g HJ' HgJ'); auto).
      assert (f0 ∈ J) as Hf0J.
      { destruct (proj2 (Hunion f0) Hf0) as (K & HK & Hf0K).
        assert (∃ h, h ∈ J) as [h Hh].
        { pose proof (find_islands_in_inv pick m uv_layer
                        (seq 0 (length (bm_faces m)))) as (_ & _ & _ & Hseed & _).
          destruct (Hseed J HJ) as (s & _ & Hs). eauto. }
        apply (Hcomp J h HJ Hh). apply Hconn; [|done].
        apply Hunion. eauto. }
      apply (Hcomp J f0 HJ Hf0J). auto. }
  exists I. split; [|by apply Hall].
  apply list_elem_of_lookup_1 in HI as [i Hi].
  destruct (find_island_faces pick m uv_layer) as [|A [|B rest]] eqn:E.
  - by rewrite lookup_nil in Hi.
  - destruct i as [|i]; simpl in Hi; [by injection Hi as ->|].
    by rewrite lookup_nil in Hi.
  - exfalso.
    pose proof (disjoint_sets_lookup _ 0 1 A B Hdisj ltac:(done) eq_refl eq_refl)
      as Hd.
    apply (proj1 (elem_of_disjoint A B) Hd f0).
    + apply (Hall A); [by left|done].
    + apply (Hall B); [right; by left|done].
Qed.

Lemma connected_selection_is_one_island_witness :
  face_select seam_mesh 0 = true ∧
  ∃ I, find_island_faces pick_first seam_mesh seam_uv = [I] ∧
       ∀ g, g ∈ I ↔ face_select seam_mesh g = true.
Proof.
  split; [reflexivity|].
  apply (connected_selection_is_one_island pick_first seam_mesh seam_uv 0);
    [reflexivity|].
  assert (find_island_faces pick_first seam_mesh seam_uv
          = [list_to_set [0; 1; 2]]) as E by (vm_compute; reflexivity).
  destruct (islands_are_components_aux pick_first seam_mesh seam_uv)
    as (Hunion & Hcomp).
  rewrite E in Hunion, Hcomp.
  intros f g Hf Hg.
  destruct (proj2 (Hunion f) Hf) as (I & ->%list_elem_of_singleton & HfI).
  destruct (proj2 (Hunion g) Hg) as (J & ->%list_elem_of_singleton & HgJ).
  apply (Hcomp (list_to_set [0; 1; 2]) f); [by apply list_elem_of_singleton|done..].
Defined.

(** ** The panels and the menu *)

Lemma py_range_lookup (n : positive) (i : nat) (k : N) :
  py_range n !! i = Some k ↔ k = N.of_nat i ∧ i < Pos.to_nat n.
Proof.
  unfold py_range. rewrite list_lookup_fmap, fmap_Some. split.
  - intros (j & (-> & Hlt)%lookup_seq & ->). done.
  - intros (-> & Hlt). exists i. split; [|done]. by apply lookup_seq.
Qed.

Lemma cell_rows_length label prefs :
  length (cell_rows label prefs) = Pos.to_nat (grid_rows prefs).
Proof. unfold cell_rows, py_range. by rewrite !length_fmap, length_seq. Qed.

Lemma cell_rows_lookup label prefs (r c : nat) row item :
  cell_rows label prefs !! r = Some row → row !! c = Some item →
  r < Pos.to_nat (grid_rows prefs) ∧ c < Pos.to_nat (grid_columns prefs) ∧
  item = OperatorButton "uv.cell_snap"
           (label (N.of_nat r * N.pos (grid_columns prefs) + N.of_nat c)%N) None
           (CellIndex (N.of_nat r * N.pos (grid_columns prefs) + N.of_nat c)%N).
Proof.
  unfold cell_rows. rewrite list_lookup_fmap, fmap_Some.
  intros (k & (-> & Hr)%py_range_lookup & ->).
  rewrite list_lookup_fmap, fmap_Some.
  intros (j & (-> & Hc)%py_range_lookup & ->). done.
Qed.

Lemma button_index (columns rows : positive) (r c : nat) :
  r < Pos.to_nat rows → c < Pos.to_nat columns →
  let index := (N.of_nat r * N.pos columns + N.of_nat c)%N in
  (index < N.pos columns * N.pos rows)%N ∧
  (index `div` N.pos columns = N.of_nat r)%N ∧
  (index `mod` N.pos columns = N.of_nat c)%N.
Proof.
  intros Hr Hc index.
  assert (N.of_nat r < N.pos rows)%N as Hr' by lia.
  assert (N.of_nat c < N.pos columns)%N as Hc' by lia.
  split; [unfold index; nia|]. split; symmetry.
  - apply (N.div_unique index (N.pos columns) (N.of_nat r) (N.of_nat c));
      [done|unfold index; lia].
  - apply (N.mod_unique index (N.pos columns) (N.of_nat r) (N.of_nat c));
      [done|unfold index; lia].
Qed.



Lemma cell_rows_join label prefs :
  mjoin (cell_rows label prefs)
  = (λ index, OperatorButton "uv.cell_snap" (label index) None (CellIndex index))
    <$> py_range (grid_columns prefs * grid_rows prefs).
Proof.
  unfold cell_rows, py_range.
  rewrite Pos2Nat.inj_mul.
  set (B := λ index, OperatorButton "uv.cell_snap" (label index) None
                       (CellIndex index)).
  set (c := Pos.to_nat (grid_columns prefs)).
  assert (N.pos (grid_columns prefs) = N.of_nat c) as ->
    by (unfold c; lia).
  generalize (Pos.to_nat (grid_rows prefs)) as n.
  induction n as [|n IH]; [by rewrite Nat.mul_0_r|].
  rewrite seq_S, !fmap_app, join_app, IH. simpl. rewrite app_nil_r.
  replace (c * S n) with (c * n + c) by lia.
  rewrite seq_app, !fmap_app. f_equal. simpl.
  replace (seq (c * n) c) with (Nat.add (c * n) <$> seq 0 c)
    by (rewrite fmap_add_seq; f_equal; lia).
  rewrite <- !list_fmap_compose. apply list_fmap_ext.
  intros _ col _. simpl. unfold B. do 2 f_equal; lia.
Qed.

(** X17. What the panels and the menu show.  Read row by row, the menu is
    one snap button for each cell index [0 .. columns * rows - 1], in
    this order, labelled with the index; the panels have the same
    buttons labelled from 1, then the four offset buttons for up, down,
    left and right, then the field of the channel name. *)
Theorem panel_and_menu_contents (prefs : Preferences) :
  let cells := py_range (grid_columns prefs * grid_rows prefs) in
  mjoin (menu_draw prefs)
  = (λ index, OperatorButton "uv.cell_snap" (pretty index) None
                (CellIndex index)) <$> cells ∧
  mjoin (panel_draw prefs)
  = ((λ index, OperatorButton "uv.cell_snap" (pretty (index + 1)%N) None
                 (CellIndex index)) <$> cells)
    ++ [OperatorButton "uv.cell_snap_offset" "" (Some "TRIA_UP")
          (Direction "up");
        OperatorButton "uv.cell_snap_offset" "" (Some "TRIA_DOWN")
          (Direction "down");
        OperatorButton "uv.cell_snap_offset" "" (Some "TRIA_LEFT")
          (Direction "left");
        OperatorButton "uv.cell_snap_offset" "" (Some "TRIA_RIGHT")
          (Direction "right");
        PropField "uv_channel"] ∧
  length (menu_draw prefs) = Pos.to_nat (grid_rows prefs) ∧
  Forall (λ row, length row = Pos.to_nat (grid_columns prefs)) (menu_draw prefs).
Proof.
  intros cells. split; [apply cell_rows_join|]. split; [|split].
  - unfold panel_draw. rewrite !join_app, cell_rows_join. done.
  - apply cell_rows_length.
  - unfold menu_draw, cell_rows. apply Forall_fmap, Forall_forall.
    intros row _. simpl. unfold py_range. by rewrite !length_fmap, length_seq.
Qed.

Lemma for_selected_objects_reports pick prefs move (objs : list Object) r :
  r ∈ (for_selected_objects pick prefs move [] objs).1.2 →
  r = no_selected_uvs ∨ r = channel_not_found (uv_channel prefs).
Proof.
  assert (∀ l, r ∈ l ≫= object_reports pick prefs → r = no_selected_uvs)
    as Hwarn.
  { intros l (obj & Hr & _)%list_elem_of_bind.
    unfold object_reports in Hr. destruct obj as [mesh|].
    - destruct (uv_layers mesh !! uv_channel prefs) as [uv_layer|].
      + destruct (find_islands pick mesh uv_layer).
        * by apply list_elem_of_singleton in Hr.
        * by apply elem_of_nil in Hr.
      + by apply elem_of_nil in Hr.
    - by apply elem_of_nil in Hr. }
  destruct (selection_split prefs objs)
    as [Hall|(before & mesh & after & -> & Hb & Hn)].
  - rewrite for_selected_objects_all by done. simpl. intros Hr. left. eauto.
  - rewrite for_selected_objects_missing by done. simpl.
    intros [Hr|Hr%list_elem_of_singleton]%elem_of_app; [left; eauto|by right].
Qed.

(** X18. No button of the panels or of the menu can run into the bounds
    check.  Every item drawn is the channel field or a button whose
    operator runs with the argument the button carries, never reports
    "Cell index out of bounds", and returns FINISHED when no selected
    mesh lacks the channel. *)
Theorem drawn_buttons_are_in_bounds (pick : Picker) (prefs : Preferences)
    (objs : list Object) (row : list UIItem) (item : UIItem) :
  row ∈ panel_draw prefs ∨ row ∈ menu_draw prefs →
  item ∈ row →
  item = PropField "uv_channel" ∨
  ∃ res, press pick prefs item objs = Some res ∧
         (cell_out_of_bounds ∉ res.1.2) ∧
         (Forall (has_channel prefs) objs → res.1.1 = Returned FINISHED).
Proof.
  intros Hrow Hitem.
  assert (∀ move res, res = for_selected_objects pick prefs move [] objs →
            (cell_out_of_bounds ∉ res.1.2) ∧
            (Forall (has_channel prefs) objs → res.1.1 = Returned FINISHED))
    as Hloop.
  { intros move res ->. split.
    - by intros [H|H]%for_selected_objects_reports.
    - intros Hall. by rewrite for_selected_objects_all. }
  assert ((∃ label, row ∈ cell_rows label prefs) ∨ row = direction_buttons ∨
          row = [PropField "uv_channel"]) as [[label Hcells]|[->| ->]].
  { destruct Hrow as [Hrow|Hrow]; [|left; by eexists].
    unfold panel_draw in Hrow.
    apply elem_of_app in Hrow as [Hrow|Hrow]; [left; by eexists|right].
    apply elem_of_app in Hrow as [Hrow|Hrow];
      apply list_elem_of_singleton in Hrow; auto. }
  - right. apply list_elem_of_lookup_1 in Hcells as [r Hr].
    apply list_elem_of_lookup_1 in Hitem as [c Hc].
    destruct (cell_rows_lookup label prefs r c row item Hr Hc)
      as (Hrlt & Hclt & ->).
    destruct (button_index (grid_columns prefs) (grid_rows prefs) r c Hrlt Hclt)
      as (Hlt & _).
    eexists. split; [reflexivity|].
    unfold snap_execute. apply N.leb_gt in Hlt as Hleb. rewrite Hleb.
    rewrite snap_target_cell by done. by eapply Hloop.
  - right. unfold direction_buttons in Hitem. simpl in Hitem.
    repeat (apply elem_of_cons in Hitem as [->|Hitem]);
      [..|by apply elem_of_nil in Hitem];
      (eexists; split; [reflexivity|]; by eapply Hloop).
  - left. by apply list_elem_of_singleton in Hitem.
Qed.

Lemma drawn_buttons_are_in_bounds_witness :
  ∃ res, press pick_first default_prefs
           (OperatorButton "uv.cell_snap" "7" None (CellIndex 7))
           [MeshObject (quad_mesh corner_uv)] = Some res ∧
         (cell_out_of_bounds ∉ res.1.2) ∧
         (Forall (has_channel default_prefs) [MeshObject (quad_mesh corner_uv)] →
          res.1.1 = Returned FINISHED).
Proof.
  destruct (drawn_buttons_are_in_bounds pick_first default_prefs
              [MeshObject (quad_mesh corner_uv)]
              ((λ i : N, OperatorButton "uv.cell_snap" (pretty i) None
                           (CellIndex i)) <$> [4; 5; 6; 7]%N)
              (OperatorButton "uv.cell_snap" "7" None (CellIndex 7)))
    as [Hprop|Hres].
  - right. unfold menu_draw. apply list_elem_of_lookup_2 with 1. reflexivity.
  - apply list_elem_of_lookup_2 with 3. reflexivity.
  - discriminate Hprop.
  - exact Hres.
Defined.


(** * Properties of the rounded arithmetic *)

(** ** Rounding to a binary format *)

Lemma round_half_even_near (x : Q) :
  (x - (1 # 2) <= inject_Z (round_half_even x) <= x + (1 # 2))%Q.
Proof.
  unfold round_half_even.
  pose proof (Qfloor_le x) as Hlo. pose proof (Qlt_floor x) as Hhi.
  rewrite inject_Z_plus in Hhi. change (inject_Z 1) with 1%Q in Hhi.
  destruct (x - inject_Z (Qfloor x) ?= 1 # 2)%Q eqn:E.
  - apply Qeq_alt in E. destruct (Z.even (Qfloor x));
      rewrite ?inject_Z_plus; change (inject_Z 1) with 1%Q; lra.
  - apply Qlt_alt in E. lra.
  - apply Qgt_alt in E. rewrite inject_Z_plus. change (inject_Z 1) with 1%Q. lra.
Qed.

Lemma pow2_pos (e : Z) : (0 < pow2 e)%Q.
Proof. apply Qpower_0_lt. reflexivity. Qed.

Lemma pow2_plus (a b : Z) : (pow2 (a + b) == pow2 a * pow2 b)%Q.
Proof. apply Qpower_plus. discriminate. Qed.

Lemma pow2_pred (e : Z) : (pow2 (e - 1) == pow2 e * (1 # 2))%Q.
Proof. unfold Z.sub. rewrite pow2_plus. reflexivity. Qed.

Lemma pow2_Z (a : Z) : (0 ≤ a)%Z → (pow2 a == inject_Z (2 ^ a))%Q.
Proof. intros Ha. unfold pow2. by rewrite Zpower_Qpower. Qed.

(** [ilog2 x] is not above the binary logarithm of [x]. *)
Lemma ilog2_spec (x : Q) : (0 < x)%Q → (pow2 (ilog2 x) <= x)%Q.
Proof.
  intros Hx. unfold ilog2.
  destruct (Qle_bool _ x) eqn:E; [by apply Qle_bool_iff|].
  destruct x as [n d]. cbn [Qnum Qden] in *.
  assert (0 < n)%Z as Hn by (unfold Qlt in Hx; simpl in Hx; lia).
  set (a := Z.log2 n). set (b := Z.log2 (Z.pos d)).
  pose proof (Z.log2_nonneg n) as Ha0. pose proof (Z.log2_nonneg (Z.pos d)) as Hb0.
  fold a in Ha0. fold b in Hb0.
  destruct (Z.log2_spec n Hn) as [Ha _]. fold a in Ha.
  destruct (Z.log2_spec (Z.pos d) ltac:(done)) as [_ Hb]. fold b in Hb.
  replace (a - b - 1)%Z with (a + - (b + 1))%Z by lia.
  rewrite pow2_plus. unfold pow2 at 2. rewrite Qpower_opp.
  fold (pow2 (b + 1)). rewrite !pow2_Z by lia.
  assert (0 < 2 ^ (b + 1))%Z as HB by (apply Z.pow_pos_nonneg; lia).
  assert (0 < 2 ^ a)%Z as HA by (apply Z.pow_pos_nonneg; lia).
  destruct (2 ^ (b + 1))%Z as [|P|P] eqn:EP; try lia.
  destruct (2 ^ a)%Z as [|A|A] eqn:EA; try lia.
  unfold Qle, Qmult, Qinv, inject_Z. simpl. nia.
Qed.

(** Rounding a positive number moves it by at most half a unit in the
    last place: by at most [x / 2^prec], or by [2^(emin - 1)] where the
    format is subnormal. *)
Lemma round_pos_error (fmt : Format) (x ε : Q) :
  (0 < x)%Q → (x <= ε * pow2 (Z.pos (prec fmt)))%Q →
  (pow2 (emin fmt - 1) <= ε)%Q →
  (x - ε <= round_pos fmt x <= x + ε)%Q.
Proof.
  intros Hx Hrel Habs. unfold round_pos.
  set (e := Z.max _ _).
  assert (pow2 e * (1 # 2) <= ε)%Q as He.
  { rewrite <- pow2_pred. unfold e.
    destruct (Z.max_spec (ilog2 x - Z.pos (prec fmt) + 1) (emin fmt))
      as [[_ ->]|[_ ->]]; [done|].
    replace (ilog2 x - Z.pos (prec fmt) + 1 - 1)%Z
      with (ilog2 x + - Z.pos (prec fmt))%Z by lia.
    rewrite pow2_plus. unfold pow2 at 2. rewrite Qpower_opp.
    fold (pow2 (Z.pos (prec fmt))).
    pose proof (ilog2_spec x Hx) as HE.
    pose proof (pow2_pos (Z.pos (prec fmt))) as HP.
    apply Qle_shift_div_r; [done|]. lra. }
  pose proof (pow2_pos e) as HP.
  pose proof (round_half_even_near (x / pow2 e)) as [Hlo Hhi].
  set (m := inject_Z (round_half_even (x / pow2 e))) in *.
  assert (x / pow2 e * pow2 e == x)%Q as Hq.
  { field. intros H. rewrite H in HP. by apply Qlt_irrefl in HP. }
  set (q := (x / pow2 e)%Q) in *.
  split.
  - assert ((q - (1 # 2)) * pow2 e <= m * pow2 e)%Q
      by (apply Qmult_le_compat_r; [done|lra]).
    lra.
  - assert (m * pow2 e <= (q + (1 # 2)) * pow2 e)%Q
      by (apply Qmult_le_compat_r; [done|lra]).
    lra.
Qed.

Lemma Qc_this_Q2Qc (q : Q) : (this (Q2Qc q) == q)%Q.
Proof. apply Qred_correct. Qed.

Lemma Qc_this_opp (a : Qc) : (this (- a)%Qc == - this a)%Q.
Proof. apply Qred_correct. Qed.

Lemma Qc_this_plus (a b : Qc) : (this (a + b)%Qc == this a + this b)%Q.
Proof. apply Qred_correct. Qed.

(** On the range [[-B, B]] a format rounds to a finite number within
    [ε], when [ε] is at least [B / 2^prec] and half the smallest
    subnormal, and [B + ε] is below the overflow threshold. *)
Lemma round_to_rounds (fmt : Format) (B ε : Q) :
  (B <= ε * pow2 (Z.pos (prec fmt)))%Q →
  (pow2 (emin fmt - 1) <= ε)%Q →
  (B + ε < pow2 (emax fmt))%Q →
  rounds (round_to fmt) B ε.
Proof.
  intros Hrel Habs Hmax x Hlo Hhi. unfold round_to.
  pose proof (pow2_pos (emin fmt - 1)) as Hpos.
  pose proof (Qc_this_Q2Qc 0) as H0.
  destruct (x ?= 0)%Qc eqn:E.
  - apply Qceq_alt in E. subst x. exists 0%Qc. split; [done|].
    unfold near. lra.
  - apply Qclt_alt in E. unfold Qclt in E.
    assert (0 < - x)%Q as Hx by lra.
    destruct (round_pos_error fmt (- x) ε Hx) as [Hl Hh]; [lra|done|].
    destruct (Qle_bool _ _) eqn:Eov.
    { apply Qle_bool_iff in Eov. lra. }
    eexists. split; [done|]. unfold near.
    pose proof (Qc_this_opp (Q2Qc (round_pos fmt (- x)))) as H1.
    pose proof (Qc_this_Q2Qc (round_pos fmt (- x))) as H2.
    split; lra.
  - apply Qcgt_alt in E. unfold Qclt in E.
    assert (0 < x)%Q as Hx by lra.
    destruct (round_pos_error fmt x ε Hx) as [Hl Hh]; [lra|done|].
    destruct (Qle_bool _ _) eqn:Eov.
    { apply Qle_bool_iff in Eov. lra. }
    eexists. split; [done|]. unfold near.
    pose proof (Qc_this_Q2Qc (round_pos fmt x)) as H2.
    split; lra.
Qed.

(** ** Extremes of coordinates *)

Lemma Qc_half_double (s : Qc) : (s / Qc_two + s / Qc_two = s)%Qc.
Proof. rewrite Qc_two_plus. field. intros H. discriminate H. Qed.

Lemma Qc_this_half (s : Qc) :
  (this (s / Qc_two)%Qc + this (s / Qc_two)%Qc == this s)%Q.
Proof. rewrite <- Qc_this_plus. by rewrite Qc_half_double. Qed.

Section AxisExtremes.
Context {A : Type}.

Lemma axis_extremes (g : A → fnum) (L : list A) (M : Q) :
  L ≠ [] → (∀ l, l ∈ L → ∃ x : Qc, g l = Fin x ∧ near M x 0) →
  ∃ lo hi : Qc,
    foldl (λ acc l, py_min acc (g l)) PInf L = Fin lo ∧
    foldl (λ acc l, py_max acc (g l)) NInf L = Fin hi ∧
    near M lo 0 ∧ near M hi 0 ∧
    (∃ l, l ∈ L ∧ g l = Fin lo) ∧ (∃ l, l ∈ L ∧ g l = Fin hi) ∧
    ∀ l (x : Qc), l ∈ L → g l = Fin x → (lo <= x)%Q ∧ (x <= hi)%Q.
Proof.
  intros Hne Hg.
  assert (∀ l, l ∈ L → is_fin (g l) = true) as Hfin.
  { intros l Hl. destruct (Hg l Hl) as (x & -> & _). done. }
  destruct (foldl_py_min_spec g L Hne Hfin) as (lo & Hlo & (l0 & Hl0 & Hg0) & Hlow).
  destruct (foldl_py_max_spec g L Hne Hfin) as (hi & Hhi & (l1 & Hl1 & Hg1) & Hup).
  exists lo, hi. split; [done|]. split; [done|].
  destruct (Hg l0 Hl0) as (x0 & Hx0 & Hn0). rewrite Hg0 in Hx0.
  injection Hx0 as <-.
  destruct (Hg l1 Hl1) as (x1 & Hx1 & Hn1). rewrite Hg1 in Hx1.
  injection Hx1 as <-.
  split; [done|]. split; [done|]. split; [eauto|]. split; [eauto|].
  intros l x Hl Hx. split; [exact (Hlow l x Hl Hx)|exact (Hup l x Hl Hx)].
Qed.

(** The extremes of coordinates that have all moved by [o], up to [η]. *)
Lemma axis_moved_box (g g' : A → fnum) (L : list A) (lo hi : Qc) (o η : Q) :
  L ≠ [] →
  (∃ l, l ∈ L ∧ g l = Fin lo) → (∃ l, l ∈ L ∧ g l = Fin hi) →
  (∀ l (x : Qc), l ∈ L → g l = Fin x → (lo <= x)%Q ∧ (x <= hi)%Q) →
  (∀ l, l ∈ L → ∃ x x' : Qc, g l = Fin x ∧ g' l = Fin x' ∧ near η x' (x + o)) →
  ∃ lo' hi' : Qc,
    foldl (λ acc l, py_min acc (g' l)) PInf L = Fin lo' ∧
    foldl (λ acc l, py_max acc (g' l)) NInf L = Fin hi' ∧
    near η lo' (lo + o) ∧ near η hi' (hi + o).
Proof.
  intros Hne (l0 & Hl0 & Hg0) (l1 & Hl1 & Hg1) Hbox Hmove.
  assert (∀ l, l ∈ L → is_fin (g' l) = true) as Hfin.
  { intros l Hl. destruct (Hmove l Hl) as (x & x' & _ & -> & _). done. }
  destruct (foldl_py_min_spec g' L Hne Hfin) as (lo' & Hlo & (a & Ha & Hga) & Hlow).
  destruct (foldl_py_max_spec g' L Hne Hfin) as (hi' & Hhi & (b & Hb & Hgb) & Hup).
  exists lo', hi'. split; [done|]. split; [done|].
  destruct (Hmove a Ha) as (xa & xa' & Hxa & Hxa' & Hna).
  rewrite Hga in Hxa'. injection Hxa' as <-.
  destruct (Hmove b Hb) as (xb & xb' & Hxb & Hxb' & Hnb).
  rewrite Hgb in Hxb'. injection Hxb' as <-.
  destruct (Hmove l0 Hl0) as (x0 & x0' & Hx0 & Hx0' & Hn0).
  rewrite Hg0 in Hx0. injection Hx0 as <-.
  destruct (Hmove l1 Hl1) as (x1 & x1' & Hx1 & Hx1' & Hn1).
  rewrite Hg1 in Hx1. injection Hx1 as <-.
  pose proof (Hlow l0 x0' Hl0 Hx0') as H1.
  pose proof (Hup l1 x1' Hl1 Hx1') as H2.
  destruct (Hbox a xa Ha Hxa) as [H3 _].
  destruct (Hbox b xb Hb Hxb) as [_ H4].
  unfold near, Qcle in *. split; lra.
Qed.
End AxisExtremes.

(** ** The snap in rounded arithmetic *)

Lemma translate_uv_fl_update fl st ox oy :
  translate_uv_fl fl st ox oy
  = update_at (λ v, mkVector (st (fl (fadd (vx v) ox))) (st (fl (fadd (vy v) oy)))).
Proof. done. Qed.

Lemma snap_island_fl_in fl st tx ty (uv_layer : UVLayer) island l :
  NoDup island → l ∈ island →
  let bb := island_bbox uv_layer island in
  let offset_x := fl (fsub tx (center_x_fl fl bb)) in
  let offset_y := fl (fsub ty (center_y_fl fl bb)) in
  snap_island_fl fl st tx ty uv_layer island l
  = mkVector (st (fl (fadd (vx (uv_layer l)) offset_x)))
             (st (fl (fadd (vy (uv_layer l)) offset_y))).
Proof.
  intros Hnd Hl bb ox oy. unfold snap_island_fl.
  rewrite translate_uv_fl_update. by rewrite foldl_update_at_in.
Qed.

Lemma snap_island_fl_local fl st tx ty : local_move (snap_island_fl fl st tx ty).
Proof.
  split.
  - intros uv_layer island l Hl. unfold snap_island_fl.
    rewrite translate_uv_fl_update. by apply foldl_update_at_notin.
  - intros uv1 uv2 island H l Hl. unfold snap_island_fl.
    rewrite (island_bbox_ext uv1 uv2 island H), !translate_uv_fl_update.
    apply foldl_update_at_ext; auto.
Qed.

Lemma uvs_within_x M (uv_layer : UVLayer) island :
  uvs_within M uv_layer island →
  ∀ l, l ∈ island → ∃ x : Qc, vx (uv_layer l) = Fin x ∧ near M x 0.
Proof. intros H l Hl. destruct (H l Hl) as (x & y & -> & Hx & _). eauto. Qed.

Lemma uvs_within_y M (uv_layer : UVLayer) island :
  uvs_within M uv_layer island →
  ∀ l, l ∈ island → ∃ y : Qc, vy (uv_layer l) = Fin y ∧ near M y 0.
Proof. intros H l Hl. destruct (H l Hl) as (x & y & -> & _ & Hy). eauto. Qed.

(** The box of an island whose coordinates have all moved by [(dx, dy)],
    up to [η], has moved by [(dx, dy)], up to [η]. *)
Lemma moved_box η M (uv_layer uv_layer' : UVLayer) island (dx dy : Q) :
  island ≠ [] → uvs_within M uv_layer island →
  moved_by η uv_layer uv_layer' island dx dy →
  ∃ x0 y0 x1 y1 x0' y0' x1' y1' : Qc,
    island_bbox uv_layer island = mkBBox (Fin x0) (Fin y0) (Fin x1) (Fin y1) ∧
    island_bbox uv_layer' island
    = mkBBox (Fin x0') (Fin y0') (Fin x1') (Fin y1') ∧
    near M x0 0 ∧ near M y0 0 ∧ near M x1 0 ∧ near M y1 0 ∧
    (∀ l (x y : Qc), l ∈ island → uv_layer l = mkVector (Fin x) (Fin y) →
              (x0 <= x)%Q ∧ (x <= x1)%Q ∧ (y0 <= y)%Q ∧ (y <= y1)%Q) ∧
    near η x0' (x0 + dx) ∧ near η y0' (y0 + dy) ∧
    near η x1' (x1 + dx) ∧ near η y1' (y1 + dy).
Proof.
  intros Hne Hin Hmove. rewrite !island_bbox_components.
  destruct (axis_extremes (λ l, vx (uv_layer l)) island M Hne
              (uvs_within_x _ _ _ Hin))
    as (x0 & x1 & Hx0 & Hx1 & Hnx0 & Hnx1 & Hax0 & Hax1 & Hbx).
  destruct (axis_extremes (λ l, vy (uv_layer l)) island M Hne
              (uvs_within_y _ _ _ Hin))
    as (y0 & y1 & Hy0 & Hy1 & Hny0 & Hny1 & Hay0 & Hay1 & Hby).
  destruct (axis_moved_box (λ l, vx (uv_layer l)) (λ l, vx (uv_layer' l))
              island x0 x1 dx η Hne Hax0 Hax1 Hbx)
    as (x0' & x1' & Hx0' & Hx1' & Hnx0' & Hnx1').
  { intros l Hl. destruct (Hmove l Hl) as (x & y & x' & y' & -> & -> & Hx & _).
    by exists x, x'. }
  destruct (axis_moved_box (λ l, vy (uv_layer l)) (λ l, vy (uv_layer' l))
              island y0 y1 dy η Hne Hay0 Hay1 Hby)
    as (y0' & y1' & Hy0' & Hy1' & Hny0' & Hny1').
  { intros l Hl. destruct (Hmove l Hl) as (x & y & x' & y' & -> & -> & _ & Hy).
    by exists y, y'. }
  exists x0, y0, x1, y1, x0', y0', x1', y1'.
  rewrite Hx0, Hx1, Hy0, Hy1, Hx0', Hx1', Hy0', Hy1'.
  do 6 (split; [done|]). split; [|done].
  intros l x y Hl Huv.
  destruct (Hbx l x Hl) as [? ?]; [by rewrite Huv|].
  destruct (Hby l y Hl) as [? ?]; [by rewrite Huv|]. done.
Qed.

Lemma center_of_box (x0 y0 x1 y1 : Qc) :
  ∃ cx cy : Qc,
    center_x (mkBBox (Fin x0) (Fin y0) (Fin x1) (Fin y1)) = Fin cx ∧
    center_y (mkBBox (Fin x0) (Fin y0) (Fin x1) (Fin y1)) = Fin cy ∧
    (cx + cx == x0 + x1)%Q ∧ (cy + cy == y0 + y1)%Q.
Proof.
  eexists _, _. split; [done|]. split; [done|].
  split; rewrite Qc_this_half; apply Qc_this_plus.
Qed.

Lemma unit_fraction (k : Z) (n : positive) :
  (0 ≤ k < Z.pos n)%Z →
  (0 <= (Qc_of_Z k / Qc_of_Z (Z.pos n))%Qc)%Q ∧
  ((Qc_of_Z k / Qc_of_Z (Z.pos n))%Qc <= 1)%Q.
Proof.
  intros Hk. split; unfold Qcdiv, Qcmult, Qcinv, Qc_of_Z, Q2Qc; cbn [this];
    rewrite ?Qred_correct; unfold Qle; simpl; nia.
Qed.

Lemma half_fraction (n : positive) :
  (0 <= inv_pos (2 * n))%Q ∧ (inv_pos (2 * n) + inv_pos (2 * n) <= 1)%Q.
Proof.
  rewrite inv_pos_Q. rewrite Qc_this_Q2Qc. split; unfold Qle; simpl; nia.
Qed.

(** ** Distances after a move *)

Lemma Qsquare_nonneg (x : Q) : (0 <= x * x)%Q.
Proof.
  destruct (Qlt_le_dec x 0) as [H|H].
  - assert (0 <= - x)%Q as H' by lra.
    pose proof (Qmult_le_0_compat _ _ H' H'). lra.
  - apply Qmult_le_0_compat; exact H.
Qed.

(** If two differences change by at most [2 h] each, the length of the
    vector they make changes by at most [3 h]. *)
Lemma rigid_core (a b u v r h : Q) :
  (0 <= r)%Q → (0 <= h)%Q →
  (- (2 * h) <= u)%Q → (u <= 2 * h)%Q → (- (2 * h) <= v)%Q → (v <= 2 * h)%Q →
  (a * a + b * b <= r * r)%Q →
  ((a + u) * (a + u) + (b + v) * (b + v) <= (r + 3 * h) * (r + 3 * h))%Q.
Proof.
  intros Hr Hh H1 H2 H3 H4 Hd.
  assert (0 <= 2 * h - u)%Q as P1 by lra. assert (0 <= 2 * h + u)%Q as P2 by lra.
  assert (0 <= 2 * h - v)%Q as P3 by lra. assert (0 <= 2 * h + v)%Q as P4 by lra.
  pose proof (Qmult_le_0_compat _ _ P1 P2) as Hu.
  pose proof (Qmult_le_0_compat _ _ P3 P4) as Hv.
  pose proof (Qsquare_nonneg (a * v - b * u)) as Hsq.
  pose proof (Qsquare_nonneg a) as Ha2. pose proof (Qsquare_nonneg b) as Hb2.
  pose proof (Qsquare_nonneg u) as Hu2. pose proof (Qsquare_nonneg v) as Hv2.
  pose proof (Qsquare_nonneg (h * r)) as Hhr2.
  pose proof (Qsquare_nonneg r) as Hr2.
  assert (0 <= r * r - (a * a + b * b))%Q as P6 by lra.
  assert (0 <= u * u + v * v)%Q as P7 by lra.
  assert (0 <= 8 * (h * h) - (u * u + v * v))%Q as P8 by lra.
  pose proof (Qmult_le_0_compat _ _ P6 P7) as Hp1.
  pose proof (Qmult_le_0_compat _ _ Hr2 P8) as Hp2.
  assert (a * u + b * v <= 3 * h * r)%Q as Hlin.
  { destruct (Qlt_le_dec (3 * h * r) (a * u + b * v)) as [Hlt|Hle]; [|exact Hle].
    exfalso.
    assert (0 <= 3 * h)%Q as P5 by lra.
    pose proof (Qmult_le_0_compat _ _ P5 Hr) as Hhr.
    assert (0 < a * u + b * v - 3 * h * r)%Q as Q1 by lra.
    assert (0 < a * u + b * v + 3 * h * r)%Q as Q2 by lra.
    pose proof (Qmult_lt_0_compat _ _ Q1 Q2) as Hq.
    lra. }
  lra.
Qed.

Lemma Qc_this_mult (a b : Qc) : (this (a * b)%Qc == this a * this b)%Q.
Proof. apply Qred_correct. Qed.

Lemma dist_sq_fin (x1 y1 x2 y2 : Qc) :
  ∃ d : Qc,
    dist_sq (mkVector (Fin x1) (Fin y1)) (mkVector (Fin x2) (Fin y2)) = Fin d ∧
    (d == (x1 - x2) * (x1 - x2) + (y1 - y2) * (y1 - y2))%Q.
Proof.
  eexists. split; [reflexivity|].
  rewrite Qc_this_plus, !Qc_this_mult, !Qc_this_plus, !Qc_this_opp. ring.
Qed.

(** Coordinates that have all moved by one vector, up to [η], keep
    their distances, up to [3 η]. *)
Lemma moved_by_rigid η (uv_layer uv_layer' : UVLayer) island (dx dy : Q) :
  (0 <= η)%Q → moved_by η uv_layer uv_layer' island dx dy →
  rigid_within (3 * η) uv_layer uv_layer' island.
Proof.
  intros Hη Hmove l1 l2 r Hl1 Hl2 Hr.
  destruct (Hmove l1 Hl1) as (x1 & y1 & x1' & y1' & -> & -> & Hx1 & Hy1).
  destruct (Hmove l2 Hl2) as (x2 & y2 & x2' & y2' & -> & -> & Hx2 & Hy2).
  destruct (dist_sq_fin x1 y1 x2 y2) as (d & Hd & Ed).
  destruct (dist_sq_fin x1' y1' x2' y2') as (d' & Hd' & Ed').
  unfold dist_le. rewrite Hd, Hd'. unfold near in *.
  split; intros (d0 & [= <-] & Hle).
  - exists d'. split; [done|]. rewrite Ed'. rewrite Ed in Hle.
    pose proof (rigid_core (x1 - x2) (y1 - y2)
                  (x1' - x2' - (x1 - x2)) (y1' - y2' - (y1 - y2)) r η Hr Hη
                  ltac:(lra) ltac:(lra) ltac:(lra) ltac:(lra) Hle) as H.
    lra.
  - exists d. split; [done|]. rewrite Ed. rewrite Ed' in Hle.
    pose proof (rigid_core (x1' - x2') (y1' - y2')
                  (x1 - x2 - (x1' - x2')) (y1 - y2 - (y1' - y2')) r η Hr Hη
                  ltac:(lra) ltac:(lra) ltac:(lra) ltac:(lra) Hle) as H.
    lra.
Qed.

Lemma moved_by_ext η (uv1 uv2 uv1' uv2' : UVLayer) island dx dy :
  (∀ l, l ∈ island → uv1 l = uv2 l) → (∀ l, l ∈ island → uv1' l = uv2' l) →
  moved_by η uv1 uv1' island dx dy → moved_by η uv2 uv2' island dx dy.
Proof.
  intros H1 H2 Hm l Hl. rewrite <- H1, <- H2 by done. by apply Hm.
Qed.

Lemma moved_by_weaken η η' (uv_layer uv_layer' : UVLayer) island dx dy :
  (η <= η')%Q → moved_by η uv_layer uv_layer' island dx dy →
  moved_by η' uv_layer uv_layer' island dx dy.
Proof.
  intros Hle Hm l Hl. destruct (Hm l Hl) as (x & y & x' & y' & ? & ? & Hx & Hy).
  exists x, y, x', y'. unfold near in *. repeat split; try done; lra.
Qed.

Lemma rigid_within_weaken κ κ' (uv_layer uv_layer' : UVLayer) island :
  (0 <= κ)%Q → (κ <= κ')%Q → rigid_within κ uv_layer uv_layer' island →
  rigid_within κ' uv_layer uv_layer' island.
Proof.
  intros H0 Hle Hr l1 l2 r Hl1 Hl2 Hr0.
  destruct (Hr l1 l2 r Hl1 Hl2 Hr0) as [H1 H2].
  assert (∀ d : Qc, (d <= (r + κ) * (r + κ))%Q → (d <= (r + κ') * (r + κ'))%Q)
    as Hmono.
  { intros d Hd. apply Qle_trans with ((r + κ) * (r + κ))%Q; [done|].
    assert (0 <= r + κ)%Q as P1 by lra. assert (0 <= κ' - κ)%Q as P2 by lra.
    pose proof (Qmult_le_0_compat _ _ P1 P2).
    pose proof (Qmult_le_0_compat _ _ P2 P2).
    assert (0 <= r + κ')%Q as P3 by lra.
    pose proof (Qmult_le_0_compat _ _ P2 P3). lra. }
  split; intros H.
  - destruct (H1 H) as (d & Hd & Hle'). exists d. auto.
  - destruct (H2 H) as (d & Hd & Hle'). exists d. auto.
Qed.

(** ** The offset in rounded arithmetic *)

Lemma offset_uv_fl_moved fl st direction cx cy ox oy :
  offset_guard_fl fl direction cx cy ox oy = true →
  offset_uv_fl fl st direction cx cy ox oy
  = update_at (offset_apply_fl fl st direction cx cy ox oy).
Proof.
  unfold offset_guard_fl, offset_uv_fl, update_at, offset_apply_fl.
  destruct (String.eqb direction "up" && _); [done|].
  destruct (String.eqb direction "down" && _); [done|].
  destruct (String.eqb direction "right" && _); [done|].
  by destruct (String.eqb direction "left" && _).
Qed.

Lemma offset_uv_fl_unmoved fl st direction cx cy ox oy :
  offset_guard_fl fl direction cx cy ox oy = false →
  offset_uv_fl fl st direction cx cy ox oy = (λ uv_layer _, uv_layer) ∧
  ∀ v, offset_apply_fl fl st direction cx cy ox oy v = v.
Proof.
  unfold offset_guard_fl, offset_uv_fl, offset_apply_fl.
  destruct (String.eqb direction "up" && _); [done|].
  destruct (String.eqb direction "down" && _); [done|].
  destruct (String.eqb direction "right" && _); [done|].
  by destruct (String.eqb direction "left" && _).
Qed.

Lemma offset_island_fl_unmoved fl st direction columns rows
    (uv_layer : UVLayer) island :
  let bb := island_bbox uv_layer island in
  offset_guard_fl fl direction (center_x_fl fl bb) (center_y_fl fl bb)
    (clamped_step_fl fl columns) (clamped_step_fl fl rows) = false →
  offset_island_fl fl st direction columns rows uv_layer island = uv_layer.
Proof.
  intros bb Hg. unfold offset_island_fl. fold bb.
  rewrite (proj1 (offset_uv_fl_unmoved _ st _ _ _ _ _ Hg)). apply foldl_const.
Qed.

Lemma offset_island_fl_in fl st direction columns rows (uv_layer : UVLayer)
    island l :
  NoDup island → l ∈ island →
  let bb := island_bbox uv_layer island in
  offset_island_fl fl st direction columns rows uv_layer island l
  = offset_apply_fl fl st direction (center_x_fl fl bb) (center_y_fl fl bb)
      (clamped_step_fl fl columns) (clamped_step_fl fl rows) (uv_layer l).
Proof.
  intros Hnd Hl bb.
  destruct (offset_guard_fl fl direction (center_x_fl fl bb) (center_y_fl fl bb)
              (clamped_step_fl fl columns) (clamped_step_fl fl rows)) eqn:Hg.
  - unfold offset_island_fl. fold bb. rewrite (offset_uv_fl_moved _ _ _ _ _ _ _ Hg).
    by apply foldl_update_at_in.
  - rewrite offset_island_fl_unmoved by done.
    by rewrite (proj2 (offset_uv_fl_unmoved _ st _ _ _ _ _ Hg)).
Qed.

Lemma offset_island_fl_local fl st direction columns rows :
  local_move (offset_island_fl fl st direction columns rows).
Proof.
  split.
  - intros uv_layer island l Hl.
    destruct (offset_guard_fl fl direction
                (center_x_fl fl (island_bbox uv_layer island))
                (center_y_fl fl (island_bbox uv_layer island))
                (clamped_step_fl fl columns) (clamped_step_fl fl rows)) eqn:Hg.
    + unfold offset_island_fl. rewrite (offset_uv_fl_moved _ _ _ _ _ _ _ Hg).
      by apply foldl_update_at_notin.
    + by rewrite offset_island_fl_unmoved.
  - intros uv1 uv2 island H l Hl.
    destruct (offset_guard_fl fl direction
                (center_x_fl fl (island_bbox uv1 island))
                (center_y_fl fl (island_bbox uv1 island))
                (clamped_step_fl fl columns) (clamped_step_fl fl rows)) eqn:Hg.
    + unfold offset_island_fl. rewrite <- (island_bbox_ext uv1 uv2 island H).
      rewrite (offset_uv_fl_moved _ _ _ _ _ _ _ Hg).
      apply foldl_update_at_ext; auto.
    + rewrite offset_island_fl_unmoved by done.
      rewrite offset_island_fl_unmoved; [by apply H|].
      by rewrite <- (island_bbox_ext uv1 uv2 island H).
Qed.

Lemma uvs_within_ext M (uv1 uv2 : UVLayer) island :
  (∀ l, l ∈ island → uv1 l = uv2 l) →
  uvs_within M uv1 island → uvs_within M uv2 island.
Proof. intros H Hin l Hl. rewrite <- H by done. by apply Hin. Qed.

(** The box of a list of coordinates that is covered by sublists whose
    boxes are all centered on [t], up to [κ / 2], is centered on [t],
    up to [κ / 2]. *)
Lemma axis_covered {A : Type} (g : A → fnum) (L : list A) (M κ : Q) (t : Qc) :
  L ≠ [] → (∀ l, l ∈ L → ∃ x : Qc, g l = Fin x ∧ near M x 0) →
  (∀ l, l ∈ L → ∃ (L' : list A) (lo' hi' : Qc),
     l ∈ L' ∧ (∀ l', l' ∈ L' → l' ∈ L) ∧
     foldl (λ acc l, py_min acc (g l)) PInf L' = Fin lo' ∧
     foldl (λ acc l, py_max acc (g l)) NInf L' = Fin hi' ∧
     near κ (lo' + hi') (t + t)) →
  ∃ lo hi : Qc,
    foldl (λ acc l, py_min acc (g l)) PInf L = Fin lo ∧
    foldl (λ acc l, py_max acc (g l)) NInf L = Fin hi ∧
    near κ (lo + hi) (t + t).
Proof.
  intros Hne Hg Hcov.
  destruct (axis_extremes g L M Hne Hg)
    as (lo & hi & Hlo & Hhi & _ & _ & (la & Hla & Hga) & (lb & Hlb & Hgb) & Hbox).
  exists lo, hi. split; [done|]. split; [done|].
  assert (∀ l, l ∈ L → ∃ lo' hi' : Qc,
            (lo <= lo')%Q ∧ (hi' <= hi)%Q ∧ near κ (lo' + hi') (t + t) ∧
            ∀ x : Qc, g l = Fin x → (lo' <= x)%Q ∧ (x <= hi')%Q) as Hpart.
  { intros l Hl. destruct (Hcov l Hl) as (L' & lo' & hi' & HlL' & Hsub & Hlo' & Hhi' & Hn).
    assert (L' ≠ []) as Hne' by (by intros ->; apply elem_of_nil in HlL').
    assert (∀ l', l' ∈ L' → ∃ x : Qc, g l' = Fin x ∧ near M x 0) as Hg' by auto.
    destruct (axis_extremes g L' M Hne' Hg')
      as (lo_ & hi_ & Hlo_ & Hhi_ & _ & _ & (l0 & Hl0 & Hg0) & (l1 & Hl1 & Hg1) & Hbox').
    rewrite Hlo' in Hlo_. injection Hlo_ as <-.
    rewrite Hhi' in Hhi_. injection Hhi_ as <-.
    exists lo', hi'.
    split; [by apply (Hbox l0 lo' (Hsub _ Hl0) Hg0)|].
    split; [by apply (Hbox l1 hi' (Hsub _ Hl1) Hg1)|].
    split; [done|]. intros x Hx. by apply (Hbox' l x HlL' Hx). }
  destruct (Hpart la Hla) as (loa & hia & H1 & H2 & Hna & Hxa).
  destruct (Hpart lb Hlb) as (lob & hib & H3 & H4 & Hnb & Hxb).
  destruct (Hxa lo Hga) as [H5 H6]. destruct (Hxb hi Hgb) as [H7 H8].
  unfold near in *. split; lra.
Qed.

Lemma island_bbox_covered_fl (uv_layer : UVLayer) (L : list loop) (M κ : Q)
    (tx ty : Qc) :
  L ≠ [] → uvs_within M uv_layer L →
  (∀ l, l ∈ L → ∃ (L' : list loop) (x0 y0 x1 y1 : Qc),
     l ∈ L' ∧ (∀ l', l' ∈ L' → l' ∈ L) ∧
     island_bbox uv_layer L' = mkBBox (Fin x0) (Fin y0) (Fin x1) (Fin y1) ∧
     near κ (x0 + x1) (tx + tx) ∧ near κ (y0 + y1) (ty + ty)) →
  ∃ x0 y0 x1 y1 : Qc,
    island_bbox uv_layer L = mkBBox (Fin x0) (Fin y0) (Fin x1) (Fin y1) ∧
    near κ (x0 + x1) (tx + tx) ∧ near κ (y0 + y1) (ty + ty).
Proof.
  intros Hne Hin Hcov. rewrite island_bbox_components.
  destruct (axis_covered (λ l, vx (uv_layer l)) L M κ tx Hne
              (uvs_within_x _ _ _ Hin)) as (x0 & x1 & -> & -> & Hx).
  { intros l Hl. destruct (Hcov l Hl)
      as (L' & a0 & b0 & a1 & b1 & HlL' & Hsub & Hbb & Hnx & _).
    rewrite island_bbox_components in Hbb. injection Hbb as E1 E2 E3 E4.
    by exists L', a0, a1. }
  destruct (axis_covered (λ l, vy (uv_layer l)) L M κ ty Hne
              (uvs_within_y _ _ _ Hin)) as (y0 & y1 & -> & -> & Hy).
  { intros l Hl. destruct (Hcov l Hl)
      as (L' & a0 & b0 & a1 & b1 & HlL' & Hsub & Hbb & _ & Hny).
    rewrite island_bbox_components in Hbb. injection Hbb as E1 E2 E3 E4.
    by exists L', b0, b1. }
  by exists x0, y0, x1, y1.
Qed.

Section Analysis.
Context (fl st : fnum → fnum) (B ε δ : Q).
Hypothesis Hfl : rounds fl B ε.
Hypothesis Hst : rounds st B δ.
Hypothesis Hε0 : (0 <= ε)%Q.
Hypothesis Hδ0 : (0 <= δ)%Q.
Hypothesis Hε : (ε <= 1 # 16)%Q.
Hypothesis Hδ : (δ <= 1 # 16)%Q.

Lemma fl_near (x : Qc) (R : Q) :
  near R x 0 → (R <= B)%Q → ∃ y : Qc, fl (Fin x) = Fin y ∧ near ε y x.
Proof. unfold near. intros Hx HR. apply Hfl; lra. Qed.

Lemma st_near (x : Qc) (R : Q) :
  near R x 0 → (R <= B)%Q → ∃ y : Qc, st (Fin x) = Fin y ∧ near δ y x.
Proof. unfold near. intros Hx HR. apply Hst; lra. Qed.

(** [(lo + hi) / 2] *)
Lemma axis_center (M : Q) (lo hi : Qc) :
  near M lo 0 → near M hi 0 → (2 * M + 1 <= B)%Q →
  ∃ c : Qc, fl (fhalf (fl (fadd (Fin lo) (Fin hi)))) = Fin c ∧
            near (3 * ε) (c + c) (lo + hi).
Proof.
  intros Hlo Hhi HB. cbn [fadd].
  pose proof (Qc_this_plus lo hi) as Hsum.
  destruct (fl_near (lo + hi)%Qc (2 * M)) as (s & Hs & Hsn);
    [unfold near in *; lra..|].
  rewrite Hs. cbn [fhalf].
  pose proof (Qc_this_half s) as Hh.
  destruct (fl_near (s / Qc_two)%Qc (2 * M + 1)) as (c & Hc & Hcn);
    [unfold near in *; lra..|].
  exists c. split; [done|]. unfold near in *. lra.
Qed.

(** [target - center] *)
Lemma axis_offset (R : Q) (t c : Qc) :
  near R (t - c) 0 → (R <= B)%Q →
  ∃ o : Qc, fl (fsub (Fin t) (Fin c)) = Fin o ∧ near ε o (t - c).
Proof.
  intros Hr HB. unfold fsub. cbn [fneg fadd].
  pose proof (Qc_this_plus t (- c)) as Hsum.
  pose proof (Qc_this_opp c) as Hopp.
  destruct (fl_near (t + - c)%Qc R) as (o & Ho & Hon);
    [unfold near in *; lra..|].
  exists o. split; [done|]. unfold near in *. lra.
Qed.

(** [uv.x += offset] *)
Lemma axis_write (R : Q) (x o : Qc) :
  near R (x + o) 0 → (R + ε <= B)%Q →
  ∃ x' : Qc, st (fl (fadd (Fin x) (Fin o))) = Fin x' ∧ near (ε + δ) x' (x + o).
Proof.
  intros Hr HB. cbn [fadd].
  pose proof (Qc_this_plus x o) as Hsum.
  destruct (fl_near (x + o)%Qc R) as (y & Hy & Hyn);
    [unfold near in *; lra..|].
  rewrite Hy.
  destruct (st_near y (R + ε)) as (x' & Hx' & Hxn);
    [unfold near in *; lra..|].
  exists x'. split; [done|]. unfold near in *. lra.
Qed.

(** One axis of the snap of an island: the offset the code computes and
    what it writes. *)
Lemma axis_snap {A : Type} (g : A → fnum) (L : list A) (M : Q) (t : Qc) :
  L ≠ [] → (∀ l, l ∈ L → ∃ x : Qc, g l = Fin x ∧ near M x 0) →
  (0 <= M)%Q → near 2 t 0 → (2 * M + 4 <= B)%Q →
  let lo := foldl (λ acc l, py_min acc (g l)) PInf L in
  let hi := foldl (λ acc l, py_max acc (g l)) NInf L in
  let offset := fl (fsub (Fin t) (fl (fhalf (fl (fadd lo hi))))) in
  ∃ lo_ hi_ o : Qc,
    lo = Fin lo_ ∧ hi = Fin hi_ ∧ offset = Fin o ∧
    near (5 * ε) (o + o) (t + t - (lo_ + hi_)) ∧
    ∀ l, l ∈ L →
      ∃ x x' : Qc, g l = Fin x ∧ st (fl (fadd (g l) (Fin o))) = Fin x' ∧
                   near (ε + δ) x' (x + o).
Proof.
  intros Hne Hg HM Ht HB lo hi offset.
  destruct (axis_extremes g L M Hne Hg)
    as (lo_ & hi_ & Hlo & Hhi & Hnlo & Hnhi & Hatlo & Hathi & Hbox).
  destruct (axis_center M lo_ hi_) as (c & Hc & Hcn); [done|done|lra|].
  destruct (axis_offset (M + 3) t c) as (o & Ho & Hon);
    [unfold near in *; lra|lra|].
  exists lo_, hi_, o. unfold offset, lo, hi. rewrite Hlo, Hhi, Hc, Ho.
  do 3 (split; [done|]). split; [unfold near in *; lra|].
  intros l Hl. destruct (Hg l Hl) as (x & Hx & Hxn). rewrite Hx.
  destruct (Hbox l x Hl Hx) as [Hx1 Hx2].
  destruct (axis_write (M + 3) x o) as (x' & Hx' & Hxn');
    [unfold near in *; lra|lra|].
  exists x, x'. done.
Qed.

(** The snap of one island: the offsets it computes are target minus
    center of the box, and every coordinate moves by them, up to
    rounding. *)
Lemma snap_island_fl_moves (uv_layer : UVLayer) island (M : Q) (tx ty : Qc) :
  NoDup island → island ≠ [] → uvs_within M uv_layer island →
  (0 <= M)%Q → near 2 tx 0 → near 2 ty 0 → (2 * M + 4 <= B)%Q →
  ∃ x0 y0 x1 y1 ox oy : Qc,
    island_bbox uv_layer island = mkBBox (Fin x0) (Fin y0) (Fin x1) (Fin y1) ∧
    near (5 * ε) (ox + ox) (tx + tx - (x0 + x1)) ∧
    near (5 * ε) (oy + oy) (ty + ty - (y0 + y1)) ∧
    moved_by (ε + δ) uv_layer
      (snap_island_fl fl st (Fin tx) (Fin ty) uv_layer island) island ox oy.
Proof.
  intros Hnd Hne Hin HM Htx Hty HB.
  destruct (axis_snap (λ l, vx (uv_layer l)) island M tx Hne
              (uvs_within_x _ _ _ Hin) HM Htx HB)
    as (x0 & x1 & ox & Hx0 & Hx1 & Hox & Hnox & Hwx).
  destruct (axis_snap (λ l, vy (uv_layer l)) island M ty Hne
              (uvs_within_y _ _ _ Hin) HM Hty HB)
    as (y0 & y1 & oy & Hy0 & Hy1 & Hoy & Hnoy & Hwy).
  exists x0, y0, x1, y1, ox, oy.
  assert (island_bbox uv_layer island
          = mkBBox (Fin x0) (Fin y0) (Fin x1) (Fin y1)) as Hbb.
  { rewrite island_bbox_components. by rewrite Hx0, Hx1, Hy0, Hy1. }
  split; [done|]. split; [done|]. split; [done|].
  intros l Hl. rewrite snap_island_fl_in by done. cbv zeta.
  unfold center_x_fl, center_y_fl. rewrite island_bbox_components.
  cbn [bbox_min0 bbox_min1 bbox_max0 bbox_max1].
  rewrite Hox, Hoy.
  destruct (Hwx l Hl) as (x & x' & Hx & Hx' & Hxn).
  destruct (Hwy l Hl) as (y & y' & Hy & Hy' & Hyn).
  exists x, y, x', y'. rewrite Hx', Hy'.
  split; [|done]. destruct (uv_layer l) as [vx0 vy0]. simpl in *. by subst.
Qed.

(** The target the code computes lies within four roundings of the
    center of the cell. *)
Lemma snap_target_fl_near (columns rows : positive) (cell_index : N) :
  (cell_index < N.pos columns * N.pos rows)%N → (3 <= B)%Q →
  ∃ ex ey tx ty : Qc,
    snap_target columns rows cell_index = Some (ex, ey) ∧
    snap_target_fl fl columns rows cell_index = Some (Fin tx, Fin ty) ∧
    near (3 * ε) tx ex ∧ near (4 * ε) ty ey ∧
    near 2 tx 0 ∧ near 2 ty 0.
Proof using All.
  intros Hlt HB. rewrite snap_target_cell by done.
  destruct (cell_row_column columns rows cell_index Hlt) as [Hc Hr].
  unfold snap_target_fl, grid_x_fl, grid_y_fl.
  set (row := (cell_index `div` N.pos columns)%N) in *.
  set (column := (cell_index `mod` N.pos columns)%N) in *.
  assert (N.to_nat column < Pos.to_nat columns) as Hcn by lia.
  assert (N.to_nat row < Pos.to_nat rows) as Hrn by lia.
  rewrite !list_lookup_fmap, !lookup_seq_lt by done. simpl.
  rewrite !N_nat_Z.
  destruct (unit_fraction (Z.of_N column) columns Hc) as [Hqx0 Hqx1].
  destruct (unit_fraction (Z.of_N row) rows Hr) as [Hqy0 Hqy1].
  destruct (half_fraction columns) as [Hhx0 Hhx1].
  destruct (half_fraction rows) as [Hhy0 Hhy1].
  fold (inv_pos (2 * columns)). fold (inv_pos (2 * rows)).
  set (qx := (Qc_of_Z (Z.of_N column) / Qc_of_Z (Z.pos columns))%Qc) in *.
  set (qy := (Qc_of_Z (Z.of_N row) / Qc_of_Z (Z.pos rows))%Qc) in *.
  set (hx := inv_pos (2 * columns)) in *.
  set (hy := inv_pos (2 * rows)) in *.
  clearbody qx qy hx hy.
  pose proof (Qc_this_Q2Qc 1) as H1.
  destruct (fl_near qx 1) as (gx & -> & Hgx); [unfold near; lra..|].
  destruct (fl_near hx 1) as (fx & -> & Hfx); [unfold near; lra..|].
  destruct (fl_near qy 1) as (gy & -> & Hgy); [unfold near; lra..|].
  destruct (fl_near hy 1) as (fy & -> & Hfy); [unfold near; lra..|].
  cbn [fsub fneg fadd].
  pose proof (Qc_this_plus 1 (- gy)) as Hs1. pose proof (Qc_this_opp gy) as Ho1.
  destruct (fl_near (1 + - gy)%Qc 2) as (gy1 & -> & Hgy1);
    [unfold near in *; lra..|].
  cbn [fsub fneg fadd].
  pose proof (Qc_this_plus gx fx) as Hs2.
  destruct (fl_near (gx + fx)%Qc 2) as (tx & -> & Htx);
    [unfold near in *; lra..|].
  pose proof (Qc_this_plus gy1 (- fy)) as Hs3. pose proof (Qc_this_opp fy) as Ho3.
  destruct (fl_near (gy1 + - fy)%Qc 2) as (ty & -> & Hty);
    [unfold near in *; lra..|].
  exists (qx + hx)%Qc, (1 - qy - hy)%Qc, tx, ty.
  split; [done|]. split; [done|].
  pose proof (Qc_this_plus qx hx) as Hs4.
  pose proof (Qc_this_plus (1 - qy) (- hy)) as Hs5.
  pose proof (Qc_this_plus 1 (- qy)) as Hs6.
  pose proof (Qc_this_opp qy) as Ho6. pose proof (Qc_this_opp hy) as Ho5.
  unfold Qcminus, near in *. repeat split; lra.
Qed.

(** The snap of a mesh centers every island on the center of the cell,
    up to [δ + 8 ε]. *)
Lemma snap_mesh_fl_centers pick m (uv_layer : UVLayer) columns rows
    cell_index (M : Q) :
  (cell_index < N.pos columns * N.pos rows)%N →
  (0 <= M)%Q → (2 * M + 4 <= B)%Q →
  ∃ ex ey tx ty : Qc,
    snap_target columns rows cell_index = Some (ex, ey) ∧
    snap_target_fl fl columns rows cell_index = Some (Fin tx, Fin ty) ∧
    near (3 * ε) tx ex ∧ near (4 * ε) ty ey ∧
    ∀ island, island ∈ find_islands pick m uv_layer → island ≠ [] →
      uvs_within M uv_layer island →
      let uv' := foldl (snap_island_fl fl st (Fin tx) (Fin ty)) uv_layer
                       (find_islands pick m uv_layer) in
      ∃ mx my cx cy : Qc,
        center_x (island_bbox uv_layer island) = Fin mx ∧
        center_y (island_bbox uv_layer island) = Fin my ∧
        center_x (island_bbox uv' island) = Fin cx ∧
        center_y (island_bbox uv' island) = Fin cy ∧
        near (δ + 8 * ε) cx ex ∧ near (δ + 8 * ε) cy ey ∧
        moved_by (δ + 8 * ε) uv_layer uv' island (ex - mx) (ey - my).
Proof using All.
  intros Hlt HM HB.
  destruct (snap_target_fl_near columns rows cell_index Hlt)
    as (ex & ey & tx & ty & Hex & Htfl & Hxn & Hyn & Hx2 & Hy2); [lra|].
  exists ex, ey, tx, ty. do 4 (split; [done|]).
  intros island HI Hne Hin uv'.
  pose proof (find_islands_NoDup _ _ _ _ HI) as Hnd.
  set (uv1 := snap_island_fl fl st (Fin tx) (Fin ty) uv_layer island).
  assert (∀ l, l ∈ island → uv1 l = uv' l) as Huv'.
  { intros l Hl. symmetry. apply foldl_move_island;
      auto using snap_island_fl_local. apply find_islands_disjoint. }
  destruct (snap_island_fl_moves uv_layer island M tx ty Hnd Hne Hin HM Hx2 Hy2 HB)
    as (x0 & y0 & x1 & y1 & ox & oy & Hbb & Hox & Hoy & Hmove).
  fold uv1 in Hmove. clearbody uv1 uv'.
  destruct (moved_box _ M uv_layer uv1 island ox oy Hne Hin Hmove)
    as (x0_ & y0_ & x1_ & y1_ & x0' & y0' & x1' & y1' & Hbb_ & Hbb' &
        Hnx0 & Hny0 & Hnx1 & Hny1 & Hbox & Hx0' & Hy0' & Hx1' & Hy1').
  rewrite Hbb in Hbb_. injection Hbb_ as <- <- <- <-.
  rewrite <- (island_bbox_ext uv1 uv' island Huv'), Hbb, Hbb'.
  destruct (center_of_box x0 y0 x1 y1) as (mx & my & Hmx & Hmy & Emx & Emy).
  destruct (center_of_box x0' y0' x1' y1') as (cx & cy & Hcx & Hcy & Ecx & Ecy).
  exists mx, my, cx, cy. do 4 (split; [done|]).
  split; [unfold near in *; lra|]. split; [unfold near in *; lra|].
  intros l Hl. destruct (Hmove l Hl) as (x & y & x' & y' & Hv & Hv' & Hx' & Hy').
  exists x, y, x', y'. split; [done|].
  split; [by rewrite <- (Huv' l Hl)|]. unfold near in *. split; lra.
Qed.
(** [max(0, min(1, 1/n))] *)
Lemma clamped_step_fl_fin (n : positive) :
  (1 <= B)%Q →
  ∃ s : Qc, clamped_step_fl fl n = Fin s ∧ (0 <= s)%Q ∧ (s <= 1)%Q.
Proof.
  intros HB. unfold clamped_step_fl.
  pose proof (inv_pos_positive n) as Hpos. unfold Qclt in Hpos.
  destruct (inv_pos_le_1 n) as [Hlt%Qc_ltb_lt|Heq].
  - unfold Qclt in Hlt.
    pose proof (Qc_this_Q2Qc 0) as H0. pose proof (Qc_this_Q2Qc 1) as H1.
    destruct (fl_near (inv_pos n) 1) as (f & -> & Hf); [unfold near; lra..|].
    unfold py_min, py_max, fgt. cbn [flt].
    destruct (Qc_ltb f 1) eqn:E1; cbn [flt].
    + apply Qc_ltb_lt in E1. unfold Qclt in E1.
      destruct (Qc_ltb 0 f) eqn:E0.
      * apply Qc_ltb_lt in E0. unfold Qclt in E0. exists f. split; [done|]. lra.
      * exists 0%Qc. split; [done|]. lra.
    + rewrite (proj2 (Qc_ltb_lt 0 1)) by done. exists 1%Qc. split; [done|]. lra.
  - rewrite Heq in *.
    pose proof (Qc_this_Q2Qc 0) as H0. pose proof (Qc_this_Q2Qc 1) as H1.
    destruct (fl_near 1%Qc 1) as (f & -> & Hf); [unfold near; lra..|].
    unfold py_min, py_max, fgt. cbn [flt].
    destruct (Qc_ltb f 1) eqn:E1; cbn [flt].
    + apply Qc_ltb_lt in E1. unfold Qclt in E1.
      destruct (Qc_ltb 0 f) eqn:E0.
      * apply Qc_ltb_lt in E0. unfold Qclt in E0. exists f. split; [done|]. lra.
      * exists 0%Qc. split; [done|]. lra.
    + rewrite (proj2 (Qc_ltb_lt 0 1)) by done. exists 1%Qc. split; [done|]. lra.
Qed.

(** What the offset makes of a coordinate: it adds one of five vectors,
    up to rounding. *)
Lemma offset_apply_fl_moves direction (cx cy : fnum) (sx sy : Qc) (M : Q) :
  (0 <= sx)%Q → (sx <= 1)%Q → (0 <= sy)%Q → (sy <= 1)%Q →
  (0 <= M)%Q → (M + 2 <= B)%Q →
  ∃ dx dy : Q,
    near 1 dx 0 ∧ near 1 dy 0 ∧
    ∀ x y : Qc, near M x 0 → near M y 0 →
      ∃ x' y' : Qc,
        offset_apply_fl fl st direction cx cy (Fin sx) (Fin sy)
          (mkVector (Fin x) (Fin y)) = mkVector (Fin x') (Fin y') ∧
        near (ε + δ) x' (x + dx) ∧ near (ε + δ) y' (y + dy).
Proof.
  intros Hsx0 Hsx1 Hsy0 Hsy1 HM HB. unfold offset_apply_fl. cbn [vx vy].
  pose proof (Qc_this_opp sx) as Hox. pose proof (Qc_this_opp sy) as Hoy.
  destruct (String.eqb direction "up" && _).
  { exists 0%Q, (this sy). split; [unfold near; lra|]. split; [unfold near; lra|].
    intros x y Hx Hy.
    destruct (axis_write (M + 1) y sy) as (y' & -> & Hy');
      [unfold near in *; lra..|].
    exists x, y'. split; [done|]. unfold near in *. split; [lra|done]. }
  destruct (String.eqb direction "down" && _).
  { exists 0%Q, (- this sy)%Q. split; [unfold near; lra|].
    split; [unfold near; lra|].
    intros x y Hx Hy. unfold fsub. cbn [fneg].
    destruct (axis_write (M + 1) y (- sy)%Qc) as (y' & -> & Hy');
      [unfold near in *; lra..|].
    exists x, y'. split; [done|]. unfold near in *. split; lra. }
  destruct (String.eqb direction "right" && _).
  { exists (this sx), 0%Q. split; [unfold near; lra|]. split; [unfold near; lra|].
    intros x y Hx Hy.
    destruct (axis_write (M + 1) x sx) as (x' & -> & Hx');
      [unfold near in *; lra..|].
    exists x', y. split; [done|]. unfold near in *. split; [done|lra]. }
  destruct (String.eqb direction "left" && _).
  { exists (- this sx)%Q, 0%Q. split; [unfold near; lra|].
    split; [unfold near; lra|].
    intros x y Hx Hy. unfold fsub. cbn [fneg].
    destruct (axis_write (M + 1) x (- sx)%Qc) as (x' & -> & Hx');
      [unfold near in *; lra..|].
    exists x', y. split; [done|]. unfold near in *. split; lra. }
  exists 0%Q, 0%Q. split; [unfold near; lra|]. split; [unfold near; lra|].
  intros x y Hx Hy. exists x, y. split; [done|]. unfold near in *. split; lra.
Qed.

(** The offset of one island adds one vector to every coordinate, up to
    rounding. *)
Lemma offset_island_fl_moves direction columns rows (uv_layer : UVLayer)
    island (M : Q) :
  NoDup island → uvs_within M uv_layer island →
  (0 <= M)%Q → (M + 2 <= B)%Q →
  ∃ dx dy : Q,
    near 1 dx 0 ∧ near 1 dy 0 ∧
    moved_by (ε + δ) uv_layer
      (offset_island_fl fl st direction columns rows uv_layer island)
      island dx dy.
Proof.
  intros Hnd Hin HM HB.
  destruct (clamped_step_fl_fin columns) as (sx & Hsx & Hsx0 & Hsx1); [lra|].
  destruct (clamped_step_fl_fin rows) as (sy & Hsy & Hsy0 & Hsy1); [lra|].
  destruct (offset_apply_fl_moves direction
              (center_x_fl fl (island_bbox uv_layer island))
              (center_y_fl fl (island_bbox uv_layer island))
              sx sy M Hsx0 Hsx1 Hsy0 Hsy1 HM HB)
    as (dx & dy & Hdx & Hdy & Happ).
  exists dx, dy. split; [done|]. split; [done|].
  intros l Hl. destruct (Hin l Hl) as (x & y & Hv & Hx & Hy).
  destruct (Happ x y Hx Hy) as (x' & y' & Hv' & Hx' & Hy').
  exists x, y, x', y'. split; [done|]. split; [|done].
  rewrite offset_island_fl_in by done. cbv zeta. by rewrite Hsx, Hsy, Hv.
Qed.

(** Both operators, on the islands of a mesh: every island moves by one
    vector, up to rounding. *)
Lemma mesh_fl_moves pick m (uv_layer : UVLayer) island (M : Q) :
  island ∈ find_islands pick m uv_layer → uvs_within M uv_layer island →
  (0 <= M)%Q → (2 * M + 4 <= B)%Q →
  (∀ tx ty : Qc, near 2 tx 0 → near 2 ty 0 →
     ∃ dx dy : Q,
       moved_by (ε + δ) uv_layer
         (foldl (snap_island_fl fl st (Fin tx) (Fin ty)) uv_layer
                (find_islands pick m uv_layer)) island dx dy) ∧
  (∀ direction columns rows,
     ∃ dx dy : Q,
       moved_by (ε + δ) uv_layer
         (foldl (offset_island_fl fl st direction columns rows) uv_layer
                (find_islands pick m uv_layer)) island dx dy).
Proof using All.
  intros HI Hin HM HB.
  pose proof (find_islands_NoDup _ _ _ _ HI) as Hnd.
  pose proof (find_islands_disjoint pick m uv_layer) as Hdisj.
  split.
  - intros tx ty Htx Hty.
    destruct (decide (island = [])) as [->|Hne].
    { exists 0%Q, 0%Q. by intros l ?%elem_of_nil. }
    destruct (snap_island_fl_moves uv_layer island M tx ty Hnd Hne Hin HM Htx Hty HB)
      as (_ & _ & _ & _ & ox & oy & _ & _ & _ & Hmove).
    exists (this ox), (this oy).
    apply (moved_by_ext _ uv_layer uv_layer
             (snap_island_fl fl st (Fin tx) (Fin ty) uv_layer island));
      [done| |done].
    intros l Hl. symmetry.
    by apply foldl_move_island; auto using snap_island_fl_local.
  - intros direction columns rows.
    destruct (offset_island_fl_moves direction columns rows uv_layer island M
                Hnd Hin HM ltac:(lra)) as (dx & dy & _ & _ & Hmove).
    exists dx, dy.
    apply (moved_by_ext _ uv_layer uv_layer
             (offset_island_fl fl st direction columns rows uv_layer island));
      [done| |done].
    intros l Hl. symmetry.
    by apply foldl_move_island; auto using offset_island_fl_local.
Qed.
(** After the snap of an island its coordinates are bounded and its box
    is centered on the target, up to [δ + 7/2 ε]. *)
Lemma snapped_island_fl (uv_layer : UVLayer) island (M : Q) (tx ty : Qc) :
  NoDup island → island ≠ [] → uvs_within M uv_layer island →
  (0 <= M)%Q → near 2 tx 0 → near 2 ty 0 → (2 * M + 4 <= B)%Q →
  let uv1 := snap_island_fl fl st (Fin tx) (Fin ty) uv_layer island in
  uvs_within (M + 3) uv1 island ∧
  ∃ x0 y0 x1 y1 : Qc,
    island_bbox uv1 island = mkBBox (Fin x0) (Fin y0) (Fin x1) (Fin y1) ∧
    near (2 * δ + 7 * ε) (x0 + x1) (tx + tx) ∧
    near (2 * δ + 7 * ε) (y0 + y1) (ty + ty).
Proof.
  intros Hnd Hne Hin HM Htx Hty HB uv1.
  destruct (snap_island_fl_moves uv_layer island M tx ty Hnd Hne Hin HM Htx Hty HB)
    as (x0 & y0 & x1 & y1 & ox & oy & Hbb & Hox & Hoy & Hmove).
  fold uv1 in Hmove. clearbody uv1.
  destruct (moved_box _ M uv_layer uv1 island ox oy Hne Hin Hmove)
    as (x0_ & y0_ & x1_ & y1_ & x0' & y0' & x1' & y1' & Hbb_ & Hbb' &
        Hnx0 & Hny0 & Hnx1 & Hny1 & Hbox & Hx0' & Hy0' & Hx1' & Hy1').
  rewrite Hbb in Hbb_. injection Hbb_ as <- <- <- <-.
  split.
  - intros l Hl. destruct (Hmove l Hl) as (x & y & x' & y' & Hv & Hv' & Hx' & Hy').
    destruct (Hbox l x y Hl Hv) as (B1 & B2 & B3 & B4).
    exists x', y'. split; [done|]. unfold near in *. repeat split; lra.
  - exists x0', y0', x1', y1'. split; [done|]. unfold near in *.
    repeat split; lra.
Qed.

(** The snap of an island whose box is centered on the target already,
    up to [κ / 2], moves its coordinates by rounding errors only. *)
Lemma snap_centered_island_fl (uv_layer : UVLayer) island (M κ : Q)
    (tx ty x0 y0 x1 y1 : Qc) :
  NoDup island → island ≠ [] → uvs_within M uv_layer island →
  (0 <= M)%Q → near 2 tx 0 → near 2 ty 0 → (2 * M + 4 <= B)%Q →
  island_bbox uv_layer island = mkBBox (Fin x0) (Fin y0) (Fin x1) (Fin y1) →
  near κ (x0 + x1) (tx + tx) → near κ (y0 + y1) (ty + ty) →
  moved_by ((1 # 2) * κ + (7 # 2) * ε + δ) uv_layer
    (snap_island_fl fl st (Fin tx) (Fin ty) uv_layer island) island 0 0.
Proof.
  intros Hnd Hne Hin HM Htx Hty HB Hbb Hκx Hκy.
  destruct (snap_island_fl_moves uv_layer island M tx ty Hnd Hne Hin HM Htx Hty HB)
    as (x0_ & y0_ & x1_ & y1_ & ox & oy & Hbb_ & Hox & Hoy & Hmove).
  rewrite Hbb in Hbb_. injection Hbb_ as <- <- <- <-.
  intros l Hl. destruct (Hmove l Hl) as (x & y & x' & y' & Hv & Hv' & Hx' & Hy').
  exists x, y, x', y'. split; [done|]. split; [done|].
  unfold near in *. split; lra.
Qed.

(** Snapping an island twice. *)
Lemma snap_island_fl_twice (uv_layer : UVLayer) island (M : Q) (tx ty : Qc) :
  NoDup island → island ≠ [] → uvs_within M uv_layer island →
  (0 <= M)%Q → near 2 tx 0 → near 2 ty 0 → (2 * M + 10 <= B)%Q →
  let uv1 := snap_island_fl fl st (Fin tx) (Fin ty) uv_layer island in
  moved_by (2 * δ + 7 * ε) uv1
    (snap_island_fl fl st (Fin tx) (Fin ty) uv1 island) island 0 0.
Proof using All.
  intros Hnd Hne Hin HM Htx Hty HB uv1.
  destruct (snapped_island_fl uv_layer island M tx ty Hnd Hne Hin HM Htx Hty
              ltac:(lra)) as (Hin1 & x0 & y0 & x1 & y1 & Hbb & Hx & Hy).
  fold uv1 in Hin1, Hbb. clearbody uv1.
  eapply moved_by_weaken;
    [|apply (snap_centered_island_fl uv1 island (M + 3) (2 * δ + 7 * ε)
               tx ty x0 y0 x1 y1); auto; lra].
  lra.
Qed.

(** Snapping a mesh twice, islands detected afresh the second time, when
    the first snap has torn no two faces apart. *)
Lemma snap_mesh_fl_twice pick pick' m (uv_layer : UVLayer) (M : Q) (tx ty : Qc) :
  (∀ island, island ∈ find_islands pick m uv_layer →
             uvs_within M uv_layer island) →
  (0 <= M)%Q → near 2 tx 0 → near 2 ty 0 → (2 * M + 10 <= B)%Q →
  let uv1 := foldl (snap_island_fl fl st (Fin tx) (Fin ty)) uv_layer
                   (find_islands pick m uv_layer) in
  let uv2 := foldl (snap_island_fl fl st (Fin tx) (Fin ty)) uv1
                   (find_islands pick' m uv1) in
  (∀ f g, uv_connected m uv_layer f g → uv_connected m uv1 f g) →
  (∀ island, island ∈ find_islands pick' m uv1 →
             moved_by (2 * δ + 7 * ε) uv1 uv2 island 0 0) ∧
  (∀ l, (∀ island, island ∈ find_islands pick' m uv1 → l ∉ island) →
        uv2 l = uv1 l).
Proof using All.
  intros Hin HM Htx Hty HB uv1 uv2 Hkeep. split.
  2:{ intros l Hl. apply foldl_move_other; [apply snap_island_fl_local|done]. }
  intros L HL.
  destruct (decide (L = [])) as [->|Hne]; [by intros l ?%elem_of_nil|].
  pose proof (find_islands_NoDup _ _ _ _ HL) as Hnd.
  assert (∀ l, l ∈ L → snap_island_fl fl st (Fin tx) (Fin ty) uv1 L l = uv2 l)
    as Huv2.
  { intros l Hl. symmetry. apply foldl_move_island;
      auto using snap_island_fl_local. apply find_islands_disjoint. }
  assert (∀ I, I ∈ find_islands pick m uv_layer → I ≠ [] →
            uvs_within (M + 3) uv1 I ∧
            ∃ x0 y0 x1 y1 : Qc,
              island_bbox uv1 I = mkBBox (Fin x0) (Fin y0) (Fin x1) (Fin y1) ∧
              near (2 * δ + 7 * ε) (x0 + x1) (tx + tx) ∧
              near (2 * δ + 7 * ε) (y0 + y1) (ty + ty)) as Hfirst.
  { intros I HI HneI.
    pose proof (find_islands_NoDup _ _ _ _ HI) as HndI.
    assert (∀ l, l ∈ I →
              snap_island_fl fl st (Fin tx) (Fin ty) uv_layer I l = uv1 l) as Huv1.
    { intros l Hl. symmetry. apply foldl_move_island;
        auto using snap_island_fl_local. apply find_islands_disjoint. }
    destruct (snapped_island_fl uv_layer I M tx ty HndI HneI (Hin I HI) HM Htx Hty
                ltac:(lra)) as (Hin1 & Hbox).
    split; [by apply (uvs_within_ext _ _ _ _ Huv1)|].
    by rewrite <- (island_bbox_ext _ _ _ Huv1). }
  clearbody uv1.
  unfold find_islands in HL. apply list_elem_of_fmap in HL as (J & -> & HJ).
  destruct (islands_are_components_aux pick m uv_layer) as (Hunion & Hcomp).
  destruct (islands_are_components_aux pick' m uv1) as (Hunion1 & Hcomp1).
  assert (∀ l', l' ∈ island_uvs m J →
     ∃ I, I ∈ find_island_faces pick m uv_layer ∧ l' ∈ island_uvs m I ∧
          ∀ l'', l'' ∈ island_uvs m I → l'' ∈ island_uvs m J) as Hpart.
  { intros l' Hl'. apply elem_of_island_uvs in Hl' as [HfJ Hloops].
    assert (face_select m l'.1 = true) as Hsel by (apply Hunion1; eauto).
    destruct (proj2 (Hunion l'.1) Hsel) as (I & HI & HfI).
    exists I. split; [done|]. split; [by apply elem_of_island_uvs|].
    intros l'' [HI'' Hloops'']%elem_of_island_uvs.
    apply elem_of_island_uvs. split; [|done].
    apply (Hcomp1 J l'.1 HJ HfJ).
    eapply rtc_subrel; [|apply (Hcomp I l'.1 HI HfI); exact HI''].
    intros x y. apply Hkeep. }
  assert (∀ l', l' ∈ island_uvs m J →
     ∃ L', L' ∈ find_islands pick m uv_layer ∧ l' ∈ L' ∧
           ∀ l'', l'' ∈ L' → l'' ∈ island_uvs m J) as Hpart'.
  { intros l' Hl'. destruct (Hpart l' Hl') as (I & HI & Hl'I & Hsub).
    exists (island_uvs m I). split; [by apply list_elem_of_fmap_2|done]. }
  assert (uvs_within (M + 3) uv1 (island_uvs m J)) as Hin1.
  { intros l' Hl'. destruct (Hpart' l' Hl') as (L' & HL' & Hl'L' & _).
    assert (L' ≠ []) as HneL' by (by intros ->; apply elem_of_nil in Hl'L').
    destruct (Hfirst L' HL' HneL') as (Hw & _). by apply Hw. }
  destruct (island_bbox_covered_fl uv1 (island_uvs m J) (M + 3)
              (2 * δ + 7 * ε) tx ty Hne Hin1)
    as (x0 & y0 & x1 & y1 & Hbb & Hx & Hy).
  { intros l' Hl'. destruct (Hpart' l' Hl') as (L' & HL' & Hl'L' & Hsub).
    assert (L' ≠ []) as HneL' by (by intros ->; apply elem_of_nil in Hl'L').
    destruct (Hfirst L' HL' HneL') as (_ & a0 & b0 & a1 & b1 & Hb & Hnx & Hny).
    by exists L', a0, b0, a1, b1. }
  apply (moved_by_ext _ uv1 uv1
           (snap_island_fl fl st (Fin tx) (Fin ty) uv1 (island_uvs m J)));
    [done|done|].
  eapply moved_by_weaken;
    [|apply (snap_centered_island_fl uv1 (island_uvs m J) (M + 3)
               (2 * δ + 7 * ε) tx ty x0 y0 x1 y1); auto; lra].
  lra.
Qed.
End Analysis.

(** ** The two binary formats *)

Ltac eval_pow2 e :=
  let v := eval vm_compute in (pow2 e) in
  let E := fresh in
  assert (pow2 e = v) as E by (vm_compute; reflexivity); rewrite E; clear E.

Lemma binary64_rounds (M : Q) :
  (0 <= M)%Q → (M <= 65536)%Q →
  rounds (round_to binary64) (range_bound M) (eps64 M).
Proof.
  intros H0 HM. unfold eps64, range_bound.
  apply round_to_rounds; cbn [prec emin emax binary64].
  - eval_pow2 53%Z. lra.
  - eval_pow2 (-1074 - 1)%Z. lra.
  - eval_pow2 1024%Z. lra.
Qed.

Lemma binary32_rounds (M : Q) :
  (0 <= M)%Q → (M <= 65536)%Q →
  rounds (round_to binary32) (range_bound M) (eps32 M).
Proof.
  intros H0 HM. unfold eps32, range_bound.
  apply round_to_rounds; cbn [prec emin emax binary32].
  - eval_pow2 24%Z. lra.
  - eval_pow2 (-149 - 1)%Z. lra.
  - eval_pow2 128%Z. lra.
Qed.

Lemma rounding_bounds (M : Q) :
  (0 <= M)%Q → (M <= 65536)%Q →
  (0 <= eps64 M)%Q ∧ (0 <= eps32 M)%Q ∧
  (eps64 M <= 1 # 16)%Q ∧ (eps32 M <= 1 # 16)%Q ∧
  (2 * eps32 M + 16 * eps64 M <= tolerance M)%Q ∧
  (2 * M + 10 <= range_bound M)%Q.
Proof.
  intros H0 HM. unfold tolerance, eps64, eps32, range_bound.
  repeat split; lra.
Qed.

(** ** The two renderings of the operators *)

(** Within bounds the target is computed, whatever the rounding. *)
Lemma snap_target_fl_defined (fl : fnum → fnum) (columns rows : positive)
    (cell_index : N) :
  (cell_index < N.pos columns * N.pos rows)%N →
  ∃ target_x target_y,
    snap_target_fl fl columns rows cell_index = Some (target_x, target_y).
Proof.
  intros Hlt.
  destruct (cell_row_column columns rows cell_index Hlt) as [Hc Hr].
  unfold snap_target_fl, grid_x_fl, grid_y_fl.
  rewrite !list_lookup_fmap, !lookup_seq_lt by lia. simpl. by eexists _, _.
Qed.

(** What the rounded operators return when no selected mesh lacks the
    channel. *)
Lemma snap_execute_fl_finished fl st pick prefs cell_index (objs : list Object) :
  (cell_index < N.pos (grid_columns prefs) * N.pos (grid_rows prefs))%N →
  Forall (has_channel prefs) objs →
  ∃ target_x target_y,
    snap_target_fl fl (grid_columns prefs) (grid_rows prefs) cell_index
    = Some (target_x, target_y) ∧
    snap_execute_fl fl st pick prefs cell_index objs
    = (Returned FINISHED, objs ≫= object_reports pick prefs,
       process_object pick prefs (snap_island_fl fl st target_x target_y)
       <$> objs).
Proof.
  intros Hcell Hall.
  destruct (snap_target_fl_defined fl _ _ _ Hcell) as (tx & ty & Ht).
  exists tx, ty. split; [done|].
  unfold snap_execute_fl. apply N.leb_gt in Hcell as Hleb. rewrite Hleb, Ht.
  by rewrite for_selected_objects_all.
Qed.

Lemma offset_execute_fl_finished fl st pick prefs direction (objs : list Object) :
  Forall (has_channel prefs) objs →
  offset_execute_fl fl st pick prefs direction objs
  = (Returned FINISHED, objs ≫= object_reports pick prefs,
     process_object pick prefs
       (offset_island_fl fl st direction (grid_columns prefs) (grid_rows prefs))
     <$> objs).
Proof.
  intros Hall. unfold offset_execute_fl. by rewrite for_selected_objects_all.
Qed.

(** With a rounding that changes nothing, the rounded rendering is the
    exact one. *)
Lemma unrounded_snap_island (target_x target_y : Qc) :
  snap_island_fl id id (Fin target_x) (Fin target_y)
  = snap_island target_x target_y.
Proof. reflexivity. Qed.

Lemma unrounded_offset_island (direction : string) (columns rows : positive) :
  offset_island_fl id id direction columns rows
  = offset_island direction columns rows.
Proof. reflexivity. Qed.

Lemma unrounded_snap_target (columns rows : positive) (cell_index : N) :
  snap_target_fl id columns rows cell_index
  = (λ t, (Fin t.1, Fin t.2)) <$> snap_target columns rows cell_index.
Proof.
  unfold snap_target_fl, snap_target, grid_x_fl, grid_y_fl, grid_x, grid_y.
  rewrite !list_lookup_fmap.
  destruct (seq 0 (Pos.to_nat columns) !! _) as [i|]; [|done].
  destruct (seq 0 (Pos.to_nat rows) !! _) as [j|]; done.
Qed.

Lemma unrounded_snap_execute pick prefs cell_index objs :
  snap_execute_fl id id pick prefs cell_index objs
  = snap_execute pick prefs cell_index objs.
Proof.
  unfold snap_execute_fl, snap_execute. case_match; [done|].
  rewrite unrounded_snap_target.
  by destruct (snap_target _ _ _) as [[tx ty]|].
Qed.

Lemma unrounded_offset_execute pick prefs direction objs :
  offset_execute_fl id id pick prefs direction objs
  = offset_execute pick prefs direction objs.
Proof. reflexivity. Qed.

Lemma tolerance_nonneg (M : Q) : (0 <= M)%Q → (0 <= tolerance M)%Q.
Proof. intros H. unfold tolerance. lra. Qed.

Lemma near_weaken (τ τ' a b : Q) : (τ <= τ')%Q → near τ a b → near τ' a b.
Proof. unfold near. intros ? [? ?]. split; lra. Qed.

(** ** The operators in binary64 arithmetic on binary32 coordinates *)

(** C1 (amended).  For a cell index below [columns * rows] the target the
    snap computes lies within rounding of the center of the cell,
    [(column/columns + 1/(2 columns), (1 - row/rows) - 1/(2 rows))]; once
    the snap has moved the islands of a mesh, the center of the bounding
    box of every island with at least one coordinate lies within
    [tolerance M = (M + 6) / 2^21] of the center of the cell on each
    axis, [M] bounding the coordinates of the island, and every
    coordinate has moved by cell center minus old box center, up to the
    same tolerance.  Sums, differences and quotients are binary64
    operations and every coordinate written is rounded to binary32. *)
Theorem snap_centers_island_within_rounding (pick : Picker) (m : BMesh)
    (uv_layer : UVLayer) (columns rows : positive) (cell_index : N) (M : Q) :
  (cell_index < N.pos columns * N.pos rows)%N →
  (0 <= M)%Q → (M <= 65536)%Q →
  let row := (cell_index `div` N.pos columns)%N in
  let column := (cell_index `mod` N.pos columns)%N in
  let cell_x := (Qc_of_Z (Z.of_N column) / Qc_of_Z (Z.pos columns)
                 + 1 / Qc_of_Z (Z.pos (2 * columns)))%Qc in
  let cell_y := (1 - Qc_of_Z (Z.of_N row) / Qc_of_Z (Z.pos rows)
                 - 1 / Qc_of_Z (Z.pos (2 * rows)))%Qc in
  ∃ target_x target_y : Qc,
    snap_target_fl (round_to binary64) columns rows cell_index
    = Some (Fin target_x, Fin target_y) ∧
    near (tolerance M) target_x cell_x ∧ near (tolerance M) target_y cell_y ∧
    ∀ island, island ∈ find_islands pick m uv_layer → island ≠ [] →
      uvs_within M uv_layer island →
      let uv' := foldl (snap_island_fl (round_to binary64) (round_to binary32)
                          (Fin target_x) (Fin target_y))
                       uv_layer (find_islands pick m uv_layer) in
      ∃ mx my cx cy : Qc,
        center_x (island_bbox uv_layer island) = Fin mx ∧
        center_y (island_bbox uv_layer island) = Fin my ∧
        center_x (island_bbox uv' island) = Fin cx ∧
        center_y (island_bbox uv' island) = Fin cy ∧
        near (tolerance M) cx cell_x ∧ near (tolerance M) cy cell_y ∧
        moved_by (tolerance M) uv_layer uv' island (cell_x - mx) (cell_y - my).
Proof.
  intros Hlt H0 HM row column cell_x cell_y.
  destruct (rounding_bounds M H0 HM) as (E1 & E2 & E3 & E4 & Etol & Erange).
  destruct (snap_mesh_fl_centers _ _ _ _ _
              (binary64_rounds M H0 HM) (binary32_rounds M H0 HM) E1 E2 E3 E4
              pick m uv_layer columns rows cell_index M Hlt H0 ltac:(lra))
    as (ex & ey & tx & ty & Hex & Htfl & Hxn & Hyn & Hisl).
  rewrite snap_target_cell in Hex by done. injection Hex as <- <-.
  fold row column cell_x cell_y in Hxn, Hyn, Hisl.
  exists tx, ty. split; [done|].
  split; [apply (near_weaken (3 * eps64 M)); [lra|done]|].
  split; [apply (near_weaken (4 * eps64 M)); [lra|done]|].
  intros island HI Hne Hin uv'.
  destruct (Hisl island HI Hne Hin)
    as (mx & my & cx & cy & Hmx & Hmy & Hcx & Hcy & Hnx & Hny & Hmove).
  exists mx, my, cx, cy. do 4 (split; [done|]).
  split; [apply (near_weaken (eps32 M + 8 * eps64 M)); [lra|done]|].
  split; [apply (near_weaken (eps32 M + 8 * eps64 M)); [lra|done]|].
  apply (moved_by_weaken (eps32 M + 8 * eps64 M)); [lra|done].
Qed.

Lemma quad_uv_within (M : Q) (x0 x1 y0 y1 : Qc) island :
  near M x0 0 → near M x1 0 → near M y0 0 → near M y1 0 →
  uvs_within M (quad_uv x0 x1 y0 y1) island.
Proof.
  intros Hx0 Hx1 Hy0 Hy1 [f [|[|[|k]]]] _; eexists _, _; (split; [reflexivity|]);
    split; assumption.
Qed.

Ltac near_decide :=
  unfold near; split; apply Qle_bool_iff; vm_compute; reflexivity.

Lemma float_corner_uv_within island : uvs_within 1 float_corner_uv island.
Proof. apply quad_uv_within; near_decide. Qed.

Lemma moved_by_shift (η τ : Q) (uv_layer uv_layer' : UVLayer)
    (island : list loop) (dx dy dx' dy' : Q) :
  near τ dx dx' → near τ dy dy' → moved_by η uv_layer uv_layer' island dx dy →
  moved_by (η + τ) uv_layer uv_layer' island dx' dy'.
Proof.
  intros Hdx Hdy H l Hl. destruct (H l Hl) as (x & y & x' & y' & Hv & Hv' & Hx & Hy).
  exists x, y, x', y'. split; [done|]. split; [done|].
  unfold near in *. split; lra.
Qed.

Lemma snap_centers_island_within_rounding_witness :
  (5 < N.pos 4 * N.pos 2)%N ∧ (0 <= 1)%Q ∧ (1 <= 65536)%Q ∧
  ∃ target_x target_y : Qc,
    snap_target_fl (round_to binary64) 4 2 5
    = Some (Fin target_x, Fin target_y) ∧
    near (tolerance 1) target_x (3 # 8) ∧ near (tolerance 1) target_y (1 # 4) ∧
    let uv' := foldl (snap_island_fl (round_to binary64) (round_to binary32)
                        (Fin target_x) (Fin target_y))
                     float_corner_uv
                     (find_islands pick_first (quad_mesh float_corner_uv)
                        float_corner_uv) in
    (∃ cx cy : Qc,
       center_x (island_bbox uv' quad_island) = Fin cx ∧
       center_y (island_bbox uv' quad_island) = Fin cy ∧
       near (tolerance 1) cx (3 # 8) ∧ near (tolerance 1) cy (1 # 4)) ∧
    moved_by (2 * tolerance 1) float_corner_uv uv' quad_island (11 # 40) (3 # 20).
Proof.
  split; [reflexivity|]. split; [lra|]. split; [lra|].
  destruct (snap_centers_island_within_rounding pick_first
              (quad_mesh float_corner_uv) float_corner_uv 4 2 5 1 eq_refl
              ltac:(lra) ltac:(lra)) as (tx & ty & Ht & Hnx & Hny & Hisl).
  cbv zeta in Hnx, Hny, Hisl.
  assert ((Qc_of_Z (Z.of_N (5 `mod` N.pos 4)) / Qc_of_Z (Z.pos 4)
           + 1 / Qc_of_Z (Z.pos (2 * 4)))%Qc = Q2Qc (3 # 8)) as Etx
    by (apply Qc_is_canon; reflexivity).
  assert ((1 - Qc_of_Z (Z.of_N (5 `div` N.pos 4)) / Qc_of_Z (Z.pos 2)
           - 1 / Qc_of_Z (Z.pos (2 * 2)))%Qc = Q2Qc (1 # 4)) as Ety
    by (apply Qc_is_canon; reflexivity).
  rewrite Etx in Hnx, Hisl. rewrite Ety in Hny, Hisl.
  exists tx, ty. split; [exact Ht|]. split; [exact Hnx|]. split; [exact Hny|].
  destruct (Hisl quad_island)
    as (mx & my & cx & cy & Hmx & Hmy & Hcx & Hcy & Hx & Hy & Hmove).
  { apply quad_island_found. vm_compute. reflexivity. }
  { discriminate. }
  { apply float_corner_uv_within. }
  split.
  - exists cx, cy. split; [exact Hcx|]. split; [exact Hcy|].
    split; [exact Hx|exact Hy].
  - assert (center_x (island_bbox float_corner_uv quad_island)
            = Fin (Q2Qc (13421773 # 134217728))) as Emx by vm_decide.
    assert (center_y (island_bbox float_corner_uv quad_island)
            = Fin (Q2Qc (13421773 # 134217728))) as Emy by vm_decide.
    rewrite Emx in Hmx. injection Hmx as <-.
    rewrite Emy in Hmy. injection Hmy as <-.
    apply (moved_by_weaken (tolerance 1 + tolerance 1));
      [unfold tolerance; lra|].
    refine (moved_by_shift _ _ _ _ _ _ _ _ _ _ _ Hmove); near_decide.
Defined.

(** The center of the box after the snap need not be the center of the
    cell.  The default grid of 4 × 2 cells, cell 0, whose center
    (1/8, 3/4) the code computes exactly, and the quad
    [0, 0.2] × [0, 0.2] in binary32: the box of the quad the operator
    hands back is centered at x = 33554431 / 2^28, below 1/8. *)
Lemma snap_center_misses_cell_center :
  let uv' := foldl (snap_island_fl (round_to binary64) (round_to binary32)
                      (Fin (Q2Qc (1 # 8))) (Fin (Q2Qc (3 # 4))))
                   float_corner_uv
                   (find_islands pick_first (quad_mesh float_corner_uv)
                      float_corner_uv) in
  snap_target 4 2 0 = Some (Q2Qc (1 # 8), Q2Qc (3 # 4)) ∧
  snap_target_fl (round_to binary64) 4 2 0
  = Some (Fin (Q2Qc (1 # 8)), Fin (Q2Qc (3 # 4))) ∧
  snap_execute_fl (round_to binary64) (round_to binary32) pick_first
    default_prefs 0 [MeshObject (quad_mesh float_corner_uv)]
  = (Returned FINISHED, [], [MeshObject (quad_mesh uv')]) ∧
  find_islands pick_first (quad_mesh float_corner_uv) float_corner_uv
  = [quad_island] ∧
  (∀ l, l ∈ quad_island →
        round_to binary32 (vx (float_corner_uv l)) = vx (float_corner_uv l) ∧
        round_to binary32 (vy (float_corner_uv l)) = vy (float_corner_uv l)) ∧
  center_x (island_bbox uv' quad_island) = Fin (Q2Qc (33554431 # 268435456)) ∧
  center_x_fl (round_to binary64) (island_bbox uv' quad_island)
  = Fin (Q2Qc (33554431 # 268435456)) ∧
  Q2Qc (33554431 # 268435456) ≠ Q2Qc (1 # 8).
Proof.
  intros uv'. split; [vm_decide|]. split; [vm_decide|].
  split; [vm_compute; reflexivity|]. split; [vm_decide|].
  split; [intros l Hl; each_handle Hl|].
  split; [vm_decide|]. split; [vm_decide|]. vm_decide.
Qed.

(** C7 (amended).  Both operators translate an island rigidly up to
    rounding: there is one vector such that every coordinate of the
    island has moved by it, up to [tolerance M] on each axis, and the
    distance between any two coordinates of the island has changed by
    at most [3 * tolerance M]; [M] bounds the coordinates of the island.
    The distances need not be kept exactly, since every coordinate
    written is rounded on its own. *)
Theorem moves_are_translations_within_rounding (pick : Picker) (m : BMesh)
    (uv_layer : UVLayer) (island : list loop) (M : Q) :
  island ∈ find_islands pick m uv_layer →
  uvs_within M uv_layer island → (0 <= M)%Q → (M <= 65536)%Q →
  (∀ columns rows cell_index target_x target_y,
     (cell_index < N.pos columns * N.pos rows)%N →
     snap_target_fl (round_to binary64) columns rows cell_index
     = Some (target_x, target_y) →
     let uv' := foldl (snap_island_fl (round_to binary64) (round_to binary32)
                         target_x target_y)
                      uv_layer (find_islands pick m uv_layer) in
     (∃ dx dy : Q, moved_by (tolerance M) uv_layer uv' island dx dy) ∧
     rigid_within (3 * tolerance M) uv_layer uv' island) ∧
  (∀ direction columns rows,
     let uv' := foldl (offset_island_fl (round_to binary64) (round_to binary32)
                         direction columns rows)
                      uv_layer (find_islands pick m uv_layer) in
     (∃ dx dy : Q, moved_by (tolerance M) uv_layer uv' island dx dy) ∧
     rigid_within (3 * tolerance M) uv_layer uv' island).
Proof.
  intros HI Hin H0 HM.
  destruct (rounding_bounds M H0 HM) as (E1 & E2 & E3 & E4 & Etol & Erange).
  destruct (mesh_fl_moves _ _ _ _ _
              (binary64_rounds M H0 HM) (binary32_rounds M H0 HM) E1 E2 E3 E4
              pick m uv_layer island M HI Hin H0 ltac:(lra)) as [Hsnap Hoff].
  pose proof (tolerance_nonneg M H0) as Htol.
  split.
  - intros columns rows cell_index target_x target_y Hlt Ht uv'.
    destruct (snap_target_fl_near _ _ _ _ _
                (binary64_rounds M H0 HM) (binary32_rounds M H0 HM) E1 E2 E3 E4
                columns rows cell_index Hlt ltac:(lra))
      as (ex & ey & tx & ty & _ & Htfl & _ & _ & Hx2 & Hy2).
    rewrite Htfl in Ht. injection Ht as <- <-.
    destruct (Hsnap tx ty Hx2 Hy2) as (dx & dy & Hmove).
    assert (moved_by (tolerance M) uv_layer uv' island dx dy) as Hmove'
      by (apply (moved_by_weaken (eps64 M + eps32 M)); [lra|done]).
    split; [by exists dx, dy|]. by apply (moved_by_rigid _ _ _ _ dx dy).
  - intros direction columns rows uv'.
    destruct (Hoff direction columns rows) as (dx & dy & Hmove).
    assert (moved_by (tolerance M) uv_layer uv' island dx dy) as Hmove'
      by (apply (moved_by_weaken (eps64 M + eps32 M)); [lra|done]).
    split; [by exists dx, dy|]. by apply (moved_by_rigid _ _ _ _ dx dy).
Qed.

Lemma moves_are_translations_within_rounding_witness :
  quad_island ∈ find_islands pick_first (quad_mesh float_corner_uv)
                  float_corner_uv ∧
  uvs_within 1 float_corner_uv quad_island ∧ (0 <= 1)%Q ∧ (1 <= 65536)%Q ∧
  let uv' := foldl (offset_island_fl (round_to binary64) (round_to binary32)
                      "right" 3 2)
                   float_corner_uv
                   (find_islands pick_first (quad_mesh float_corner_uv)
                      float_corner_uv) in
  (∃ dx dy : Q, moved_by (tolerance 1) float_corner_uv uv' quad_island dx dy) ∧
  rigid_within (3 * tolerance 1) float_corner_uv uv' quad_island.
Proof.
  assert (quad_island ∈ find_islands pick_first (quad_mesh float_corner_uv)
                          float_corner_uv)
    as Hin by (apply quad_island_found; vm_compute; reflexivity).
  split; [exact Hin|]. split; [apply float_corner_uv_within|].
  split; [lra|]. split; [lra|].
  exact (proj2 (moves_are_translations_within_rounding pick_first
                  (quad_mesh float_corner_uv) float_corner_uv quad_island 1 Hin
                  (float_corner_uv_within _) ltac:(lra) ltac:(lra))
           "right"%string 3%positive 2%positive).
Defined.

(** The moves are not exact translations.  The quad [0, 0.2] × [0, 0.2]
    in binary32 on the default grid of 4 × 2 cells, snapped to cell 0 or
    offset to the right by a quarter: its corners 0 and 1 move by
    different amounts on x, and the square of their distance changes. *)
Lemma moves_change_distances :
  let detected := find_islands pick_first (quad_mesh float_corner_uv)
                    float_corner_uv in
  let snapped := foldl (snap_island_fl (round_to binary64) (round_to binary32)
                          (Fin (Q2Qc (1 # 8))) (Fin (Q2Qc (3 # 4))))
                       float_corner_uv detected in
  let shifted := foldl (offset_island_fl (round_to binary64) (round_to binary32)
                          "right" 4 2)
                       float_corner_uv detected in
  detected = [quad_island] ∧
  snap_execute_fl (round_to binary64) (round_to binary32) pick_first
    default_prefs 0 [MeshObject (quad_mesh float_corner_uv)]
  = (Returned FINISHED, [], [MeshObject (quad_mesh snapped)]) ∧
  offset_execute_fl (round_to binary64) (round_to binary32) pick_first
    default_prefs "right" [MeshObject (quad_mesh float_corner_uv)]
  = (Returned FINISHED, [], [MeshObject (quad_mesh shifted)]) ∧
  vx (float_corner_uv (0, 0)) = Fin 0 ∧
  vx (float_corner_uv (0, 1)) = Fin (Q2Qc (13421773 # 67108864)) ∧
  vx (snapped (0, 0)) = Fin (Q2Qc (3355443 # 134217728)) ∧
  vx (snapped (0, 1)) = Fin (Q2Qc (7549747 # 33554432)) ∧
  vx (shifted (0, 0)) = Fin (Q2Qc (1 # 4)) ∧
  vx (shifted (0, 1)) = Fin (Q2Qc (7549747 # 16777216)) ∧
  dist_sq (snapped (0, 0)) (snapped (0, 1))
  ≠ dist_sq (float_corner_uv (0, 0)) (float_corner_uv (0, 1)) ∧
  dist_sq (shifted (0, 0)) (shifted (0, 1))
  ≠ dist_sq (float_corner_uv (0, 0)) (float_corner_uv (0, 1)).
Proof.
  intros detected snapped shifted. split; [vm_decide|].
  split; [vm_compute; reflexivity|]. split; [vm_compute; reflexivity|].
  repeat split; vm_decide.
Qed.

(** C6 (amended).  A second snap to the same cell changes every
    coordinate by at most [tolerance M]: for one island snapped twice,
    the box being computed again from the moved coordinates, and for a
    mesh snapped twice, the islands being detected afresh on the moved
    coordinates, provided the first snap has left UV-connected every two
    faces that were.  The coordinates after the second snap need not be
    those after the first. *)
Theorem snap_twice_within_rounding (pick : Picker) (m : BMesh)
    (uv_layer : UVLayer) (columns rows : positive) (cell_index : N) (M : Q) :
  (cell_index < N.pos columns * N.pos rows)%N →
  (0 <= M)%Q → (M <= 65536)%Q →
  ∃ target_x target_y : Qc,
    snap_target_fl (round_to binary64) columns rows cell_index
    = Some (Fin target_x, Fin target_y) ∧
    let snap := snap_island_fl (round_to binary64) (round_to binary32)
                  (Fin target_x) (Fin target_y) in
    (∀ island, island ∈ find_islands pick m uv_layer → island ≠ [] →
       uvs_within M uv_layer island →
       moved_by (tolerance M) (snap uv_layer island)
         (snap (snap uv_layer island) island) island 0 0) ∧
    ((∀ island, island ∈ find_islands pick m uv_layer →
                uvs_within M uv_layer island) →
     let uv1 := foldl snap uv_layer (find_islands pick m uv_layer) in
     ∀ pick',
       let uv2 := foldl snap uv1 (find_islands pick' m uv1) in
       (∀ f g, uv_connected m uv_layer f g → uv_connected m uv1 f g) →
       (∀ island, island ∈ find_islands pick' m uv1 →
                  moved_by (tolerance M) uv1 uv2 island 0 0) ∧
       (∀ l, (∀ island, island ∈ find_islands pick' m uv1 → l ∉ island) →
             uv2 l = uv1 l)).
Proof.
  intros Hlt H0 HM.
  destruct (rounding_bounds M H0 HM) as (E1 & E2 & E3 & E4 & Etol & Erange).
  destruct (snap_target_fl_near _ _ _ _ _
                (binary64_rounds M H0 HM) (binary32_rounds M H0 HM) E1 E2 E3 E4
              columns rows cell_index Hlt ltac:(lra))
    as (ex & ey & tx & ty & _ & Htfl & _ & _ & Hx2 & Hy2).
  exists tx, ty. split; [done|]. intros snap. split.
  - intros island HI Hne Hin.
    pose proof (find_islands_NoDup _ _ _ _ HI) as Hnd.
    apply (moved_by_weaken (2 * eps32 M + 7 * eps64 M)); [lra|].
    apply (snap_island_fl_twice _ _ _ _ _
             (binary64_rounds M H0 HM) (binary32_rounds M H0 HM) E1 E2 E3 E4
             uv_layer island M tx ty); auto.
  - intros Hin uv1 pick' uv2 Hkeep.
    destruct (snap_mesh_fl_twice _ _ _ _ _
                (binary64_rounds M H0 HM) (binary32_rounds M H0 HM) E1 E2 E3 E4
                pick pick' m uv_layer M tx ty Hin H0 Hx2 Hy2 Erange Hkeep)
      as [Hmoved Hrest].
    split; [|done]. intros island HI.
    apply (moved_by_weaken (2 * eps32 M + 7 * eps64 M)); [lra|]. by apply Hmoved.
Qed.

Lemma quad_stays_connected (uv_layer uv1 : UVLayer) :
  uv_close (uv1 (0, 0)) (uv1 (0, 0)) = true →
  ∀ f g, uv_connected (quad_mesh uv_layer) uv_layer f g →
         uv_connected (quad_mesh uv_layer) uv1 f g.
Proof.
  intros Hclose f g (Hf & Hg & _ & _).
  assert (f = 0) as -> by (apply face_select_lt in Hf; simpl in Hf; lia).
  assert (g = 0) as -> by (apply face_select_lt in Hg; simpl in Hg; lia).
  split; [done|]. split; [done|]. split.
  - exists [0]. split; [by left|]. split; by left.
  - exists (0, 0), (0, 0). split; [by left|]. split; [by left|done].
Qed.

Lemma snap_twice_within_rounding_witness :
  (5 < N.pos 4 * N.pos 2)%N ∧ (0 <= 1)%Q ∧ (1 <= 65536)%Q ∧
  ∃ target_x target_y : Qc,
    snap_target_fl (round_to binary64) 4 2 5
    = Some (Fin target_x, Fin target_y) ∧
    let snap := snap_island_fl (round_to binary64) (round_to binary32)
                  (Fin target_x) (Fin target_y) in
    moved_by (tolerance 1) (snap float_corner_uv quad_island)
      (snap (snap float_corner_uv quad_island) quad_island) quad_island 0 0 ∧
    let uv1 := foldl snap float_corner_uv
                 (find_islands pick_first (quad_mesh float_corner_uv)
                    float_corner_uv) in
    let uv2 := foldl snap uv1
                 (find_islands pick_first (quad_mesh float_corner_uv) uv1) in
    ∀ island,
      island ∈ find_islands pick_first (quad_mesh float_corner_uv) uv1 →
      moved_by (tolerance 1) uv1 uv2 island 0 0.
Proof.
  split; [reflexivity|]. split; [lra|]. split; [lra|].
  destruct (snap_twice_within_rounding pick_first (quad_mesh float_corner_uv)
              float_corner_uv 4 2 5 1 eq_refl ltac:(lra) ltac:(lra))
    as (tx & ty & Ht & Hisland & Hmesh).
  exists tx, ty. split; [exact Ht|]. split.
  - apply Hisland.
    + apply quad_island_found. vm_compute. reflexivity.
    + discriminate.
    + apply float_corner_uv_within.
  - cbv zeta in Hmesh.
    apply (Hmesh (λ island _, float_corner_uv_within island) pick_first).
    apply quad_stays_connected.
    assert (snap_target_fl (round_to binary64) 4 2 5
            = Some (Fin (Q2Qc (3 # 8)), Fin (Q2Qc (1 # 4)))) as Ht'
      by vm_decide.
    rewrite Ht in Ht'. injection Ht' as -> ->. vm_compute. reflexivity.
Defined.

(** The second snap can move a coordinate.  The quad [0, 0.2] × [0, 0.2]
    in binary32 snapped twice to cell 0 of the default grid of 4 × 2
    cells: corner 0 is at x = 6710886 / 2^28 after the first run of the
    operator and at 6710887 / 2^28 after the second, the same island
    being detected both times. *)
Lemma second_snap_moves_island :
  let snap := snap_island_fl (round_to binary64) (round_to binary32)
                (Fin (Q2Qc (1 # 8))) (Fin (Q2Qc (3 # 4))) in
  let run := snap_execute_fl (round_to binary64) (round_to binary32)
               pick_first default_prefs 0 in
  let uv1 := foldl snap float_corner_uv
               (find_islands pick_first (quad_mesh float_corner_uv)
                  float_corner_uv) in
  let uv2 := foldl snap uv1 (find_islands pick_first (quad_mesh uv1) uv1) in
  snap_target_fl (round_to binary64) 4 2 0
  = Some (Fin (Q2Qc (1 # 8)), Fin (Q2Qc (3 # 4))) ∧
  run [MeshObject (quad_mesh float_corner_uv)]
  = (Returned FINISHED, [], [MeshObject (quad_mesh uv1)]) ∧
  run [MeshObject (quad_mesh uv1)]
  = (Returned FINISHED, [], [MeshObject (quad_mesh uv2)]) ∧
  find_islands pick_first (quad_mesh float_corner_uv) float_corner_uv
  = [quad_island] ∧
  find_islands pick_first (quad_mesh uv1) uv1 = [quad_island] ∧
  vx (uv1 (0, 0)) = Fin (Q2Qc (6710886 # 268435456)) ∧
  vx (uv2 (0, 0)) = Fin (Q2Qc (6710887 # 268435456)) ∧
  uv2 (0, 0) ≠ uv1 (0, 0) ∧
  snap (snap float_corner_uv quad_island) quad_island (0, 0)
  ≠ snap float_corner_uv quad_island (0, 0).
Proof.
  intros snap run uv1 uv2. split; [vm_decide|].
  split; [vm_compute; reflexivity|]. split; [vm_compute; reflexivity|].
  repeat split; vm_decide.
Qed.
